(** * Batched transit-network state and cost modules

    A shallow embedding of [simulation/transit_time_estimator.py]:
    the class [RouteGenBatchState] (route construction by shortest-path
    segments, the route-derivation refresh, clearing), the cost helper
    shared by [MyCostModule] and [NikolicCostModule], and the diagnostic
    [check_for_duplicate_routes].

    Conventions of the embedding.
    - A tensor of rank 1 is a [list], of rank 2 a list of rows, of rank 3
      a list of matrices.  The batch dimension is the list of scenarios:
      the source builds one [ExtraStateData] record per scenario and
      stacks them, and so does the model.
    - Times (drive times, route matrix, transit times) are exact
      rationals extended with [+inf]: [ext].  Values that go through a
      division (the costs) live in [tfloat], which also has [-inf] and
      [nan] with the IEEE rules for them; finite arithmetic is exact.
    - Node indices and route entries are [Z]; [-1] is the padding value.
    - A method that can raise returns an [outcome]: the state the object
      is left in, and the exception when there is one. *)

From Stdlib Require Import ZArith QArith Qabs Qround Qminmax Lqa Lia String.
From stdpp Require Import base list strings.

Local Open Scope Z_scope.

(** ** Extended times *)

Inductive ext : Type :=
| Fin (q : Q)
| Inf.

(** [x < float('inf')] *)
Definition lt_inf (x : ext) : bool :=
  match x with Fin _ => true | Inf => false end.

Definition ext_le (x y : ext) : Prop :=
  match x, y with
  | Fin a, Fin b => (a <= b)%Q
  | _, Inf => True
  | Inf, Fin _ => False
  end.

Definition ext_leb (x y : ext) : bool :=
  match x, y with
  | Fin a, Fin b => Qle_bool a b
  | _, Inf => true
  | Inf, Fin _ => false
  end.

(** [torch.minimum] on one element *)
Definition ext_min (x y : ext) : ext := if ext_leb x y then x else y.

Definition ext_add (x y : ext) : ext :=
  match x, y with
  | Fin a, Fin b => Fin (a + b)
  | _, _ => Inf
  end.

Definition ext_sum (l : list ext) : ext := foldr ext_add (Fin 0) l.

(** [0 < q] as a boolean *)
Definition Qpos (q : Q) : bool := negb (Qle_bool q 0).

(** ** Tensors *)

Abbreviation mat A := (list (list A)).

Definition mlookup {A} (m : mat A) (i j : nat) : option A :=
  m !! i ≫= (.!! j).

Definition mmap {A B} (f : A → B) (m : mat A) : mat B :=
  (λ row : list A, f <$> row) <$> m.

Definition mzip_with {A B C} (f : A → B → C) (a : mat A) (b : mat B) : mat C :=
  zip_with (zip_with f) a b.

(** The [n]×[n] tensor whose entry [(i, j)] is [f i j]. *)
Definition mbuild {A} (n : nat) (f : nat → nat → A) : mat A :=
  (λ i, f i <$> seq 0 n) <$> seq 0 n.

Definition square {A} (n : nat) (m : mat A) : Prop :=
  length m = n ∧ Forall (λ row, length row = n) m.

(** [m.transpose(1, 2)] of a per-scenario square tensor *)
Definition mtranspose {A} (d : A) (m : mat A) : mat A :=
  mbuild (length m) (λ i j, default d (mlookup m j i)).

(** [torch.eye(n, dtype=bool)] *)
Definition eye (n : nat) : mat bool := mbuild n (λ i j, bool_decide (i = j)).

(** [(t > -1).sum(dim=-1)] *)
Definition count_stops (route : list Z) : nat :=
  length (filter (λ x, -1 < x) route).

(** [route[route > -1]] *)
Definition valid_stops (route : list Z) : list Z := filter (λ x, -1 < x) route.

(** [torch.full((n,), -1)] *)
Definition no_route (n : nat) : list Z := replicate n (-1).

(** Indexing with one integer index: a negative index counts from the
    end, an index out of range raises [IndexError] ([None]). *)
Definition tindex {A} (l : list A) (i : Z) : option A :=
  let n := Z.of_nat (length l) in
  if (0 <=? i) && (i <? n) then l !! Z.to_nat i
  else if (- n <=? i) && (i <? 0) then l !! Z.to_nat (n + i)
  else None.

(** Indexing a rank-3 tensor with two integer indices *)
Definition tindex2 {A} (t : list (mat A)) (i j : Z) : option (list A) :=
  tindex t i ≫= (λ m, tindex m j).

(** Number of elements of a rank-3 tensor *)
Definition numel3 {A} (t : list (mat A)) : nat :=
  sum_list ((λ m : mat A, sum_list (length <$> m)) <$> t).

(** [bool] as the integer it multiplies as *)
Definition Z_of_bool (b : bool) : Z := if b then 1 else 0.

(** ** Exceptions *)

Inductive exn : Type :=
| AssertionError (msg : string)
| IndexError
| RuntimeError
| TypeError.

Definition result (A : Type) : Type := exn + A.

#[global] Instance result_ret : MRet result := λ A x, inr x.
#[global] Instance result_bind : MBind result :=
  λ A B f r, match r with inl e => inl e | inr x => f x end.
#[global] Instance result_fmap : FMap result :=
  λ A B f r, match r with inl e => inl e | inr x => inr (f x) end.

Definition raise {A} (e : exn) : result A := inl e.

(** An index that can fail *)
Definition index_or_raise {A} (o : option A) : result A :=
  match o with Some x => inr x | None => raise IndexError end.

(** ** Data model *)

(** One scenario of the batched graph data: tensors padded to the
    batch's largest node count. *)
Record GraphData : Type := {
  num_nodes : nat;
  drive_times : mat ext;
  demand : mat Q;
  nexts : mat Z;
}.

(** The per-scenario record of the source, less [norm_node_features],
    which no route operation reads or writes. *)
Record ExtraStateData : Type := {
  base_valid_terms_mat : mat bool;
  valid_terms_mat : mat bool;
  mean_stop_time : Q;
  transfer_time_s : Q;
  total_route_time : ext;
  n_routes_to_plan : Z;
  min_route_len : Z;
  max_route_len : Z;
  n_nodes_in_scenario : nat;
  directly_connected : mat bool;
  route_mat : mat ext;
  transit_times : mat ext;
  has_path : mat bool;
  current_routes : list Z;
  current_route_time : ext;
  current_route_times_from_start : list ext;
  shortest_path_sequences : list (mat Z);
  route_nexts : mat Z;
  n_transfers : mat Z;
  cost_weights : list (string * Q);
  fixed_routes : mat Z;
}.

(** Scenario [b] of a state: [graph_data[b]], [_finished_routes[b]] and
    [extra_data[b]]. *)
Record Scenario : Type := {
  graph_data : GraphData;
  finished_routes : mat Z;
  extra_data : ExtraStateData;
}.

Record RouteGenBatchState : Type := {
  symmetric_routes : bool;
  scenarios : list Scenario;
}.

(** The state a method leaves behind, and the exception it raised. *)
Inductive outcome : Type :=
| Ok (st : RouteGenBatchState)
| Raise (e : exn) (st : RouteGenBatchState).

Definition final_state (o : outcome) : RouteGenBatchState :=
  match o with Ok st => st | Raise _ st => st end.

Definition set_extra (f : ExtraStateData → ExtraStateData) (sc : Scenario) : Scenario :=
  {| graph_data := graph_data sc;
     finished_routes := finished_routes sc;
     extra_data := f (extra_data sc) |}.

Definition set_scenarios (st : RouteGenBatchState) (l : list Scenario) : RouteGenBatchState :=
  {| symmetric_routes := symmetric_routes st; scenarios := l |}.

(** ** The graph-algorithm library

    [torch_utils] is outside the modelled file.  Its functions are the
    members of an interface, one scenario at a time; what the proofs
    need of them is stated separately, as [GraphAlgorithmsSpec]. *)
Class GraphAlgorithms : Type := {
  (** next-hop and distance matrices of the all-pairs shortest paths *)
  floyd_warshall : mat ext → mat Z * mat ext;
  (** for every node pair, the padded stop sequence and its length *)
  reconstruct_all_paths : mat Z → list (mat Z) * mat Z;
  (** routes, drive times, mean stop time, symmetric: direct-ride times *)
  get_route_edge_matrix : mat Z → mat ext → Q → bool → mat ext;
  (** routes, drive times, mean stop time: the leg times of each route *)
  get_route_leg_times : mat Z → mat ext → Q → mat ext;
  (** width, from, to: the mask of the positions of a row in a slice *)
  get_variable_slice_mask : nat → nat → nat → list bool;
  (** the routes of every scenario, padded to one rank-3 tensor *)
  get_batch_tensor_from_routes : list (mat Z) → list (mat Z);
}.

(** ** Cost-module configuration *)

Module CostModule.
Record t : Type := {
  mean_stop_time_s : Q;
  avg_transfer_wait_time_s : Q;
  symmetric_routes : bool;
  low_memory_mode : bool;
}.
End CostModule.

Module MyCostModule.
Record t : Type := {
  base : CostModule.t;
  demand_time_weight : Q;
  route_time_weight : Q;
  constraint_violation_weight : Q;
  variable_weights : bool;
  min_route_len : option Z;
  max_route_len : option Z;
  ignore_stops_oob : bool;
}.

Definition get_weights (self : t) : list (string * list Q) :=
  [("demand_time_weight"%string, [demand_time_weight self]);
   ("route_time_weight"%string, [route_time_weight self])].
End MyCostModule.

Module NikolicCostModule.
Record t : Type := {
  base : CostModule.t;
  unsatisfied_penalty_extra_s : Q;
}.

(** set by the constructor of the class *)
Definition min_route_len (self : t) : option Z := Some 2.
Definition max_route_len (self : t) : option Z := None.

Definition get_weights (self : t) : list (string * list Q) := [].
End NikolicCostModule.

(** The [cost_obj] argument of the state's constructor *)
Inductive cost_obj : Type :=
| My (m : MyCostModule.t)
| Nikolic (n : NikolicCostModule.t).

Definition cost_base (c : cost_obj) : CostModule.t :=
  match c with My m => MyCostModule.base m | Nikolic n => NikolicCostModule.base n end.

Definition cost_min_route_len (c : cost_obj) : option Z :=
  match c with
  | My m => MyCostModule.min_route_len m
  | Nikolic n => NikolicCostModule.min_route_len n
  end.

Definition cost_max_route_len (c : cost_obj) : option Z :=
  match c with
  | My m => MyCostModule.max_route_len m
  | Nikolic n => NikolicCostModule.max_route_len n
  end.

Definition cost_get_weights (c : cost_obj) : list (string * list Q) :=
  match c with
  | My m => MyCostModule.get_weights m
  | Nikolic n => NikolicCostModule.get_weights n
  end.

(** ** Construction *)

(** [if val.numel() == 1: val = val.expand(n)] *)
Definition expand_to {A} (n : nat) (val : list A) : list A :=
  match val with [x] => replicate n x | _ => val end.

(** [transit_times = 1 - torch.eye(n); transit_times[transit_times > 0] = inf] *)
Definition initial_times (n : nat) : mat ext :=
  mmap (λ x : Q, if Qpos x then Inf else Fin x)
       (mmap (λ e : bool, (1 - (if e then 1 else 0))%Q) (eye n)).

(** [torch.zeros((n, n), dtype=torch.long)] *)
Definition zeros_long (n : nat) : mat Z := mbuild n (λ _ _, 0).

(** The body of the constructor's loop, for scenario [ii]. *)
Definition init_extra_data (max_n_nodes : nat) (cost : cost_obj)
    (valid_terms : list (mat bool)) (n_routes : list Z)
    (weights : list (string * list Q)) (fixed : option (list (mat Z)))
    (ii : nat) (dd : GraphData) : result ExtraStateData :=
  vt ← index_or_raise (valid_terms !! ii);
  nr ← index_or_raise (n_routes !! ii);
  minl ← match cost_min_route_len cost with
          | Some l => mret l
          | None => raise RuntimeError
          end;
  let maxl := default (Z.of_nat (num_nodes dd)) (cost_max_route_len cost) in
  cw ← mapM (M := result)
         (λ kv : string * list Q, w ← index_or_raise (kv.2 !! ii); mret (kv.1, w))
         weights;
  fr ← match fixed with
        | Some f =>
            if bool_decide (length f = 1%nat) then mret (default [] (head f))
            else raise (AssertionError "")
        | None => mret []
        end;
  mret {|
    base_valid_terms_mat := vt;
    valid_terms_mat := vt;
    mean_stop_time := CostModule.mean_stop_time_s (cost_base cost);
    transfer_time_s := CostModule.avg_transfer_wait_time_s (cost_base cost);
    total_route_time := Fin 0;
    n_routes_to_plan := nr;
    min_route_len := minl;
    max_route_len := maxl;
    n_nodes_in_scenario := num_nodes dd;
    directly_connected := eye max_n_nodes;
    route_mat := initial_times max_n_nodes;
    transit_times := initial_times max_n_nodes;
    has_path := eye max_n_nodes;
    current_routes := no_route max_n_nodes;
    current_route_time := Fin 0;
    current_route_times_from_start := replicate max_n_nodes (Fin 0);
    shortest_path_sequences := [];
    route_nexts := zeros_long max_n_nodes;
    n_transfers := zeros_long max_n_nodes;
    cost_weights := cw;
    fixed_routes := fr;
  |}.

(** [RouteGenBatchState.__init__].  The method reads a name
    [fixed_routes] that it does not bind; it is an argument here. *)
Definition __init__ (graphs : list GraphData) (cost : cost_obj)
    (n_routes : list Z) (valid_terms_mat : option (list (mat bool)))
    (cost_weights : option (list (string * list Q)))
    (fixed : option (list (mat Z))) : result RouteGenBatchState :=
  let num_graphs := length graphs in
  let max_n_nodes := foldr Nat.max 0%nat (num_nodes <$> graphs) in
  let valid_terms :=
    match valid_terms_mat with
    | Some v => v
    | None => replicate num_graphs (mmap negb (eye max_n_nodes))
    end in
  let weights :=
    (λ kv : string * list Q, (kv.1, expand_to num_graphs kv.2))
      <$> default (cost_get_weights cost) cost_weights in
  let n_routes := expand_to num_graphs n_routes in
  extra_datas ← mapM (M := result)
    (λ p : nat * GraphData,
       init_extra_data max_n_nodes cost valid_terms n_routes weights fixed p.1 p.2)
    (imap pair graphs);
  mret {|
    symmetric_routes := CostModule.symmetric_routes (cost_base cost);
    scenarios :=
      zip_with (λ dd ed, {| graph_data := dd; finished_routes := []; extra_data := ed |})
               graphs extra_datas;
  |}.

(** ** Field updates of the per-scenario record *)

Definition with_mutable (ed : ExtraStateData)
    (vt : mat bool) (trt : ext) (dc : mat bool) (rm times : mat ext) (hp : mat bool)
    (cr : list Z) (crt : ext) (crtfs : list ext) (sps : list (mat Z))
    (rn nt : mat Z) : ExtraStateData :=
  {| base_valid_terms_mat := base_valid_terms_mat ed;
     valid_terms_mat := vt;
     mean_stop_time := mean_stop_time ed;
     transfer_time_s := transfer_time_s ed;
     total_route_time := trt;
     n_routes_to_plan := n_routes_to_plan ed;
     min_route_len := min_route_len ed;
     max_route_len := max_route_len ed;
     n_nodes_in_scenario := n_nodes_in_scenario ed;
     directly_connected := dc;
     route_mat := rm;
     transit_times := times;
     has_path := hp;
     current_routes := cr;
     current_route_time := crt;
     current_route_times_from_start := crtfs;
     shortest_path_sequences := sps;
     route_nexts := rn;
     n_transfers := nt;
     cost_weights := cost_weights ed;
     fixed_routes := fixed_routes ed |}.

Definition set_valid_terms_mat (v : mat bool) (ed : ExtraStateData) :=
  with_mutable ed v (total_route_time ed) (directly_connected ed) (route_mat ed)
    (transit_times ed) (has_path ed) (current_routes ed) (current_route_time ed)
    (current_route_times_from_start ed) (shortest_path_sequences ed)
    (route_nexts ed) (n_transfers ed).

Definition set_total_route_time (v : ext) (ed : ExtraStateData) :=
  with_mutable ed (valid_terms_mat ed) v (directly_connected ed) (route_mat ed)
    (transit_times ed) (has_path ed) (current_routes ed) (current_route_time ed)
    (current_route_times_from_start ed) (shortest_path_sequences ed)
    (route_nexts ed) (n_transfers ed).

Definition set_directly_connected (v : mat bool) (ed : ExtraStateData) :=
  with_mutable ed (valid_terms_mat ed) (total_route_time ed) v (route_mat ed)
    (transit_times ed) (has_path ed) (current_routes ed) (current_route_time ed)
    (current_route_times_from_start ed) (shortest_path_sequences ed)
    (route_nexts ed) (n_transfers ed).

Definition set_route_mat (v : mat ext) (ed : ExtraStateData) :=
  with_mutable ed (valid_terms_mat ed) (total_route_time ed) (directly_connected ed) v
    (transit_times ed) (has_path ed) (current_routes ed) (current_route_time ed)
    (current_route_times_from_start ed) (shortest_path_sequences ed)
    (route_nexts ed) (n_transfers ed).

Definition set_current_routes (v : list Z) (ed : ExtraStateData) :=
  with_mutable ed (valid_terms_mat ed) (total_route_time ed) (directly_connected ed)
    (route_mat ed) (transit_times ed) (has_path ed) v (current_route_time ed)
    (current_route_times_from_start ed) (shortest_path_sequences ed)
    (route_nexts ed) (n_transfers ed).

Definition set_current_route_time (v : ext) (ed : ExtraStateData) :=
  with_mutable ed (valid_terms_mat ed) (total_route_time ed) (directly_connected ed)
    (route_mat ed) (transit_times ed) (has_path ed) (current_routes ed) v
    (current_route_times_from_start ed) (shortest_path_sequences ed)
    (route_nexts ed) (n_transfers ed).

Definition set_current_route_times_from_start (v : list ext) (ed : ExtraStateData) :=
  with_mutable ed (valid_terms_mat ed) (total_route_time ed) (directly_connected ed)
    (route_mat ed) (transit_times ed) (has_path ed) (current_routes ed)
    (current_route_time ed) v (shortest_path_sequences ed)
    (route_nexts ed) (n_transfers ed).

Definition set_shortest_path_sequences (v : list (mat Z)) (ed : ExtraStateData) :=
  with_mutable ed (valid_terms_mat ed) (total_route_time ed) (directly_connected ed)
    (route_mat ed) (transit_times ed) (has_path ed) (current_routes ed)
    (current_route_time ed) (current_route_times_from_start ed) v
    (route_nexts ed) (n_transfers ed).

(** The fields the route-derivation refresh recomputes from [route_mat] *)
Definition set_derived (vt : mat bool) (times : mat ext) (hp : mat bool) (rn nt : mat Z)
    (ed : ExtraStateData) :=
  with_mutable ed vt (total_route_time ed) (directly_connected ed) (route_mat ed)
    times hp (current_routes ed) (current_route_time ed)
    (current_route_times_from_start ed) (shortest_path_sequences ed) rn nt.

Definition set_finished_routes (v : mat Z) (sc : Scenario) : Scenario :=
  {| graph_data := graph_data sc; finished_routes := v; extra_data := extra_data sc |}.

(** ** Tensor operations used by the methods *)

(** [torch.where(m < inf)] on one scenario: the coordinates, row-major *)
Definition where_finite (m : mat ext) : list (nat * nat) :=
  mjoin (imap (λ i (row : list ext),
                 omap (λ p : nat * ext, if lt_inf p.2 then Some (i, p.1) else None)
                      (imap pair row)) m).

(** [dc[idxs[0], idxs[1]] = True] *)
Definition set_connected (dc : mat bool) (idxs : list (nat * nat)) : mat bool :=
  foldl (λ (m : mat bool) (p : nat * nat), alter (λ row, <[p.2 := true]> row) p.1 m) dc idxs.

(** [t[mask] = value] with a mask of the tensor's shape *)
Definition mask_fill {A} (value : A) (t : mat A) (mask : mat bool) : mat A :=
  mzip_with (λ x (m : bool), if m then value else x) t mask.

(** [a.bmm(b)] on one scenario, on tensors of counts *)
Definition bmm (a b : mat nat) : mat nat :=
  let width := length (default [] (head b)) in
  (λ row : list nat,
     (λ j, sum_list (zip_with Nat.mul row ((λ r : list nat, default 0%nat (r !! j)) <$> b)))
       <$> seq 0 width) <$> a.

Definition nat_of_bool (b : bool) : nat := if b then 1%nat else 0%nat.
Definition nonzero (n : nat) : bool := negb (Nat.eqb n 0).

(** [t.cumsum(dim=1)] on one row *)
Fixpoint cumsum_from (acc : ext) (l : list ext) : list ext :=
  match l with
  | [] => []
  | x :: l' => ext_add acc x :: cumsum_from (ext_add acc x) l'
  end.
Definition cumsum (l : list ext) : list ext := cumsum_from (Fin 0) l.

(** [t[mask]] on one row *)
Definition masked_select {A} (mask : list bool) (t : list A) : list A :=
  omap (λ p : bool * A, if p.1 then Some p.2 else None) (zip mask t).

(** [t[mask] = vals] on one row: the row, and the values not used yet;
    [None] when the values run out. *)
Fixpoint masked_assign_row (mask : list bool) (t vals : list Z) : option (list Z * list Z) :=
  match mask, t with
  | m :: mask', x :: t' =>
      if m then
        match vals with
        | v :: vals' =>
            p ← masked_assign_row mask' t' vals'; Some (v :: p.1, p.2)
        | [] => None
        end
      else p ← masked_assign_row mask' t' vals; Some (x :: p.1, p.2)
  | _, _ => Some (t, vals)
  end.

(** [t[mask] = vals] on the batch: masked positions take the values in
    row-major order, and the two counts must agree. *)
Fixpoint masked_assign (masks : mat bool) (t : mat Z) (vals : list Z) : result (mat Z) :=
  match masks, t with
  | mask :: masks', row :: t' =>
      match masked_assign_row mask row vals with
      | Some (row', rest) => t'' ← masked_assign masks' t' rest; mret (row' :: t'')
      | None => raise RuntimeError
      end
  | _, _ => match vals with [] => mret t | _ => raise RuntimeError end
  end.

(** ** RouteGenBatchState: properties *)

Section Methods.
Context {lib : GraphAlgorithms}.

Definition batch_size (st : RouteGenBatchState) : nat := length (scenarios st).

(** [max(self.n_nodes)] *)
Definition max_n_nodes (st : RouteGenBatchState) : nat :=
  foldr Nat.max 0%nat ((λ sc, n_nodes_in_scenario (extra_data sc)) <$> scenarios st).

Definition n_finished_routes (sc : Scenario) : Z := Z.of_nat (length (finished_routes sc)).

Definition n_routes_left_to_plan (sc : Scenario) : Z :=
  n_routes_to_plan (extra_data sc) - n_finished_routes sc.

Definition is_done (sc : Scenario) : bool := n_routes_left_to_plan sc =? 0.

Definition current_route_n_stops (sc : Scenario) : nat :=
  count_stops (current_routes (extra_data sc)).

Definition has_current_route (sc : Scenario) : bool :=
  bool_decide (0 < current_route_n_stops sc)%nat.

(** The property [total_route_time]: the time of the finished routes
    plus the time of the route in progress. *)
Definition state_total_route_time (sc : Scenario) : ext :=
  ext_add (total_route_time (extra_data sc)) (current_route_time (extra_data sc)).

Definition get_total_route_time (symmetric : bool) (sc : Scenario) (batch_routes : mat Z) : ext :=
  let drive := drive_times (graph_data sc) in
  let mst := mean_stop_time (extra_data sc) in
  let route_time := ext_sum (ext_sum <$> get_route_leg_times batch_routes drive mst) in
  if symmetric then
    let transpose_dtm := mtranspose Inf drive in
    ext_add route_time (ext_sum (ext_sum <$> get_route_leg_times batch_routes transpose_dtm mst))
  else route_time.

(** [get_shortest_path_sequences]: the sequences, and the state with
    the memo filled in when it was empty. *)
Definition get_shortest_path_sequences (st : RouteGenBatchState)
    : RouteGenBatchState * list (list (mat Z)) :=
  let stored := (λ sc, shortest_path_sequences (extra_data sc)) <$> scenarios st in
  if bool_decide (sum_list (numel3 <$> stored) = 0%nat) then
    let scs :=
      (λ sc, set_extra (set_shortest_path_sequences
                          (reconstruct_all_paths (nexts (graph_data sc))).1) sc)
        <$> scenarios st in
    (set_scenarios st scs, (λ sc, shortest_path_sequences (extra_data sc)) <$> scs)
  else (st, stored).

(** The property [routes]: the finished routes, and the route in
    progress when it has at least two stops. *)
Definition routes (sc : Scenario) : mat Z :=
  let current_route := current_routes (extra_data sc) in
  if bool_decide (1 < count_stops current_route)%nat
  then finished_routes sc ++ [valid_stops current_route]
  else finished_routes sc.

(** ** shortest_path_action *)

(** What lines 204-218 read of one scenario. *)
Record gathered : Type := {
  cur : list Z;
  path_index : Z * Z;
  new_part : list Z;
  cur_first : Z;
  last_node : Z;
}.

Definition gather (sc : Scenario) (path_seqs : list (mat Z)) (pidx : Z * Z) : result gathered :=
  let current := current_routes (extra_data sc) in
  np ← index_or_raise (tindex2 path_seqs pidx.1 pidx.2);
  let n_pad := (length current - length np)%nat in
  c0 ← index_or_raise (tindex current 0);
  ln ← index_or_raise (tindex current (Z.of_nat (count_stops current) - 1));
  mret {| cur := current; path_index := pidx;
          new_part := np ++ replicate n_pad (-1);
          cur_first := c0; last_node := ln |}.

Definition routes_are_done (g : gathered) : bool := (path_index g).1 =? -1.
Definition starting (g : gathered) : bool := (cur_first g =? -1) && negb (routes_are_done g).
Definition extending (g : gathered) : bool := negb (starting g) && negb (routes_are_done g).
Definition ends_at_cur_start (g : gathered) : bool := (path_index g).2 =? cur_first g.
Definition starts_at_cur_end (g : gathered) : bool := (path_index g).1 =? last_node g.
Definition valid_action (g : gathered) : bool :=
  starting g || ends_at_cur_start g || starts_at_cur_end g || routes_are_done g.
Definition chose_prev (g : gathered) : bool := extending g && ends_at_cur_start g.
Definition chose_next (g : gathered) : bool := extending g && negb (ends_at_cur_start g).

Definition first_parts (g : gathered) : list Z :=
  zip_with (λ n c, n * Z_of_bool (starting g || chose_prev g)
                   + c * Z_of_bool (chose_next g || routes_are_done g))
           (new_part g) (cur g).

(** with the first node cut off, since the two parts overlap *)
Definition second_parts (g : gathered) : list Z :=
  drop 1 (zip_with (λ n c, n * Z_of_bool (chose_next g) + c * Z_of_bool (chose_prev g)
                           + -1 * Z_of_bool (negb (chose_next g || chose_prev g)))
                   (new_part g) (cur g)).

(** Lines 204-250: the routes after the action, or the exception. *)
Definition updated_routes (st : RouteGenBatchState) (path_seqs : list (list (mat Z)))
    (path_indices : list (Z * Z)) : result (mat Z) :=
  let width := max_n_nodes st in
  if negb (bool_decide (length path_indices = batch_size st)) then raise IndexError else
  gs ← mapM (M := result)
        (λ p : Scenario * (list (mat Z) * (Z * Z)), gather p.1 p.2.1 p.2.2)
        (zip (scenarios st) (zip path_seqs path_indices));
  if negb (forallb valid_action gs) then raise (AssertionError "invalid action!") else
  if negb (forallb (λ g, bool_decide (length (new_part g) = length (cur g)
                                      ∧ length (cur g) ≤ width)%nat) gs)
  then raise RuntimeError else
  let firsts := first_parts <$> gs in
  let seconds := second_parts <$> gs in
  let initial := (λ f : list Z, f ++ replicate (width - length f) (-1)) <$> firsts in
  let first_part_lens := count_stops <$> firsts in
  let scnd_part_lens := count_stops <$> seconds in
  let new_route_lens := zip_with Nat.add first_part_lens scnd_part_lens in
  let scnd_part_mask :=
    zip_with (get_variable_slice_mask width) first_part_lens new_route_lens in
  let scnd_part_len_mask :=
    zip_with (λ (s : list Z) len, get_variable_slice_mask (length s) 0 len)
             seconds scnd_part_lens in
  updated ← masked_assign scnd_part_mask initial
              (mjoin (zip_with masked_select scnd_part_len_mask seconds));
  if negb (forallb (forallb (λ x, x <? Z.of_nat width)) updated)
  then raise (AssertionError "") else
  let updated := (λ row : list Z, Z.max (-1) <$> row) <$> updated in
  mret (zip_with (λ sc (row : list Z), if is_done sc then no_route width else row)
                 (scenarios st) updated).

(** The loop of lines 254-265 on one scenario: its new state and row. *)
Definition finish_route (sc : Scenario) (sentinel : bool) (row : list Z) : Scenario * list Z :=
  let planning_already_done := is_done sc in
  let sc1 :=
    if negb planning_already_done && sentinel then
      let route := valid_stops row in
      if bool_decide (0 < length route)%nat then
        set_extra (set_total_route_time
                     (ext_add (total_route_time (extra_data sc))
                              (current_route_time (extra_data sc))))
                  (set_finished_routes (finished_routes sc ++ [route]) sc)
      else sc
    else sc in
  (sc1, if planning_already_done || sentinel then (λ _, -1) <$> row else row).

(** ** _update_on_routes *)

(** The loop of lines 310-315: scenario [bi] takes the next [counts[0]]
    coordinates. *)
Fixpoint connect_loop (scs : list Scenario) (counts : list nat) (edge_idxs : list (nat * nat))
    : list Scenario * option exn :=
  match scs with
  | [] => ([], None)
  | sc :: scs' =>
      match counts with
      | [] => (scs, Some IndexError)
      | count :: counts' =>
          let route_idxs := take count edge_idxs in
          let sc' :=
            set_extra (set_directly_connected
                         (set_connected (directly_connected (extra_data sc)) route_idxs)) sc in
          let r := connect_loop scs' counts' (drop count edge_idxs) in
          (sc' :: r.1, r.2)
      end
  end.

(** [nodes_are_connected] *)
Definition nodes_are_connected (n : nat) (sc : Scenario) : mat bool :=
  let dircon_float := mmap nat_of_bool (directly_connected (extra_data sc)) in
  mmap nonzero (Nat.iter n (λ connected, bmm connected dircon_float) dircon_float).

(** Lines 317-347 on one scenario. *)
Definition derive (symmetric only_routes_with_demand_are_valid invalid_directly_connected : bool)
    (sc : Scenario) : Scenario :=
  let ed := extra_data sc in
  let float_is_demand :=
    mmap (λ d : Q, nat_of_bool (Qpos d)) (demand (graph_data sc)) in
  let vt1 :=
    if only_routes_with_demand_are_valid then
      let connected_T := mmap nat_of_bool (mtranspose false (nodes_are_connected 2 sc)) in
      let valid_upstream := bmm float_is_demand connected_T in
      let valid_downstream := bmm connected_T float_is_demand in
      mask_fill true (mask_fill true (valid_terms_mat ed) (mmap nonzero valid_upstream))
                (mmap nonzero valid_downstream)
    else valid_terms_mat ed in
  let vt2 :=
    if invalid_directly_connected then mask_fill false vt1 (directly_connected ed) else vt1 in
  let vt3 := if symmetric then mzip_with andb vt2 (mtranspose false vt2) else vt2 in
  let fw := floyd_warshall (route_mat ed) in
  let hp := mmap lt_inf fw.2 in
  let path_lens := (reconstruct_all_paths fw.1).2 in
  let nt := mzip_with (λ (n : Z) (h : bool), if h then n else 0)
                      (mmap (λ l, Z.max (l - 2) 0) path_lens) hp in
  let transfer_penalties := mmap (λ n, (inject_Z n * transfer_time_s ed)%Q) nt in
  let times := mzip_with (λ t p, ext_add t (Fin p)) fw.2 transfer_penalties in
  set_extra (set_derived vt3 times hp fw.1 nt) sc.

Definition merge_routes (symmetric : bool) (sc : Scenario) (update_routes : mat Z) : Scenario :=
  let new_route_mat :=
    get_route_edge_matrix update_routes (drive_times (graph_data sc))
                          (mean_stop_time (extra_data sc)) symmetric in
  set_extra (set_route_mat (mzip_with ext_min (route_mat (extra_data sc)) new_route_mat)) sc.

Definition _update_on_routes (st : RouteGenBatchState) (update_routes : list (mat Z))
    (only_routes_with_demand_are_valid invalid_directly_connected : bool) : outcome :=
  if negb (bool_decide (length update_routes = batch_size st)) then Raise RuntimeError st else
  let symmetric := symmetric_routes st in
  let scs1 := zip_with (merge_routes symmetric) (scenarios st) update_routes in
  let groups := (λ sc, where_finite (route_mat (extra_data sc))) <$> scs1 in
  let counts := filter (λ c, c ≠ 0%nat) (length <$> groups) in
  let edge_idxs := mjoin groups in
  match connect_loop scs1 counts edge_idxs with
  | (scs2, Some e) => Raise e (set_scenarios st scs2)
  | (scs2, None) =>
      Ok (set_scenarios st
            (derive symmetric only_routes_with_demand_are_valid
                    invalid_directly_connected <$> scs2))
  end.

(** Lines 267-273 on one scenario: the loop, then the new current
    route and its time. *)
Definition apply_action (symmetric : bool) (sc : Scenario) (pidx : Z * Z) (row : list Z)
    : Scenario :=
  let r := finish_route sc (pidx.1 =? -1) row in
  set_extra (λ ed, set_current_route_time (get_total_route_time symmetric r.1 [r.2])
                     (set_current_routes r.2 ed)) r.1.

(** Lines 274-282 on one scenario; [None] when the leg times do not
    fill the slice. *)
Definition times_from_start (sc : Scenario) : option (list ext) :=
  let current := current_routes (extra_data sc) in
  let ncr_leg_times :=
    default [] (head (get_route_leg_times [current] (drive_times (graph_data sc))
                                          (mean_stop_time (extra_data sc)))) in
  if bool_decide (length ncr_leg_times = pred (length current))
  then Some (take (length current) (Fin 0 :: cumsum ncr_leg_times))
  else None.

Definition shortest_path_action (st : RouteGenBatchState) (path_indices : list (Z * Z))
    : outcome :=
  let cached := get_shortest_path_sequences st in
  let st0 := cached.1 in
  match updated_routes st0 cached.2 path_indices with
  | inl e => Raise e st0
  | inr updated =>
      let scs1 :=
        zip_with (λ (p : Scenario * (Z * Z)) row,
                    apply_action (symmetric_routes st0) p.1 p.2 row)
                 (zip (scenarios st0) path_indices) updated in
      let st1 := set_scenarios st0 scs1 in
      match mapM times_from_start scs1 with
      | None => Raise RuntimeError st1
      | Some ncr =>
          let scs2 :=
            zip_with (λ sc t, set_extra (set_current_route_times_from_start t) sc) scs1 ncr in
          _update_on_routes (set_scenarios st0 scs2)
            ((λ sc, [current_routes (extra_data sc)]) <$> scs2) false false
      end
  end.

(** ** Clearing *)

(** [_clear_routes_helper] on one scenario of [batch_index] *)
Definition clear_scenario (width : nat) (sc : Scenario) : Scenario :=
  set_finished_routes []
    (set_extra (λ ed,
       with_mutable ed (base_valid_terms_mat ed) (Fin 0) (eye width)
         (initial_times width) (initial_times width) (eye width)
         ((λ _, -1) <$> current_routes ed) (Fin 0)
         ((λ _, Fin 0) <$> current_route_times_from_start ed)
         (shortest_path_sequences ed)
         (mmap (λ _, 0) (route_nexts ed)) (mmap (λ _, 0) (n_transfers ed))) sc).

Definition _clear_routes_helper (st : RouteGenBatchState) (batch_index : option (list nat))
    : RouteGenBatchState :=
  let batch_index := default (seq 0 (batch_size st)) batch_index in
  let width := max_n_nodes st in
  set_scenarios st
    (imap (λ bi sc, if bool_decide (bi ∈ batch_index) then clear_scenario width sc else sc)
          (scenarios st)).

Definition clear_routes (st : RouteGenBatchState) : RouteGenBatchState :=
  _clear_routes_helper st None.

Definition reset_dones (st : RouteGenBatchState) : RouteGenBatchState :=
  let batch_index :=
    omap (λ p : nat * Scenario, if is_done p.2 then Some p.1 else None)
         (imap pair (scenarios st)) in
  if bool_decide (0 < length batch_index)%nat
  then _clear_routes_helper st (Some batch_index)
  else st.

(** ** Adding whole routes *)

(** The inner loop of [add_new_routes], on one scenario. *)
Definition append_routes (sc : Scenario) (new_routes : mat Z) : Scenario :=
  set_finished_routes
    (finished_routes sc
       ++ omap (λ route : list Z,
                  let len := count_stops route in
                  if bool_decide (len < 2)%nat then None else Some (take len route))
               new_routes) sc.

(** The outer loop: [batch_new_routes[bi]] must exist. *)
Fixpoint append_loop (scs : list Scenario) (batch_new_routes : list (mat Z))
    : list Scenario * option exn :=
  match scs with
  | [] => ([], None)
  | sc :: scs' =>
      match batch_new_routes with
      | [] => (scs, Some IndexError)
      | new_routes :: rest =>
          let r := append_loop scs' rest in
          (append_routes sc new_routes :: r.1, r.2)
      end
  end.

Definition add_new_routes (st : RouteGenBatchState) (batch_new_routes : list (mat Z))
    (only_routes_with_demand_are_valid invalid_directly_connected : bool) : outcome :=
  match append_loop (scenarios st) batch_new_routes with
  | (scs, Some e) => Raise e (set_scenarios st scs)
  | (scs, None) =>
      if negb (bool_decide (length batch_new_routes = batch_size st))
      then Raise RuntimeError (set_scenarios st scs) else
      let scs1 :=
        zip_with (λ sc new_routes,
                    set_extra (set_total_route_time
                                 (ext_add (total_route_time (extra_data sc))
                                          (get_total_route_time (symmetric_routes st) sc
                                                                new_routes))) sc)
                 scs batch_new_routes in
      _update_on_routes (set_scenarios st scs1) batch_new_routes
        only_routes_with_demand_are_valid invalid_directly_connected
  end.

Definition replace_routes (st : RouteGenBatchState) (batch_new_routes : list (mat Z))
    (only_routes_with_demand_are_valid invalid_directly_connected : bool) : outcome :=
  add_new_routes (_clear_routes_helper st None) batch_new_routes
    only_routes_with_demand_are_valid invalid_directly_connected.

(** ** Demand coverage *)

Definition count_true (m : mat bool) : nat :=
  sum_list ((λ row : list bool, length (filter (λ b, b = true) row)) <$> m).

Definition get_n_disconnected_demand_edges (symmetric : bool) (sc : Scenario) : Q :=
  let nopath := mmap negb (has_path (extra_data sc)) in
  let needed_path_missing :=
    mzip_with (λ (n : bool) (d : Q), n && Qpos d)
              nopath (demand (graph_data sc)) in
  let n := inject_Z (Z.of_nat (count_true needed_path_missing)) in
  if symmetric then (n / 2)%Q else n.

Definition n_demand_edges (symmetric : bool) (sc : Scenario) : Q :=
  let n := Z.of_nat (count_true (mmap (λ d : Q, Qpos d) (demand (graph_data sc)))) in
  if symmetric then inject_Z (Qceiling (inject_Z n / 2)) else inject_Z n.

End Methods.

(** ** Tensor floats with their special values *)

Inductive tfloat : Type :=
| Num (q : Q)
| PInf
| NInf
| NaN.

Definition of_ext (x : ext) : tfloat :=
  match x with Fin q => Num q | Inf => PInf end.

Definition tneg (x : tfloat) : tfloat :=
  match x with Num q => Num (- q) | PInf => NInf | NInf => PInf | NaN => NaN end.

Definition tadd (x y : tfloat) : tfloat :=
  match x, y with
  | NaN, _ | _, NaN => NaN
  | Num a, Num b => Num (a + b)
  | PInf, NInf | NInf, PInf => NaN
  | PInf, _ | _, PInf => PInf
  | NInf, _ | _, NInf => NInf
  end.

(** an infinity with the sign of [q], [nan] for zero *)
Definition signed_inf (q : Q) : tfloat :=
  match (0 ?= q)%Q with Lt => PInf | Eq => NaN | Gt => NInf end.

Definition tmul (x y : tfloat) : tfloat :=
  match x, y with
  | NaN, _ | _, NaN => NaN
  | Num a, Num b => Num (a * b)
  | Num a, PInf | PInf, Num a => signed_inf a
  | Num a, NInf | NInf, Num a => tneg (signed_inf a)
  | PInf, PInf | NInf, NInf => PInf
  | PInf, NInf | NInf, PInf => NInf
  end.

Definition tdiv (x y : tfloat) : tfloat :=
  match x, y with
  | NaN, _ | _, NaN => NaN
  | Num a, Num b => if Qeq_bool b 0 then signed_inf a else Num (a / b)
  | Num _, _ => Num 0
  | PInf, Num b => if Qle_bool 0 b then PInf else NInf
  | NInf, Num b => if Qle_bool 0 b then NInf else PInf
  | _, _ => NaN
  end.

Definition tsum (l : list tfloat) : tfloat := foldr tadd (Num 0) l.

Definition isfinite (x : tfloat) : bool :=
  match x with Num _ => true | _ => false end.

(** [x >= 0] *)
Definition tge0 (x : tfloat) : bool :=
  match x with Num q => Qle_bool 0 q | PInf => true | _ => false end.

(** [x > 0] *)
Definition tgt0 (x : tfloat) : bool :=
  match x with Num q => Qpos q | PInf => true | _ => false end.

(** [x == 0] *)
Definition teq0 (x : tfloat) : bool :=
  match x with Num q => Qeq_bool q 0 | _ => false end.

(** [torch.isclose(x, 0)] with the default tolerances *)
Definition isclose0 (q : Q) : bool := Qle_bool (Qabs q) (1 # 100000000).

Definition Qsum (l : list Q) : Q := foldr Qplus 0%Q l.
Definition Qmsum (m : mat Q) : Q := Qsum (Qsum <$> m).
Definition tmsum (m : mat tfloat) : tfloat := tsum (tsum <$> m).

Definition ext_max (x y : ext) : ext := if ext_leb x y then y else x.

(** [t.flatten().max()]; an empty tensor has none *)
Definition max_entry (m : mat ext) : option ext :=
  match mjoin m with
  | [] => None
  | x :: l => Some (foldr ext_max x l)
  end.

(** ** The shared cost helper *)

Module CostHelperOutput.
Record t : Type := {
  total_demand_time : list tfloat;
  total_route_time : list ext;
  trips_at_transfers : mat Q;
  total_demand : list Q;
  unserved_demand : list Q;
  total_transfers : list Q;
  trip_times : list (mat ext);
  n_disconnected_demand_edges : list Q;
  n_stops_oob : list Z;
  batch_routes : list (mat Z);
  cost : option (list tfloat);
}.

Definition set_cost (c : list tfloat) (o : t) : t :=
  {| total_demand_time := total_demand_time o;
     total_route_time := total_route_time o;
     trips_at_transfers := trips_at_transfers o;
     total_demand := total_demand o;
     unserved_demand := unserved_demand o;
     total_transfers := total_transfers o;
     trip_times := trip_times o;
     n_disconnected_demand_edges := n_disconnected_demand_edges o;
     n_stops_oob := n_stops_oob o;
     batch_routes := batch_routes o;
     cost := Some c |}.
End CostHelperOutput.

(** The property [mean_demand_time], on one scenario *)
Definition mean_demand_time (total_demand_time : tfloat) (total_demand : Q) : tfloat :=
  tdiv total_demand_time (Num (total_demand + (1 # 1000000))).

Section CostHelper.
Context {lib : GraphAlgorithms}.

(** Lines 837-845: the stops by which each route misses the bounds *)
Definition route_len_delta (min_len : Z) (max_len : option Z) (route : list Z) : Z :=
  let route_len := Z.of_nat (count_stops route) in
  let short := if route_len =? 0 then 0 else Z.max (min_len - route_len) 0 in
  match max_len with
  | Some m => short + Z.max (route_len - m) 0
  | None => short
  end.

Definition n_stops_oob (min_len : Z) (max_len : option Z) (sc : Scenario)
    (batch_routes : mat Z) : Z :=
  let n_unstarted_routes := n_routes_left_to_plan sc - Z_of_bool (has_current_route sc) in
  foldr Z.add 0 (route_len_delta min_len max_len <$> batch_routes)
  + n_unstarted_routes * min_len.

(** [n_transfers] with 3 where there is no path *)
Definition transfers_or_3 (sc : Scenario) : mat Z :=
  mzip_with (λ (n : Z) (h : bool), if h then n else 3)
            (n_transfers (extra_data sc)) (has_path (extra_data sc)).

(** [(demand_matrix * mask).sum(dim=(1, 2))] *)
Definition demand_where {A} (sc : Scenario) (p : A → bool) (t : mat A) : Q :=
  Qmsum (mzip_with (λ (d : Q) x, if p x then d else 0%Q) (demand (graph_data sc)) t).

Definition trips_at_transfers (sc : Scenario) : list Q :=
  ((λ ii, demand_where sc (λ n, n =? ii) (transfers_or_3 sc)) <$> [0; 1; 2])
  ++ [demand_where sc (λ n, 2 <? n) (transfers_or_3 sc)].

Definition trip_times (sc : Scenario) : mat ext :=
  mzip_with (λ t (h : bool), if h then t else Fin 0)
            (transit_times (extra_data sc)) (has_path (extra_data sc)).

Definition total_dmd_time (sc : Scenario) : tfloat :=
  tmsum (mzip_with (λ (d : Q) t, tmul (Num d) (of_ext t))
                   (demand (graph_data sc)) (trip_times sc)).

Definition total_transfers (sc : Scenario) : Q :=
  Qmsum (mzip_with (λ (d : Q) (n : Z), (d * inject_Z n)%Q)
                   (demand (graph_data sc)) (n_transfers (extra_data sc))).

Definition unserved_demand (sc : Scenario) : Q :=
  demand_where sc negb (has_path (extra_data sc)).

Definition total_demand (sc : Scenario) : Q := Qmsum (demand (graph_data sc)).

(** Lines 879-888: the distinct stops of a route, by scattering ones
    into [width + 1] slots; an index outside them is an error. *)
Definition n_stops_visited (width : nat) (route : list Z) : result nat :=
  let scatterer := (λ x, if x =? -1 then Z.of_nat width else x) <$> route in
  if forallb (λ x, (0 <=? x) && (x <=? Z.of_nat width)) scatterer then
    let stop_visited :=
      foldl (λ (slots : list bool) x, <[Z.to_nat x := true]> slots)
            (replicate (S width) false) scatterer in
    mret (length (filter (λ b, b = true) (take width stop_visited)))
  else raise RuntimeError.

Definition no_loops (width : nat) (batch_routes : mat Z) : result bool :=
  visited ← mapM (M := result) (n_stops_visited width) batch_routes;
  mret (bool_decide (visited = count_stops <$> batch_routes)).

(** [CostModule._cost_helper], without the per-route ridership that
    only [return_per_route_riders] asks for. *)
Definition _cost_helper (self : cost_obj) (st : RouteGenBatchState)
    : result CostHelperOutput.t :=
  let batch_routes := get_batch_tensor_from_routes (routes <$> scenarios st) in
  if negb (bool_decide (length batch_routes = batch_size st)) then raise RuntimeError else
  min_len ← match cost_min_route_len self with
             | Some l => mret l
             | None => raise TypeError
             end;
  let oob :=
    zip_with (n_stops_oob min_len (cost_max_route_len self)) (scenarios st) batch_routes in
  checks ← mapM (M := result) (no_loops (max_n_nodes st)) batch_routes;
  if negb (forallb id checks) then raise (AssertionError "some routes have loops!") else
  mret {|
    CostHelperOutput.total_demand_time := total_dmd_time <$> scenarios st;
    CostHelperOutput.total_route_time := state_total_route_time <$> scenarios st;
    CostHelperOutput.trips_at_transfers := trips_at_transfers <$> scenarios st;
    CostHelperOutput.total_demand := total_demand <$> scenarios st;
    CostHelperOutput.unserved_demand := unserved_demand <$> scenarios st;
    CostHelperOutput.total_transfers := total_transfers <$> scenarios st;
    CostHelperOutput.trip_times := trip_times <$> scenarios st;
    CostHelperOutput.n_disconnected_demand_edges :=
      get_n_disconnected_demand_edges (symmetric_routes st) <$> scenarios st;
    CostHelperOutput.n_stops_oob := oob;
    CostHelperOutput.batch_routes := batch_routes;
    CostHelperOutput.cost := None;
  |}.

End CostHelper.

(** ** The two cost modules *)

(** [d[key]] when [key in d] *)
Definition dict_get {A} (key : string) (d : list (string * A)) : option A :=
  snd <$> head (filter (λ kv : string * A, kv.1 = key) d).

Definition tfloat_of_bool (b : bool) : tfloat := Num (if b then 1 else 0).

(** Lines 1026-1036: the demand component of the weighted cost *)
Definition demand_cost (no_norm : bool) (time_normalizer : ext)
    (total_demand_time : tfloat) (total_demand unserved : Q) : tfloat :=
  let unserved_penalty :=
    tdiv (tmul (tmul (Num unserved) (of_ext time_normalizer)) (Num 2)) (Num total_demand) in
  let cost := tadd (mean_demand_time total_demand_time total_demand) unserved_penalty in
  if no_norm then cost else tdiv cost (of_ext time_normalizer).

Section CostModules.
Context {lib : GraphAlgorithms}.

(** The body of [MyCostModule.forward] for one scenario and its row
    of the helper's output. *)
Definition my_cost (self : MyCostModule.t) (symmetric : bool) (constraint_weight : option Q)
    (no_norm : bool) (sc : Scenario) (total_demand_time : tfloat) (total_route_time : ext)
    (total_demand unserved n_disconnected : Q) (n_oob : Z) : result tfloat :=
  let weights := cost_weights (extra_data sc) in
  let demand_time_weight :=
    default (MyCostModule.demand_time_weight self) (dict_get "demand_time_weight" weights) in
  let route_time_weight :=
    default (MyCostModule.route_time_weight self) (dict_get "route_time_weight" weights) in
  let constraint_weight :=
    default (MyCostModule.constraint_violation_weight self) constraint_weight in
  time_normalizer ← match max_entry (drive_times (graph_data sc)) with
                     | Some x => mret x
                     | None => raise RuntimeError
                     end;
  let n_routes := n_routes_to_plan (extra_data sc) in
  let frac_uncovered := tdiv (Num n_disconnected) (Num (n_demand_edges symmetric sc)) in
  len ← match MyCostModule.min_route_len self, MyCostModule.max_route_len self with
         | Some l, _ => mret l
         | None, Some l => mret l
         | None, None => raise TypeError
         end;
  let denom := if n_routes * len =? 0 then 1 else n_routes * len in
  let frac_stops_oob := tdiv (Num (inject_Z n_oob)) (Num (inject_Z denom)) in
  let demand_cost :=
    demand_cost no_norm time_normalizer total_demand_time total_demand unserved in
  let route_cost :=
    if no_norm then of_ext total_route_time
    else tdiv (of_ext total_route_time)
              (tadd (tmul (of_ext time_normalizer) (Num (inject_Z n_routes)))
                    (Num (1 # 1000000))) in
  let cost := tadd (tmul demand_cost (Num demand_time_weight))
                   (tmul route_cost (Num route_time_weight)) in
  let const_viol_cost :=
    tadd frac_uncovered (tmul (Num (1 # 10)) (tfloat_of_bool (tgt0 frac_uncovered))) in
  let const_viol_cost :=
    if MyCostModule.ignore_stops_oob self then const_viol_cost
    else tadd const_viol_cost
              (tadd frac_stops_oob (tmul (Num (1 # 10)) (tfloat_of_bool (tgt0 frac_stops_oob)))) in
  mret (tadd cost (tmul const_viol_cost (Num constraint_weight))).

(** Row [b] of the helper's output *)
Definition cho_row (cho : CostHelperOutput.t) (b : nat)
    : result (tfloat * ext * Q * Q * Q * Z * mat ext) :=
  tdt ← index_or_raise (CostHelperOutput.total_demand_time cho !! b);
  trt ← index_or_raise (CostHelperOutput.total_route_time cho !! b);
  td ← index_or_raise (CostHelperOutput.total_demand cho !! b);
  ud ← index_or_raise (CostHelperOutput.unserved_demand cho !! b);
  nd ← index_or_raise (CostHelperOutput.n_disconnected_demand_edges cho !! b);
  oob ← index_or_raise (CostHelperOutput.n_stops_oob cho !! b);
  times ← index_or_raise (CostHelperOutput.trip_times cho !! b);
  mret (tdt, trt, td, ud, nd, oob, times).

Definition MyCostModule_forward (self : MyCostModule.t) (st : RouteGenBatchState)
    (constraint_weight : option Q) (no_norm : bool) : result CostHelperOutput.t :=
  cho ← _cost_helper (My self) st;
  cost ← mapM (M := result)
    (λ p : nat * Scenario,
       r ← cho_row cho p.1;
       let '(tdt, trt, td, ud, nd, oob, _) := r in
       my_cost self (symmetric_routes st) constraint_weight no_norm p.2
               tdt trt td ud nd oob)
    (imap pair (scenarios st));
  if negb (forallb isfinite cost) then raise (AssertionError "invalid cost was computed!") else
  if negb (forallb tge0 cost) then raise (AssertionError "cost is negative!") else
  mret (CostHelperOutput.set_cost cost cho).

(** [t.mean(dim=(-2, -1))] *)
Definition tmean (m : mat ext) : tfloat :=
  tdiv (tmsum (mmap of_ext m))
       (Num (inject_Z (Z.of_nat (sum_list (length <$> m))))).

(** The body of [NikolicCostModule.forward] for one scenario *)
Definition nikolic_cost (self : NikolicCostModule.t) (total_demand_time : tfloat)
    (total_demand unserved : Q) (trip_times : mat ext) : tfloat :=
  let tot_sat_demand := (total_demand - unserved)%Q in
  let w_2 := tdiv total_demand_time (Num tot_sat_demand) in
  let no_sat_dmd := isclose0 tot_sat_demand in
  let w_2 := if no_sat_dmd then tmean trip_times else w_2 in
  let w_2 := tadd w_2 (Num (NikolicCostModule.unsatisfied_penalty_extra_s self)) in
  tadd total_demand_time (tmul w_2 (Num unserved)).

Definition NikolicCostModule_forward (self : NikolicCostModule.t) (st : RouteGenBatchState)
    : result CostHelperOutput.t :=
  cho ← _cost_helper (Nikolic self) st;
  rows ← mapM (M := result) (λ p : nat * Scenario, cho_row cho p.1)
              (imap pair (scenarios st));
  let cost :=
    (λ r : tfloat * ext * Q * Q * Q * Z * mat ext,
       let '(tdt, _, td, ud, _, _, times) := r in nikolic_cost self tdt td ud times) <$> rows in
  if existsb (λ p : tfloat * Q, teq0 p.1 && Qpos p.2)
             (zip cost (CostHelperOutput.total_demand cho))
  then raise (AssertionError "") else
  if negb (forallb isfinite cost) then raise (AssertionError "invalid cost was computed!") else
  mret (CostHelperOutput.set_cost cost cho).

End CostModules.

(** ** check_for_duplicate_routes *)

(** [routes_tensor]: batch × routes × stops.  Entry [(i, j)] of
    [routes_are_identical] compares route [j] with route [i]. *)
Definition check_for_duplicate_routes (routes_tensor : list (mat Z)) : list bool :=
  (λ routes : mat Z,
     let same_stops :=
       (λ ri : list Z, (λ rj : list Z, zip_with Z.eqb rj ri) <$> routes) <$> routes in
     let routes_are_identical := (λ row, forallb id <$> row) <$> same_stops in
     existsb id (existsb id <$> routes_are_identical)) <$> routes_tensor.

(** ** enforce_correct_batch *)

(** The argument of [enforce_correct_batch]: one matrix, or a stack of
    matrices. *)
Inductive batched (A : Type) : Type :=
| Rank2 (m : mat A)
| Rank3 (t : list (mat A)).
Arguments Rank2 {A} m.
Arguments Rank3 {A} t.

(** [enforce_correct_batch]: [expand] repeats a single matrix, and
    refuses a stack that has none. *)
Definition enforce_correct_batch {A} (matrix : batched A) (batch_size : Z)
    : result (list (mat A)) :=
  let matrix := match matrix with Rank2 m => [m] | Rank3 t => t end in
  if bool_decide (1 < length matrix)%nat then
    if bool_decide (batch_size = Z.of_nat (length matrix)) then mret matrix
    else raise (AssertionError "")
  else if bool_decide (1 < batch_size) then
    match matrix with
    | [m] => mret (replicate (Z.to_nat batch_size) m)
    | _ => raise RuntimeError
    end
  else mret matrix.

(** ** Coverage of the nodes *)

(** [m.any(dim=1)] on one scenario: over the rows, for each column *)
Definition any_over_rows (m : mat bool) : list bool :=
  (λ j, existsb (λ row : list bool, default false (row !! j)) m)
    <$> seq 0 (length (default [] (head m))).

(** [m.any(dim=2)] on one scenario: over the columns, for each row *)
Definition any_over_columns (m : mat bool) : list bool := existsb id <$> m.

(** The property [node_covered_mask] *)
Definition node_covered_mask (symmetric : bool) (sc : Scenario) : list bool :=
  let have_out_paths := any_over_rows (directly_connected (extra_data sc)) in
  if symmetric then have_out_paths
  else zip_with andb have_out_paths (any_over_columns (directly_connected (extra_data sc))).

(** ** The reported metrics *)

(** An element-wise operation on two tensors: their first dimensions
    must be equal, or one of them 1. *)
Definition broadcast2 {A B C} (f : A → B → C) (a : list A) (b : list B) : result (list C) :=
  if bool_decide (length a = length b) then mret (zip_with f a b)
  else match a, b with
       | [x], _ => mret (f x <$> b)
       | _, [y] => mret ((λ x, f x y) <$> a)
       | _, _ => raise RuntimeError
       end.

(** [t[:, k]] *)
Definition column {A} (k : nat) (t : mat A) : result (list A) :=
  mapM (M := result) (λ row : list A, index_or_raise (row !! k)) t.

(** [CostHelperOutput.get_metrics]: the dictionary, in the order of its
    keys; the cost is [None] until a cost module has set it. *)
Definition get_metrics (cho : CostHelperOutput.t)
    : result (list (string * option (list tfloat))) :=
  frac_tat ← broadcast2 (λ (row : list Q) (d : Q), (λ x, tdiv (Num x) (Num d)) <$> row)
                        (CostHelperOutput.trips_at_transfers cho)
                        (CostHelperOutput.total_demand cho);
  let percent_tat := mmap (λ x, tmul x (Num 100)) frac_tat in
  mean_time ← broadcast2 mean_demand_time (CostHelperOutput.total_demand_time cho)
                         (CostHelperOutput.total_demand cho);
  d_0 ← column 0 percent_tat;
  d_1 ← column 1 percent_tat;
  d_2 ← column 2 percent_tat;
  d_un ← column 3 percent_tat;
  mret [("cost"%string, CostHelperOutput.cost cho);
        ("ATT"%string, Some ((λ x, tdiv x (Num 60)) <$> mean_time));
        ("RTT"%string,
         Some ((λ x, tdiv (of_ext x) (Num 60)) <$> CostHelperOutput.total_route_time cho));
        ("$d_0$"%string, Some d_0);
        ("$d_1$"%string, Some d_1);
        ("$d_2$"%string, Some d_2);
        ("$d_{un}$"%string, Some d_un);
        ("# disconnected node pairs"%string,
         Some (Num <$> CostHelperOutput.n_disconnected_demand_edges cho));
        ("# stops out of bounds"%string,
         Some ((λ n, Num (inject_Z n)) <$> CostHelperOutput.n_stops_oob cho))].

(** [torch.stack(tensors, dim=-1)] of vectors: they must all be
    tensors, of one length. *)
Definition stack_last (tensors : list (option (list tfloat))) : result (mat tfloat) :=
  vs ← mapM (M := result)
        (λ o : option (list tfloat),
           match o with Some v => mret v | None => raise TypeError end) tensors;
  match vs with
  | [] => raise RuntimeError
  | v :: _ =>
      if forallb (λ w : list tfloat, bool_decide (length w = length v)) vs
      then mret ((λ i, (λ w : list tfloat, default NaN (w !! i)) <$> vs) <$> seq 0 (length v))
      else raise RuntimeError
  end.

(** [CostHelperOutput.get_metrics_tensor] *)
Definition get_metrics_tensor (cho : CostHelperOutput.t) : result (mat tfloat) :=
  metrics ← get_metrics cho;
  stack_last (snd <$> metrics).

(** ** The weights of MyCostModule *)

(** [MyCostModule.set_weights]: the module with the weights that are
    given. *)
Definition set_weights (self : MyCostModule.t)
    (demand_time_weight route_time_weight constraint_violation_weight : option Q)
    : MyCostModule.t :=
  {| MyCostModule.base := MyCostModule.base self;
     MyCostModule.demand_time_weight :=
       default (MyCostModule.demand_time_weight self) demand_time_weight;
     MyCostModule.route_time_weight :=
       default (MyCostModule.route_time_weight self) route_time_weight;
     MyCostModule.constraint_violation_weight :=
       default (MyCostModule.constraint_violation_weight self) constraint_violation_weight;
     MyCostModule.variable_weights := MyCostModule.variable_weights self;
     MyCostModule.min_route_len := MyCostModule.min_route_len self;
     MyCostModule.max_route_len := MyCostModule.max_route_len self;
     MyCostModule.ignore_stops_oob := MyCostModule.ignore_stops_oob self |}.

(** [x.clamp(0, 1)] *)
Definition clamp01 (x : Q) : Q := Qmin (Qmax x 0) 1.

(** [MyCostModule.sample_variable_weights]; [samples] is the value of
    [torch.rand(batch_size)]. *)
Definition sample_variable_weights (self : MyCostModule.t) (batch_size : nat)
    (samples : list Q) : list (string * list Q) :=
  let weights :=
    if negb (MyCostModule.variable_weights self) then
      (replicate batch_size (MyCostModule.demand_time_weight self),
       replicate batch_size (MyCostModule.route_time_weight self))
    else
      let ratio_extreme_to_between := 2%Q in
      let dtm := (λ r, r * (1 + ratio_extreme_to_between))%Q <$> samples in
      let dtm := (λ d, clamp01 (d - ratio_extreme_to_between / 2))%Q <$> dtm in
      (dtm, (λ d, 1 - d)%Q <$> dtm) in
  [("demand_time_weight"%string, weights.1); ("route_time_weight"%string, weights.2)].

(** ** A reference graph-algorithm library

    An executable instance of the interface, used to run the model on
    concrete scenarios. *)

Module Reference.

(** Modelled from the spec: the per-leg-time function of the
    graph-algorithm library ([get_route_leg_times], not in the modelled
    file).  The time of a leg is the drive time between its two stops
    plus the dwell time; a leg with a missing stop takes 0. *)
Definition leg_time (drive : mat ext) (mst : Q) (a b : Z) : ext :=
  if (a <? 0) || (b <? 0) then Fin 0
  else ext_add (default Inf (mlookup drive (Z.to_nat a) (Z.to_nat b))) (Fin mst).

Definition get_route_leg_times (batch_routes : mat Z) (drive : mat ext) (mst : Q) : mat ext :=
  (λ route : list Z, zip_with (leg_time drive mst) route (drop 1 route)) <$> batch_routes.

(** The direct rides of a route that leave from [src]: stop reached and
    riding time, with the dwell time of each intermediate stop. *)
Fixpoint rides_from (drive : mat ext) (mst : Q) (src prev : Z) (acc : ext) (rest : list Z)
    : list (Z * Z * ext) :=
  match rest with
  | [] => []
  | x :: rest' =>
      let t := ext_add acc (default Inf (mlookup drive (Z.to_nat prev) (Z.to_nat x))) in
      (src, x, t) :: rides_from drive mst src x (ext_add t (Fin mst)) rest'
  end.

Fixpoint rides (drive : mat ext) (mst : Q) (stops : list Z) : list (Z * Z * ext) :=
  match stops with
  | [] => []
  | x :: rest => rides_from drive mst x x (Fin 0) rest ++ rides drive mst rest
  end.

(** Modelled from the spec: the route-to-edge-matrix function of the
    graph-algorithm library ([get_route_edge_matrix], not in the
    modelled file): the best direct-ride time between any two stops of
    one route, in both directions when the routes are symmetric, and
    [inf] for a pair that no route joins. *)
Definition get_route_edge_matrix (batch_routes : mat Z) (drive : mat ext) (mst : Q)
    (symmetric : bool) : mat ext :=
  let all_rides :=
    mjoin ((λ route : list Z,
              let stops := valid_stops route in
              rides drive mst stops
              ++ (if symmetric then rides drive mst (reverse stops) else []))
           <$> batch_routes) in
  mbuild (length drive)
    (λ i j,
       foldr ext_min Inf
         (omap (λ r : Z * Z * ext,
                  if (r.1.1 =? Z.of_nat i) && (r.1.2 =? Z.of_nat j) then Some r.2 else None)
               all_rides)).

(** One relaxation through node [k] of the distances and next hops. *)
Definition relax (n k : nat) (s : mat Z * mat ext) : mat Z * mat ext :=
  let d := λ i j, default Inf (mlookup s.2 i j) in
  let nx := λ i j, default (-1) (mlookup s.1 i j) in
  let better := λ i j, negb (ext_leb (d i j) (ext_add (d i k) (d k j))) in
  (mbuild n (λ i j, if better i j then nx i k else nx i j),
   mbuild n (λ i j, if better i j then ext_add (d i k) (d k j) else d i j)).

(** Modelled from the spec: the all-pairs shortest-path solver of the
    graph-algorithm library ([floyd_warshall], not in the modelled
    file).  It returns the next-hop matrix ([-1] where there is no
    path) and the distance matrix, of the shape of its argument. *)
Definition floyd_warshall (m : mat ext) : mat Z * mat ext :=
  let n := length m in
  let d := λ i j, default Inf (mlookup m i j) in
  foldl (λ s k, relax n k s)
        (mbuild n (λ i j, if lt_inf (d i j) then Z.of_nat j else -1), mbuild n d)
        (seq 0 n).

(** The stops after [i] on the way to [j]. *)
Fixpoint follow (nx : mat Z) (fuel : nat) (i j : nat) : list Z :=
  match fuel with
  | O => []
  | S fuel' =>
      if bool_decide (i = j) then []
      else
        let h := default (-1) (mlookup nx i j) in
        if h <? 0 then [] else h :: follow nx fuel' (Z.to_nat h) j
  end.

Definition path (nx : mat Z) (i j : nat) : list Z :=
  if default (-1) (mlookup nx i j) <? 0 then
    if bool_decide (i = j) then [Z.of_nat i] else []
  else Z.of_nat i :: follow nx (length nx) i j.

(** Modelled from the spec: the path-reconstruction function of the
    graph-algorithm library ([reconstruct_all_paths], not in the
    modelled file): for every node pair the stop sequence of the path,
    padded with [-1], and its length. *)
Definition reconstruct_all_paths (nx : mat Z) : list (mat Z) * mat Z :=
  let n := length nx in
  (mbuild n (λ i j, let p := path nx i j in p ++ replicate (n - length p) (-1)),
   mbuild n (λ i j, Z.of_nat (length (path nx i j)))).

(** Modelled from the spec: the slice-mask helper
    ([get_variable_slice_mask], not in the modelled file): the
    positions [from <= i < to] of a row. *)
Definition get_variable_slice_mask (width from to : nat) : list bool :=
  (λ i, bool_decide (from ≤ i ∧ i < to)%nat) <$> seq 0 width.

(** Modelled from the spec: the batching utility
    ([get_batch_tensor_from_routes], not in the modelled file): every
    route padded with [-1] to the longest one, every scenario padded
    with empty routes to the largest number of routes. *)
Definition get_batch_tensor_from_routes (routes : list (mat Z)) : list (mat Z) :=
  let n_routes := foldr Nat.max 0%nat (length <$> routes) in
  let len := foldr Nat.max 0%nat ((λ rs : mat Z, foldr Nat.max 0%nat (length <$> rs)) <$> routes) in
  (λ rs : mat Z,
     ((λ r : list Z, r ++ replicate (len - length r) (-1)) <$> rs)
     ++ replicate (n_routes - length rs) (replicate len (-1))) <$> routes.

Definition lib : GraphAlgorithms :=
  Build_GraphAlgorithms floyd_warshall reconstruct_all_paths get_route_edge_matrix
    get_route_leg_times get_variable_slice_mask get_batch_tensor_from_routes.

End Reference.

(** * Specification *)

(** ** What the proofs ask of the graph-algorithm library

    The solver and the path reconstruction return matrices of the shape
    of their argument, a shortest distance is at most the direct one,
    the route-edge matrix has the shape of the drive-time matrix, and
    routes without stops ride nowhere and take no time. *)
Class GraphAlgorithmsSpec (lib : GraphAlgorithms) : Prop := {
  floyd_warshall_square n m :
    square n m → square n (floyd_warshall m).1 ∧ square n (floyd_warshall m).2;
  floyd_warshall_le n m i j x :
    square n m → mlookup m i j = Some x →
    ∃ y, mlookup (floyd_warshall m).2 i j = Some y ∧ ext_le y x;
  path_lens_square n nx :
    square n nx → square n (reconstruct_all_paths nx).2;
  edge_matrix_square routes drive mst sym :
    square (length drive) (get_route_edge_matrix routes drive mst sym);
  edge_matrix_no_stops routes drive mst sym i j x :
    Forall (λ r, count_stops r = 0%nat) routes →
    mlookup (get_route_edge_matrix routes drive mst sym) i j = Some x →
    if bool_decide (i = j) then ext_le (Fin 0) x else x = Inf;
  leg_times_no_stops routes drive mst :
    Forall (λ r, count_stops r = 0%nat) routes →
    Forall (Forall (λ t, t = Fin 0)) (get_route_leg_times routes drive mst);
  slice_mask_empty width from :
    Forall (λ b, b = false) (get_variable_slice_mask width from from);
}.

(** ** Order on route matrices *)

Definition mat_le (a b : mat ext) : Prop :=
  ∀ i j x, mlookup a i j = Some x → ∃ y, mlookup b i j = Some y ∧ ext_le x y.

(** Every scenario of [st'] is a scenario of [st] whose route matrix is
    element-wise at most what it was. *)
Definition route_mats_le (st' st : RouteGenBatchState) : Prop :=
  Forall2 (λ sc' sc, mat_le (route_mat (extra_data sc')) (route_mat (extra_data sc)))
          (scenarios st') (scenarios st).

(** ** Invariant of the state *)

Record scenario_ok (n : nat) (sc : Scenario) : Prop := {
  ok_drive : length (drive_times (graph_data sc)) = n;
  ok_demand : square n (demand (graph_data sc));
  ok_route_mat : square n (route_mat (extra_data sc));
  ok_connected : square n (directly_connected (extra_data sc));
  ok_has_path : square n (has_path (extra_data sc));
  ok_transit : square n (transit_times (extra_data sc));
  ok_transfers : square n (n_transfers (extra_data sc));
  ok_diagonal i :
    (i < n)%nat →
    ∃ q, mlookup (route_mat (extra_data sc)) i i = Some (Fin q) ∧ (q <= 0)%Q;
  ok_connected_iff i j :
    mlookup (directly_connected (extra_data sc)) i j = Some true
    ↔ ∃ q, mlookup (route_mat (extra_data sc)) i j = Some (Fin q);
  ok_path_iff i j h t :
    mlookup (has_path (extra_data sc)) i j = Some h →
    mlookup (transit_times (extra_data sc)) i j = Some t →
    h = lt_inf t;
  ok_connected_path i j :
    mlookup (directly_connected (extra_data sc)) i j = Some true →
    mlookup (has_path (extra_data sc)) i j = Some true;
  ok_transfers_nonneg i j x :
    mlookup (n_transfers (extra_data sc)) i j = Some x → 0 ≤ x;
}.

Definition state_ok {lib : GraphAlgorithms} (st : RouteGenBatchState) : Prop :=
  (0 < max_n_nodes st)%nat ∧ Forall (scenario_ok (max_n_nodes st)) (scenarios st).

(** The graph tensors of a batch are padded to its largest node count. *)
Definition padded_batch (graphs : list GraphData) : Prop :=
  let n := foldr Nat.max 0%nat (num_nodes <$> graphs) in
  (0 < n)%nat ∧ Forall (λ g, length (drive_times g) = n ∧ square n (demand g)) graphs.

(** The states a caller can reach: constructed, then changed by the
    methods, whether they returned or raised. *)
Inductive reachable {lib : GraphAlgorithms} : RouteGenBatchState → Prop :=
| reach_init graphs cost n_routes valid_terms weights fixed st :
    padded_batch graphs →
    __init__ graphs cost n_routes valid_terms weights fixed = inr st →
    reachable st
| reach_action st path_indices :
    reachable st → reachable (final_state (shortest_path_action st path_indices))
| reach_add st batch_new_routes demand_only not_connected :
    reachable st →
    reachable (final_state (add_new_routes st batch_new_routes demand_only not_connected))
| reach_replace st batch_new_routes demand_only not_connected :
    reachable st →
    reachable (final_state (replace_routes st batch_new_routes demand_only not_connected))
| reach_clear st :
    reachable st → reachable (clear_routes st)
| reach_reset st :
    reachable st → reachable (reset_dones st).

(** * Notions of the statements *)

(** ** Frames and order *)

(** [sc'] is [sc] up to its routes, their times and the memo: the
    network fields are the same. *)
Definition same_network (sc' sc : Scenario) : Prop :=
  graph_data sc' = graph_data sc ∧
  ∃ trt cr crt crtfs sps,
    extra_data sc' =
    with_mutable (extra_data sc) (valid_terms_mat (extra_data sc)) trt
      (directly_connected (extra_data sc)) (route_mat (extra_data sc))
      (transit_times (extra_data sc)) (has_path (extra_data sc)) cr crt crtfs sps
      (route_nexts (extra_data sc)) (n_transfers (extra_data sc)).

(** The route matrix of [sc'] is below that of [sc], entry by entry. *)
Definition route_mat_le (sc' sc : Scenario) : Prop :=
  mat_le (route_mat (extra_data sc')) (route_mat (extra_data sc)).

(** ** The refresh, scenario by scenario *)

(** The loop is aligned when every scenario has a finite entry: each
    scenario then takes its own coordinates. *)
Definition connect (sc : Scenario) : Scenario :=
  set_extra (set_directly_connected
               (set_connected (directly_connected (extra_data sc))
                              (where_finite (route_mat (extra_data sc))))) sc.

Section Derived.
Context {lib : GraphAlgorithms}.

(** What [_update_on_routes] does to one scenario when the loop is
    aligned. *)
Definition refresh_scenario (sym demand_only not_connected : bool) (sc : Scenario)
    (routes : mat Z) : Scenario :=
  derive sym demand_only not_connected (connect (merge_routes sym sc routes)).

(** The transfer counts and the transit times that the refresh derives
    from a route matrix. *)
Definition derived_transfers (rm : mat ext) : mat Z :=
  let fw := floyd_warshall rm in
  mzip_with (λ (n : Z) (h : bool), if h then n else 0)
            (mmap (λ l, Z.max (l - 2) 0) (reconstruct_all_paths fw.1).2)
            (mmap lt_inf fw.2).

Definition derived_times (rm : mat ext) (transfer_time : Q) : mat ext :=
  mzip_with (λ t p, ext_add t (Fin p)) (floyd_warshall rm).2
            (mmap (λ n, (inject_Z n * transfer_time)%Q) (derived_transfers rm)).

End Derived.

(** The same node count *)
Definition same_nodes (sc' sc : Scenario) : Prop :=
  n_nodes_in_scenario (extra_data sc') = n_nodes_in_scenario (extra_data sc).

(** ** Reachability and demand buckets *)

(** [has_path == (transit_times < inf)] and [directly_connected]
    implies [has_path], at every node pair of a scenario. *)
Definition consistent_reachability (n : nat) (sc : Scenario) : Prop :=
  ∀ i j, (i < n)%nat → (j < n)%nat →
    ∃ h t,
      mlookup (has_path (extra_data sc)) i j = Some h
      ∧ mlookup (transit_times (extra_data sc)) i j = Some t
      ∧ h = lt_inf t
      ∧ (mlookup (directly_connected (extra_data sc)) i j = Some true → h = true).

(** The masks of the buckets at a transfer count: 0, 1, 2, more. *)
Definition buckets (n : Z) : list bool := [n =? 0; n =? 1; n =? 2; 2 <? n].

(** The demand of a row, and of a matrix, at the transfer counts that
    satisfy [p]. *)
Definition bucket_row (p : Z → bool) (ds : list Q) (ns : list Z) : Q :=
  Qsum (zip_with (λ (d : Q) x, if p x then d else 0%Q) ds ns).

Definition bucket_mat (p : Z → bool) (dm : mat Q) (nm : mat Z) : Q :=
  Qmsum (mzip_with (λ (d : Q) x, if p x then d else 0%Q) dm nm).

(** ** Clearing *)

(** What [clear_routes] leaves in scenario [sc'] of a state whose
    largest node count is [n], [sc] being the scenario before. *)
Definition cleared (n : nat) (sc' sc : Scenario) : Prop :=
  graph_data sc' = graph_data sc
  ∧ finished_routes sc' = []
  ∧ route_mat (extra_data sc') = initial_times n
  ∧ total_route_time (extra_data sc') = Fin 0
  ∧ state_total_route_time sc' = Fin 0
  ∧ valid_terms_mat (extra_data sc') = base_valid_terms_mat (extra_data sc)
  ∧ base_valid_terms_mat (extra_data sc') = base_valid_terms_mat (extra_data sc)
  ∧ directly_connected (extra_data sc') = eye n
  ∧ transit_times (extra_data sc') = initial_times n
  ∧ has_path (extra_data sc') = eye n
  ∧ current_routes (extra_data sc') = no_route (length (current_routes (extra_data sc)))
  ∧ route_nexts (extra_data sc') = mmap (λ _, 0) (route_nexts (extra_data sc))
  ∧ n_transfers (extra_data sc') = mmap (λ _, 0) (n_transfers (extra_data sc))
  ∧ (square n (route_nexts (extra_data sc)) → route_nexts (extra_data sc') = zeros_long n)
  ∧ (square n (n_transfers (extra_data sc)) → n_transfers (extra_data sc') = zeros_long n).

(** The values the constructor gives the same fields. *)
Definition as_constructed (n : nat) (sc' : Scenario) : Prop :=
  ∀ cost valid_terms n_routes weights fixed ii dd ed,
    init_extra_data n cost valid_terms n_routes weights fixed ii dd = inr ed →
    route_mat (extra_data sc') = route_mat ed
    ∧ total_route_time (extra_data sc') = total_route_time ed
    ∧ directly_connected (extra_data sc') = directly_connected ed
    ∧ transit_times (extra_data sc') = transit_times ed
    ∧ has_path (extra_data sc') = has_path ed.

(** ** Extension cases *)

(** The three cases of an extension by the path from [u] to [v], read
    off the current route [cur]: there is no current route, the path
    ends at its first stop, the path starts at its last stop. *)
Definition no_current_route (cur : list Z) : Prop := tindex cur 0 = Some (-1).
Definition ends_at_start (cur : list Z) (v : Z) : Prop := tindex cur 0 = Some v.
Definition starts_at_end (cur : list Z) (u : Z) : Prop :=
  tindex cur (Z.of_nat (count_stops cur) - 1) = Some u.

(** At least one of the cases holds; exactly one of them holds. *)
Definition some_case (cur : list Z) (u v : Z) : Prop :=
  no_current_route cur ∨ ends_at_start cur v ∨ starts_at_end cur u.

Definition exactly_one_case (cur : list Z) (u v : Z) : Prop :=
  (no_current_route cur ∧ ¬ ends_at_start cur v ∧ ¬ starts_at_end cur u)
  ∨ (¬ no_current_route cur ∧ ends_at_start cur v ∧ ¬ starts_at_end cur u)
  ∨ (¬ no_current_route cur ∧ ¬ ends_at_start cur v ∧ starts_at_end cur u).

(** [sc'] is [sc] with its memo of shortest-path sequences filled in. *)
Definition same_but_memo (sc' sc : Scenario) : Prop :=
  ∃ sps, sc' = set_extra (set_shortest_path_sequences sps) sc.

(** ** Costs *)

(** Equality of tensor floats: of their values, for numbers *)
Definition tfloat_eq (x y : tfloat) : Prop :=
  match x, y with
  | Num a, Num b => (a == b)%Q
  | PInf, PInf | NInf, NInf | NaN, NaN => True
  | _, _ => False
  end.

(** The demand cost as the claim words it: the mean travel time per
    served trip, plus the penalty of the unserved trips, divided by the
    diameter when the cost is normalized. *)
Definition claimed_demand_cost (no_norm : bool) (diameter : ext)
    (total_demand_time : tfloat) (total_demand unserved : Q) : tfloat :=
  let mean_time_per_served_trip :=
    tdiv total_demand_time (Num (total_demand - unserved)) in
  let unserved_penalty :=
    tdiv (tmul (tmul (Num unserved) (of_ext diameter)) (Num 2)) (Num total_demand) in
  let cost := tadd mean_time_per_served_trip unserved_penalty in
  if no_norm then cost else tdiv cost (of_ext diameter).

(** Not negative: a non-negative number, [+inf] or [nan]. *)
Definition tnonneg (x : tfloat) : Prop :=
  match x with Num q => (0 <= q)%Q | PInf | NaN => True | NInf => False end.

(** Finite and not negative *)
Definition tgood (x : tfloat) : Prop := isfinite x = true ∧ tnonneg x.

(** Demands and transit times that are not negative *)
Definition nonneg_inputs (sc : Scenario) : Prop :=
  Forall (Forall (λ d, (0 <= d)%Q)) (demand (graph_data sc))
  ∧ Forall (Forall (λ t, ext_le (Fin 0) t)) (transit_times (extra_data sc)).

(** ** The done sentinel *)

(** The route-derived fields are up to date with the route matrix:
    deriving them again changes nothing. *)
Definition settled {lib : GraphAlgorithms} (symmetric : bool) (sc : Scenario) : Prop :=
  let sc' := derive symmetric false false sc in
  valid_terms_mat (extra_data sc') = valid_terms_mat (extra_data sc)
  ∧ transit_times (extra_data sc') = transit_times (extra_data sc)
  ∧ has_path (extra_data sc') = has_path (extra_data sc).

(** The fields of a scenario that a done sentinel is to leave as they
    are: the routes, the total route time and the route-derived
    tensors. *)
Definition unchanged (sc' sc : Scenario) : Prop :=
  finished_routes sc' = finished_routes sc
  ∧ total_route_time (extra_data sc') = total_route_time (extra_data sc)
  ∧ state_total_route_time sc' = state_total_route_time sc
  ∧ route_mat (extra_data sc') = route_mat (extra_data sc)
  ∧ transit_times (extra_data sc') = transit_times (extra_data sc)
  ∧ directly_connected (extra_data sc') = directly_connected (extra_data sc)
  ∧ has_path (extra_data sc') = has_path (extra_data sc)
  ∧ valid_terms_mat (extra_data sc') = valid_terms_mat (extra_data sc)
  ∧ current_routes (extra_data sc') = current_routes (extra_data sc).

(** The same network, routes and times; the memo and the times from
    the first stop may differ. *)
Definition same_routes (sc' sc : Scenario) : Prop :=
  same_network sc' sc
  ∧ finished_routes sc' = finished_routes sc
  ∧ total_route_time (extra_data sc') = total_route_time (extra_data sc)
  ∧ current_routes (extra_data sc') = current_routes (extra_data sc)
  ∧ current_route_time (extra_data sc') = current_route_time (extra_data sc).

(** The symmetric part of a mask, as the refresh takes it when routes
    are symmetric: [mask & mask.transpose(-2, -1)]. *)
Definition symmetrize (m : mat bool) : mat bool := mzip_with andb m (mtranspose false m).

(** ** Shapes and frames of the further properties *)

(** The next-hop matrix of every scenario has the width of the batch. *)
Definition nexts_square (st : RouteGenBatchState) : Prop :=
  Forall (λ sc, square (max_n_nodes st) (route_nexts (extra_data sc))) (scenarios st).

(** Clearing [sc'] gives what clearing [sc] gives. *)
Definition clears_alike (n : nat) (sc' sc : Scenario) : Prop :=
  clear_scenario n sc' = clear_scenario n sc.

(** The routes that [add_new_routes] keeps of the routes it is given:
    those with at least two stops, cut after as many entries as they
    have stops. *)
Definition kept_routes (new_routes : mat Z) : mat Z :=
  omap (λ route : list Z,
          if bool_decide (count_stops route < 2)%nat then None
          else Some (take (count_stops route) route))
       new_routes.

(** The valid-terminal mask of a scenario is symmetric, when routes are;
    and it excludes the directly connected pairs, when they are to be
    invalid. *)
Definition terminals_ok (symmetric not_connected : bool) (sc : Scenario) : Prop :=
  ∀ i j,
    (symmetric = true →
     mlookup (valid_terms_mat (extra_data sc)) i j = Some true →
     mlookup (valid_terms_mat (extra_data sc)) j i = Some true)
    ∧ (not_connected = true →
       mlookup (directly_connected (extra_data sc)) i j = Some true →
       mlookup (valid_terms_mat (extra_data sc)) i j ≠ Some true).

(** A route that visits no stop twice, and whose entries are below the
    width of the batch. *)
Definition loop_free (width : nat) (route : list Z) : Prop :=
  NoDup (valid_stops route) ∧ Forall (λ x, x < Z.of_nat width) route.

(** The number of slots set among the first [width]. *)
Definition slots_set (width : nat) (slots : list bool) : nat :=
  length (filter (λ b, b = true) (take width slots)).

(** The percentages of the trips by transfers, as [get_metrics]
    computes them of an output with a total demand for every row. *)
Definition percent_tat (cho : CostHelperOutput.t) : mat tfloat :=
  mmap (λ x, tmul x (Num 100))
       (zip_with (λ (row : list Q) (d : Q), (λ x, tdiv (Num x) (Num d)) <$> row)
                 (CostHelperOutput.trips_at_transfers cho)
                 (CostHelperOutput.total_demand cho)).

(** Entry [b] of the metric [key] *)
Definition metric (key : string) (metrics : list (string * option (list tfloat)))
    (b : nat) : option tfloat :=
  dict_get key metrics ≫= λ v, v ≫= (.!! b).

(** The cost weights recorded in [sc'] are those recorded in [sc]. *)
Definition same_weights (sc' sc : Scenario) : Prop :=
  cost_weights (extra_data sc') = cost_weights (extra_data sc).

(** The states that the methods make of a state [st0], whether they
    returned or raised. *)
Inductive evolves {lib : GraphAlgorithms} (st0 : RouteGenBatchState)
    : RouteGenBatchState → Prop :=
| evolves_refl : evolves st0 st0
| evolves_action st path_indices :
    evolves st0 st → evolves st0 (final_state (shortest_path_action st path_indices))
| evolves_add st batch_new_routes demand_only not_connected :
    evolves st0 st →
    evolves st0 (final_state (add_new_routes st batch_new_routes demand_only not_connected))
| evolves_replace st batch_new_routes demand_only not_connected :
    evolves st0 st →
    evolves st0 (final_state (replace_routes st batch_new_routes demand_only not_connected))
| evolves_clear st :
    evolves st0 st → evolves st0 (clear_routes st)
| evolves_reset st :
    evolves st0 st → evolves st0 (reset_dones st).

(** A chain of [k + 1] direct connections from node [i] to node [j] *)
Fixpoint chain (dc : mat bool) (k : nat) (i j : nat) : Prop :=
  match k with
  | O => mlookup dc i j = Some true
  | S k => ∃ m, chain dc k i m ∧ mlookup dc m j = Some true
  end.

(** [sc'] has the graph of [sc], and the shortest-path sequences that
    [sc] has stored. *)
Definition same_memo (sc' sc : Scenario) : Prop :=
  graph_data sc' = graph_data sc
  ∧ shortest_path_sequences (extra_data sc') = shortest_path_sequences (extra_data sc).

(** Every scenario of [l'] is, up to that, a scenario of [l]. *)
Definition memo_kept (l' l : list Scenario) : Prop :=
  Forall (λ sc', ∃ sc, sc ∈ l ∧ same_memo sc' sc) l'.

(** No scenario has stored sequences, or every scenario has stored
    those of its graph. *)
Definition memo_fresh {lib : GraphAlgorithms} (st : RouteGenBatchState) : Prop :=
  Forall (λ sc, shortest_path_sequences (extra_data sc) = []) (scenarios st)
  ∨ Forall (λ sc, shortest_path_sequences (extra_data sc)
                  = (reconstruct_all_paths (nexts (graph_data sc))).1)
           (scenarios st).

(** ** A three-node example *)

Module Example.

(** Three nodes in a line, five time units apart. *)
Definition street : mat ext :=
  [[Fin 0; Fin 5; Inf]; [Fin 5; Fin 0; Fin 5]; [Inf; Fin 5; Fin 0]].

Definition graph (trips : mat Q) : GraphData :=
  {| num_nodes := 3;
     drive_times := (Reference.floyd_warshall street).2;
     demand := trips;
     nexts := (Reference.floyd_warshall street).1 |}.

(** One trip from node 0 to node 2 *)
Definition one_trip : mat Q := [[0; 0; 1]; [0; 0; 0]; [0; 0; 0]]%Q.
Definition no_trips : mat Q := [[0; 0; 0]; [0; 0; 0]; [0; 0; 0]]%Q.

Definition base : CostModule.t :=
  {| CostModule.mean_stop_time_s := 0;
     CostModule.avg_transfer_wait_time_s := 300;
     CostModule.symmetric_routes := true;
     CostModule.low_memory_mode := false |}.

(** [MyCostModule()] with its default arguments *)
Definition my_module : MyCostModule.t :=
  {| MyCostModule.base := base;
     MyCostModule.demand_time_weight := 1 # 2;
     MyCostModule.route_time_weight := 1 # 2;
     MyCostModule.constraint_violation_weight := 5;
     MyCostModule.variable_weights := false;
     MyCostModule.min_route_len := Some 2;
     MyCostModule.max_route_len := None;
     MyCostModule.ignore_stops_oob := false |}.

(** [NikolicCostModule()] with its default arguments *)
Definition nikolic_module : NikolicCostModule.t :=
  {| NikolicCostModule.base := base;
     NikolicCostModule.unsatisfied_penalty_extra_s := 3000 |}.

Definition unwrap (r : result RouteGenBatchState) : RouteGenBatchState :=
  match r with
  | inr st => st
  | inl _ => {| symmetric_routes := false; scenarios := [] |}
  end.

(** [RouteGenBatchState(graph, MyCostModule(), n_routes, valid_terms)] *)
Definition fresh (trips : mat Q) (n_routes : Z) (valid_terms : option (mat bool))
    : RouteGenBatchState :=
  unwrap (__init__ [graph trips] (My my_module) [n_routes]
                   ((λ v, [v]) <$> valid_terms) None None).

(** One route to plan; the path from node 0 to node 2 is taken. *)
Definition planning : RouteGenBatchState :=
  final_state (shortest_path_action (lib := Reference.lib) (fresh one_trip 1 None) [(0, 2)]).

(** The route in progress is then finished. *)
Definition planned : RouteGenBatchState :=
  final_state (shortest_path_action (lib := Reference.lib) planning [(-1, -1)]).

End Example.

(** The route [0, 1] is in progress; the action (1, 0) both ends at
    its first stop and starts at its last one. *)
Definition two_stops : RouteGenBatchState :=
  Eval vm_compute in
    final_state (shortest_path_action (lib := Reference.lib)
                   (Example.fresh Example.one_trip 1 None) [(0, 1)]).

(** The state after that action *)
Definition looped : RouteGenBatchState :=
  Eval vm_compute in
    final_state (shortest_path_action (lib := Reference.lib) two_stops [(1, 0)]).

(** Trips from node 0 to node 1 and from node 0 to node 2; the single
    route [0, 1] serves the first only. *)
Definition two_trips : mat Q := [[0; 1; 1]; [0; 0; 0]; [0; 0; 0]]%Q.

(** That route, planned and finished *)
Definition half_served : RouteGenBatchState :=
  Eval vm_compute in
    final_state
      (shortest_path_action (lib := Reference.lib)
         (final_state (shortest_path_action (lib := Reference.lib)
                         (Example.fresh two_trips 1 None) [(0, 1)]))
         [(-1, -1)]).

(** The route [0] is in progress: a route of one stop, started by the
    action (0, 0). *)
Definition one_stop : RouteGenBatchState :=
  Eval vm_compute in
    final_state (shortest_path_action (lib := Reference.lib)
                   (Example.fresh Example.one_trip 1 None) [(0, 0)]).

(** The state after the done sentinel *)
Definition one_stop_done : RouteGenBatchState :=
  Eval vm_compute in
    final_state (shortest_path_action (lib := Reference.lib) one_stop [(-1, -1)]).

(** A mask that allows ending at a later node only *)
Definition forward_only : mat bool :=
  [[false; true; true]; [false; false; true]; [false; false; false]].

(** A state with no route to plan, built with that mask: complete from
    the start. *)
Definition nothing_to_plan : RouteGenBatchState :=
  Eval vm_compute in Example.fresh Example.one_trip 0 (Some forward_only).

(** The state after the done sentinel *)
Definition after_sentinel : RouteGenBatchState :=
  Eval vm_compute in
    final_state (shortest_path_action (lib := Reference.lib) nothing_to_plan [(-1, -1)]).

(** * Proofs *)

(** ** Extended times *)

Lemma ext_le_refl x : ext_le x x.
Proof. destruct x; simpl; [apply Qle_refl | exact I]. Qed.

Lemma ext_le_trans x y z : ext_le x y → ext_le y z → ext_le x z.
Proof.
  destruct x, y, z; simpl; try tauto.
  apply Qle_trans.
Qed.

Lemma ext_leb_le x y : ext_leb x y = true ↔ ext_le x y.
Proof.
  destruct x, y; simpl; try tauto; try (split; [discriminate | tauto]).
  apply Qle_bool_iff.
Qed.

Lemma ext_leb_total x y : ext_leb x y = false → ext_le y x.
Proof.
  destruct x as [a|], y as [b|]; simpl; try discriminate; try tauto.
  intros H. destruct (Qlt_le_dec b a) as [Hlt | Hle].
  - apply Qlt_le_weak, Hlt.
  - apply Qle_bool_iff in Hle. congruence.
Qed.

Lemma ext_min_le_l x y : ext_le (ext_min x y) x.
Proof.
  unfold ext_min. destruct (ext_leb x y) eqn:E.
  - apply ext_le_refl.
  - apply ext_leb_total, E.
Qed.

Lemma ext_min_le_r x y : ext_le (ext_min x y) y.
Proof.
  unfold ext_min. destruct (ext_leb x y) eqn:E.
  - apply ext_leb_le, E.
  - apply ext_le_refl.
Qed.

Lemma ext_min_absorb x y : ext_le x y → ext_min x y = x.
Proof. intros H. unfold ext_min. apply ext_leb_le in H. by rewrite H. Qed.

Lemma ext_le_fin x q : ext_le x (Fin q) → ∃ p, x = Fin p ∧ (p <= q)%Q.
Proof. destruct x; simpl; [eauto | tauto]. Qed.

Lemma lt_inf_fin x : lt_inf x = true ↔ ∃ q, x = Fin q.
Proof.
  destruct x; simpl; split; intros H; eauto; try discriminate.
  destruct H; discriminate.
Qed.

Lemma lt_inf_add_fin x p : lt_inf (ext_add x (Fin p)) = lt_inf x.
Proof. by destruct x. Qed.

(** ** Tensors *)

Lemma mlookup_mzip_with {A B C} (f : A → B → C) (a : mat A) (b : mat B) i j :
  mlookup (mzip_with f a b) i j
  = x ← mlookup a i j; y ← mlookup b i j; Some (f x y).
Proof.
  unfold mlookup, mzip_with. rewrite lookup_zip_with.
  destruct (a !! i) as [ra|]; simpl; [| done].
  destruct (b !! i) as [rb|]; simpl.
  - rewrite lookup_zip_with. by destruct (ra !! j).
  - by destruct (ra !! j).
Qed.

Lemma mlookup_mmap {A B} (f : A → B) (m : mat A) i j :
  mlookup (mmap f m) i j = f <$> mlookup m i j.
Proof.
  unfold mlookup, mmap. rewrite list_lookup_fmap.
  destruct (m !! i) as [r|]; simpl; [| done].
  by rewrite list_lookup_fmap.
Qed.

Lemma mlookup_mbuild {A} n (f : nat → nat → A) i j :
  (i < n)%nat → (j < n)%nat → mlookup (mbuild n f) i j = Some (f i j).
Proof.
  intros Hi Hj. unfold mlookup, mbuild.
  rewrite list_lookup_fmap, lookup_seq_lt by done. simpl.
  by rewrite list_lookup_fmap, lookup_seq_lt.
Qed.

Lemma square_mbuild {A} n (f : nat → nat → A) : square n (mbuild n f).
Proof.
  split.
  - unfold mbuild. by rewrite length_fmap, length_seq.
  - unfold mbuild. apply Forall_fmap, Forall_forall. intros i _. simpl.
    by rewrite length_fmap, length_seq.
Qed.

Lemma square_mmap {A B} n (f : A → B) (m : mat A) : square n m → square n (mmap f m).
Proof.
  intros [Hl Hr]. split.
  - unfold mmap. by rewrite length_fmap.
  - unfold mmap. apply Forall_fmap. eapply Forall_impl; [exact Hr |].
    intros r Hlen. simpl. by rewrite length_fmap.
Qed.

Lemma square_mzip_with {A B C} n (f : A → B → C) (a : mat A) (b : mat B) :
  square n a → square n b → square n (mzip_with f a b).
Proof.
  intros [Hla Hra] [Hlb Hrb]. split.
  - unfold mzip_with. rewrite length_zip_with. lia.
  - unfold mzip_with. apply Forall_lookup. intros i r Hr.
    apply lookup_zip_with_Some in Hr as (ra & rb & -> & Ha & Hb).
    rewrite length_zip_with.
    pose proof (proj1 (Forall_lookup _ _) Hra _ _ Ha) as Ea.
    pose proof (proj1 (Forall_lookup _ _) Hrb _ _ Hb) as Eb.
    simpl in *. lia.
Qed.

Lemma square_lookup {A} n (m : mat A) i j :
  square n m → (i < n)%nat → (j < n)%nat → is_Some (mlookup m i j).
Proof.
  intros [Hl Hr] Hi Hj. unfold mlookup.
  destruct (lookup_lt_is_Some_2 m i) as [r Hri]; [lia |].
  rewrite Hri. simpl. apply lookup_lt_is_Some_2.
  pose proof (proj1 (Forall_lookup _ _) Hr _ _ Hri) as E. simpl in E. lia.
Qed.

Lemma mlookup_lt {A} n (m : mat A) i j x :
  square n m → mlookup m i j = Some x → (i < n)%nat ∧ (j < n)%nat.
Proof.
  intros [Hl Hr] H. unfold mlookup in H.
  destruct (m !! i) as [r|] eqn:Hri; simpl in H; [| done].
  pose proof (proj1 (Forall_lookup _ _) Hr _ _ Hri) as E. simpl in E.
  apply lookup_lt_Some in Hri, H. lia.
Qed.

(** Two square tensors with the same entries are equal. *)
Lemma square_eq {A} n (a b : mat A) :
  square n a → square n b →
  (∀ i j, (i < n)%nat → (j < n)%nat → mlookup a i j = mlookup b i j) →
  a = b.
Proof.
  intros [Hla Hra] [Hlb Hrb] H. apply list_eq. intros i.
  destruct (decide (i < n)%nat) as [Hi | Hi].
  - destruct (lookup_lt_is_Some_2 a i) as [ra Ha]; [lia |].
    destruct (lookup_lt_is_Some_2 b i) as [rb Hb]; [lia |].
    rewrite Ha, Hb. f_equal. apply list_eq. intros j.
    pose proof (proj1 (Forall_lookup _ _) Hra _ _ Ha) as Ea.
    pose proof (proj1 (Forall_lookup _ _) Hrb _ _ Hb) as Eb.
    simpl in *.
    destruct (decide (j < n)%nat) as [Hj | Hj].
    + specialize (H i j Hi Hj). unfold mlookup in H. by rewrite Ha, Hb in H.
    + rewrite !lookup_ge_None_2 by lia. done.
  - rewrite !lookup_ge_None_2 by lia. done.
Qed.

(** ** Lists of scenarios *)

Lemma mapM_result_Forall2 {A B} (f : A → result B) (l : list A) (k : list B) :
  mapM (M := result) f l = inr k → Forall2 (λ x y, f x = inr y) l k.
Proof.
  revert k. induction l as [| x l IH]; intros k H; simpl in H.
  - injection H as <-. constructor.
  - destruct (f x) as [e | y] eqn:Hx; simpl in H; [discriminate |].
    destruct (mapM f l) as [e | k'] eqn:Hl; simpl in H; [discriminate |].
    injection H as <-. constructor; [done | by apply IH].
Qed.

Lemma Forall2_zip_with_l {A B} (R : A → A → Prop) (f : A → B → A) (l : list A) (k : list B) :
  length k = length l → (∀ x y, R (f x y) x) → Forall2 R (zip_with f l k) l.
Proof.
  revert k. induction l as [| x l IH]; intros [| y k] Hlen Hf; simpl in *;
    try discriminate; constructor; [apply Hf | apply IH; [lia | done]].
Qed.

Lemma Forall2_fmap_diag {A} (R : A → A → Prop) (f : A → A) (l : list A) :
  (∀ x, R (f x) x) → Forall2 R (f <$> l) l.
Proof. intros Hf. induction l; simpl; constructor; auto. Qed.

Lemma Forall2_imap_diag {A} (R : A → A → Prop) (f : nat → A → A) (l : list A) :
  (∀ i x, R (f i x) x) → Forall2 R (imap f l) l.
Proof.
  revert f. induction l as [| x l IH]; intros f Hf; simpl; constructor; [apply Hf |].
  apply IH. intros i y. apply Hf.
Qed.

(** ** What the methods leave alone *)

Lemma with_mutable_eta ed :
  with_mutable ed (valid_terms_mat ed) (total_route_time ed) (directly_connected ed)
    (route_mat ed) (transit_times ed) (has_path ed) (current_routes ed)
    (current_route_time ed) (current_route_times_from_start ed)
    (shortest_path_sequences ed) (route_nexts ed) (n_transfers ed) = ed.
Proof. by destruct ed. Qed.

Lemma same_network_refl sc : same_network sc sc.
Proof.
  split; [done |].
  exists (total_route_time (extra_data sc)), (current_routes (extra_data sc)),
    (current_route_time (extra_data sc)),
    (current_route_times_from_start (extra_data sc)),
    (shortest_path_sequences (extra_data sc)).
  by rewrite with_mutable_eta.
Qed.

Lemma same_network_trans sc1 sc2 sc3 :
  same_network sc1 sc2 → same_network sc2 sc3 → same_network sc1 sc3.
Proof.
  intros [Hg1 (a1 & b1 & c1 & d1 & e1 & H1)] [Hg2 (a2 & b2 & c2 & d2 & e2 & H2)].
  split; [congruence |].
  exists a1, b1, c1, d1, e1. rewrite H1, H2. reflexivity.
Qed.

Lemma same_network_fields sc' sc :
  same_network sc' sc →
  graph_data sc' = graph_data sc
  ∧ valid_terms_mat (extra_data sc') = valid_terms_mat (extra_data sc)
  ∧ base_valid_terms_mat (extra_data sc') = base_valid_terms_mat (extra_data sc)
  ∧ directly_connected (extra_data sc') = directly_connected (extra_data sc)
  ∧ route_mat (extra_data sc') = route_mat (extra_data sc)
  ∧ transit_times (extra_data sc') = transit_times (extra_data sc)
  ∧ has_path (extra_data sc') = has_path (extra_data sc)
  ∧ n_transfers (extra_data sc') = n_transfers (extra_data sc)
  ∧ route_nexts (extra_data sc') = route_nexts (extra_data sc)
  ∧ n_nodes_in_scenario (extra_data sc') = n_nodes_in_scenario (extra_data sc)
  ∧ mean_stop_time (extra_data sc') = mean_stop_time (extra_data sc)
  ∧ transfer_time_s (extra_data sc') = transfer_time_s (extra_data sc)
  ∧ n_routes_to_plan (extra_data sc') = n_routes_to_plan (extra_data sc).
Proof. intros [Hg (a & b & c & d & e & H)]. rewrite H. by repeat split. Qed.

Lemma same_network_set_finished v sc : same_network (set_finished_routes v sc) sc.
Proof. destruct (same_network_refl sc) as [Hg He]. split; [done | exact He]. Qed.

Lemma same_network_memo v sc :
  same_network (set_extra (set_shortest_path_sequences v) sc) sc.
Proof.
  split; [done |]. simpl. unfold set_shortest_path_sequences. by do 5 eexists.
Qed.

Lemma same_network_times v sc :
  same_network (set_extra (set_current_route_times_from_start v) sc) sc.
Proof.
  split; [done |]. simpl. unfold set_current_route_times_from_start. by do 5 eexists.
Qed.

Lemma same_network_total v sc :
  same_network (set_extra (set_total_route_time v) sc) sc.
Proof.
  split; [done |]. simpl. unfold set_total_route_time. by do 5 eexists.
Qed.

Section Frames.
Context {lib : GraphAlgorithms}.

Lemma same_network_finish_route sc sentinel row :
  same_network (finish_route sc sentinel row).1 sc.
Proof.
  unfold finish_route. simpl.
  destruct (negb (is_done sc) && sentinel); [| apply same_network_refl].
  case_bool_decide; [| apply same_network_refl].
  eapply same_network_trans; [apply same_network_total |].
  apply same_network_set_finished.
Qed.

Lemma same_network_apply_action sym sc pidx row :
  same_network (apply_action sym sc pidx row) sc.
Proof.
  unfold apply_action.
  eapply same_network_trans; [| apply same_network_finish_route].
  split; [done |]. simpl.
  unfold set_current_route_time, set_current_routes. simpl. by do 5 eexists.
Qed.

Lemma same_network_append_routes sc new_routes :
  same_network (append_routes sc new_routes) sc.
Proof. apply same_network_set_finished. Qed.

Lemma append_loop_same_network scs new :
  Forall2 same_network (append_loop scs new).1 scs.
Proof.
  revert new. induction scs as [| sc scs IH]; intros new; simpl; [constructor |].
  destruct new as [| r new]; simpl.
  - apply Forall_Forall2_diag, Forall_forall. intros. apply same_network_refl.
  - constructor; [apply same_network_append_routes | apply IH].
Qed.

Lemma memo_same_network st :
  Forall2 same_network (scenarios (get_shortest_path_sequences st).1) (scenarios st).
Proof.
  unfold get_shortest_path_sequences. case_bool_decide; simpl.
  - apply Forall2_fmap_diag. intros. apply same_network_memo.
  - apply Forall_Forall2_diag, Forall_forall. intros. apply same_network_refl.
Qed.

Lemma memo_length st :
  length (get_shortest_path_sequences st).2 = batch_size st.
Proof.
  unfold get_shortest_path_sequences, batch_size. case_bool_decide; simpl;
    by rewrite !length_fmap.
Qed.

End Frames.

(** ** Monotonicity of the route matrix *)

Lemma mat_le_refl m : mat_le m m.
Proof. intros i j x H. exists x. split; [done | apply ext_le_refl]. Qed.

Lemma mat_le_trans a b c : mat_le a b → mat_le b c → mat_le a c.
Proof.
  intros Hab Hbc i j x H.
  destruct (Hab _ _ _ H) as (y & Hy & Hxy).
  destruct (Hbc _ _ _ Hy) as (z & Hz & Hyz).
  exists z. split; [done | by eapply ext_le_trans].
Qed.

Lemma mat_le_min a b : mat_le (mzip_with ext_min a b) a.
Proof.
  intros i j x H. rewrite mlookup_mzip_with in H.
  destruct (mlookup a i j) as [u|]; simpl in H; [| done].
  destruct (mlookup b i j) as [v|]; simpl in H; [| done].
  injection H as <-. exists u. split; [done | apply ext_min_le_l].
Qed.

Lemma route_mat_le_same_network sc' sc : same_network sc' sc → route_mat_le sc' sc.
Proof.
  intros H. apply same_network_fields in H as (_ & _ & _ & _ & E & _).
  unfold route_mat_le. rewrite E. apply mat_le_refl.
Qed.

Lemma Forall2_route_mat_le_trans l1 l2 l3 :
  Forall2 route_mat_le l1 l2 → Forall2 route_mat_le l2 l3 → Forall2 route_mat_le l1 l3.
Proof.
  apply Forall2_trans. intros x y z. unfold route_mat_le. apply mat_le_trans.
Qed.

Lemma Forall2_same_network_route_mat_le l1 l2 :
  Forall2 same_network l1 l2 → Forall2 route_mat_le l1 l2.
Proof. intros H. eapply Forall2_impl; [exact H | apply route_mat_le_same_network]. Qed.

Lemma Forall2_same_network_trans l1 l2 l3 :
  Forall2 same_network l1 l2 → Forall2 same_network l2 l3 → Forall2 same_network l1 l3.
Proof. apply Forall2_trans, same_network_trans. Qed.

Lemma set_directly_connected_eta sc :
  set_extra (set_directly_connected (directly_connected (extra_data sc))) sc = sc.
Proof.
  destruct sc as [g f ed]. unfold set_extra, set_directly_connected. simpl.
  by rewrite with_mutable_eta.
Qed.

Section Monotone.
Context {lib : GraphAlgorithms}.

(** The loop changes [directly_connected] only. *)
Lemma connect_loop_frame scs counts idxs :
  Forall2 (λ sc' sc, ∃ dc, sc' = set_extra (set_directly_connected dc) sc)
          (connect_loop scs counts idxs).1 scs.
Proof.
  revert counts idxs. induction scs as [| sc scs IH]; intros counts idxs; simpl.
  - constructor.
  - destruct counts as [| c counts]; simpl.
    + apply Forall_Forall2_diag, Forall_forall. intros x _.
      exists (directly_connected (extra_data x)). by rewrite set_directly_connected_eta.
    + constructor; [by eexists | apply IH].
Qed.

Lemma connect_loop_route_mat_le scs counts idxs :
  Forall2 route_mat_le (connect_loop scs counts idxs).1 scs.
Proof.
  eapply Forall2_impl; [apply connect_loop_frame |].
  intros sc' sc [dc ->]. apply mat_le_refl.
Qed.

Lemma update_on_routes_le st routes f1 f2 :
  route_mats_le (final_state (_update_on_routes st routes f1 f2)) st.
Proof.
  unfold route_mats_le, _update_on_routes.
  case_bool_decide as Hlen; simpl.
  2:{ apply Forall_Forall2_diag, Forall_forall. intros. apply mat_le_refl. }
  set (scs1 := zip_with (merge_routes (symmetric_routes st)) (scenarios st) routes).
  assert (Forall2 route_mat_le scs1 (scenarios st)) as H1.
  { apply Forall2_zip_with_l; [done |]. intros sc r. apply mat_le_min. }
  match goal with |- context [connect_loop scs1 ?c ?e] =>
    pose proof (connect_loop_route_mat_le scs1 c e) as H2;
    destruct (connect_loop scs1 c e) as [scs2 [e' |]] end; simpl in *.
  - by eapply Forall2_route_mat_le_trans.
  - eapply Forall2_route_mat_le_trans; [| by eapply Forall2_route_mat_le_trans].
    apply Forall2_fmap_diag. intros sc. apply mat_le_refl.
Qed.

Lemma masked_assign_length masks t vals t' :
  masked_assign masks t vals = inr t' → length t' = length t.
Proof.
  revert t vals t'. induction masks as [| mask masks IH]; intros t vals t' H; simpl in H.
  - destruct vals; [| discriminate]. by injection H as <-.
  - destruct t as [| row t].
    + destruct vals; [| discriminate]. by injection H as <-.
    + destruct (masked_assign_row mask row vals) as [[row' rest] |]; [| discriminate].
      destruct (masked_assign masks t rest) as [e | t''] eqn:E; simpl in H; [discriminate |].
      injection H as <-. simpl. f_equal. by eapply IH.
Qed.

Lemma updated_routes_length st seqs pis u :
  updated_routes st seqs pis = inr u →
  length seqs = batch_size st →
  length u = batch_size st ∧ length pis = batch_size st.
Proof.
  unfold updated_routes. intros H Hseqs.
  case_bool_decide as Hpis; simpl in H; [| discriminate].
  destruct (mapM _ _) as [e | gs] eqn:Hgs; simpl in H; [discriminate |].
  apply mapM_result_Forall2, Forall2_length in Hgs.
  rewrite !length_zip in Hgs.
  destruct (negb (forallb valid_action gs)); [discriminate |].
  destruct (negb (forallb _ gs)); [discriminate |].
  destruct (masked_assign _ _ _) as [e | u1] eqn:Hu1; simpl in H; [discriminate |].
  apply masked_assign_length in Hu1. rewrite !length_fmap in Hu1.
  destruct (negb (forallb _ u1)); [discriminate |].
  injection H as <-. rewrite length_zip_with, length_fmap.
  unfold batch_size in *. split; lia.
Qed.

Lemma apply_actions_same_network sym scs pis u :
  length pis = length scs → length u = length scs →
  Forall2 same_network
    (zip_with (λ (p : Scenario * (Z * Z)) row, apply_action sym p.1 p.2 row) (zip scs pis) u)
    scs.
Proof.
  revert pis u. induction scs as [| sc scs IH]; intros [| p pis] [| r u] H1 H2;
    simpl in *; try discriminate; constructor.
  - apply same_network_apply_action.
  - apply IH; lia.
Qed.

(** Whatever [shortest_path_action] does before the refresh leaves the
    network fields alone, and the refresh runs on a batch of the same
    size. *)
Lemma shortest_path_action_cases st pis :
  (∃ e st1, shortest_path_action st pis = Raise e st1
            ∧ Forall2 same_network (scenarios st1) (scenarios st)
            ∧ symmetric_routes st1 = symmetric_routes st)
  ∨ (∃ st2 routes,
       shortest_path_action st pis = _update_on_routes st2 routes false false
       ∧ Forall2 same_network (scenarios st2) (scenarios st)
       ∧ symmetric_routes st2 = symmetric_routes st
       ∧ routes = (λ sc, [current_routes (extra_data sc)]) <$> scenarios st2).
Proof.
  unfold shortest_path_action.
  pose proof (memo_same_network st) as H0.
  pose proof (memo_length st) as Hl.
  assert (symmetric_routes (get_shortest_path_sequences st).1 = symmetric_routes st) as Hs.
  { unfold get_shortest_path_sequences. by case_bool_decide. }
  assert (batch_size (get_shortest_path_sequences st).1 = batch_size st) as Hb.
  { unfold batch_size. by rewrite (Forall2_length _ _ _ H0). }
  destruct (get_shortest_path_sequences st) as [st0 seqs]. simpl in *.
  destruct (updated_routes st0 seqs pis) as [e | u] eqn:Hu.
  { left. by exists e, st0. }
  apply updated_routes_length in Hu as [Hu Hp]; [| congruence].
  set (scs1 := zip_with _ (zip (scenarios st0) pis) u).
  assert (Forall2 same_network scs1 (scenarios st0)) as H1.
  { apply apply_actions_same_network; unfold batch_size in *; congruence. }
  destruct (mapM times_from_start scs1) as [ncr |] eqn:Hn.
  - right. eexists _, _. split; [reflexivity |]. simpl. repeat split; [| done].
    eapply Forall2_same_network_trans; [| by eapply Forall2_same_network_trans].
    apply Forall2_zip_with_l; [| intros; apply same_network_times].
    apply mapM_Some_1, Forall2_length in Hn. by rewrite Hn.
  - left. eexists _, _. split; [reflexivity |]. simpl. split; [| done].
    by eapply Forall2_same_network_trans.
Qed.

Lemma shortest_path_action_le st pis :
  route_mats_le (final_state (shortest_path_action st pis)) st.
Proof.
  destruct (shortest_path_action_cases st pis)
    as [(e & st1 & -> & H & _) | (st2 & routes & -> & H & _)]; simpl.
  - by apply Forall2_same_network_route_mat_le.
  - eapply Forall2_route_mat_le_trans; [apply update_on_routes_le |].
    by apply Forall2_same_network_route_mat_le.
Qed.

(** Likewise for [add_new_routes]. *)
Lemma add_new_routes_cases st new f1 f2 :
  (∃ e st1, add_new_routes st new f1 f2 = Raise e st1
            ∧ Forall2 same_network (scenarios st1) (scenarios st))
  ∨ (∃ st2,
       add_new_routes st new f1 f2 = _update_on_routes st2 new f1 f2
       ∧ Forall2 same_network (scenarios st2) (scenarios st)
       ∧ symmetric_routes st2 = symmetric_routes st).
Proof.
  unfold add_new_routes.
  pose proof (append_loop_same_network (scenarios st) new) as H0.
  destruct (append_loop (scenarios st) new) as [scs [e |]]; simpl in H0.
  { left. by exists e, (set_scenarios st scs). }
  case_bool_decide as Hlen; simpl.
  - right. eexists. split; [reflexivity |]. simpl. split; [| done].
    eapply Forall2_same_network_trans; [| exact H0].
    apply Forall2_zip_with_l; [| intros; apply same_network_total].
    rewrite Hlen. unfold batch_size. symmetry. by eapply Forall2_length.
  - left. by eexists _, _.
Qed.

Lemma add_new_routes_le st new f1 f2 :
  route_mats_le (final_state (add_new_routes st new f1 f2)) st.
Proof.
  destruct (add_new_routes_cases st new f1 f2)
    as [(e & st1 & -> & H) | (st2 & -> & H & _)]; simpl.
  - by apply Forall2_same_network_route_mat_le.
  - eapply Forall2_route_mat_le_trans; [apply update_on_routes_le |].
    by apply Forall2_same_network_route_mat_le.
Qed.

End Monotone.

(** C3 (monotonicity): a route-adding operation never raises an entry
    of [route_mat].  Whatever [_update_on_routes], [shortest_path_action]
    or [add_new_routes] did, returning or raising, the state it leaves
    has the scenarios of the state it started from, and every entry of
    each scenario's route matrix is at most what it was before. *)
Theorem route_mat_monotone {lib : GraphAlgorithms} (st : RouteGenBatchState) :
  (∀ routes demand_only not_connected,
     route_mats_le (final_state (_update_on_routes st routes demand_only not_connected)) st)
  ∧ (∀ path_indices,
       route_mats_le (final_state (shortest_path_action st path_indices)) st)
  ∧ (∀ batch_new_routes demand_only not_connected,
       route_mats_le
         (final_state (add_new_routes st batch_new_routes demand_only not_connected)) st).
Proof.
  split; [| split].
  - intros. apply update_on_routes_le.
  - intros. apply shortest_path_action_le.
  - intros. apply add_new_routes_le.
Qed.

(** ** The coordinates of the finite entries *)

Lemma elem_of_where_finite (m : mat ext) i j :
  (i, j) ∈ where_finite m ↔ ∃ q, mlookup m i j = Some (Fin q).
Proof.
  unfold where_finite, mlookup. rewrite list_elem_of_join. split.
  - intros (l & Hin & Hl).
    apply elem_of_lookup_imap in Hl as (i' & row & -> & Hrow).
    apply list_elem_of_omap in Hin as ([j' y] & Hy & Hsome).
    apply elem_of_lookup_imap in Hy as (j'' & y' & Heq & Hy). injection Heq as -> ->.
    simpl in Hsome. destruct y' as [q |]; simpl in Hsome; [| discriminate].
    injection Hsome as -> ->. exists q. by rewrite Hrow.
  - intros (q & H). destruct (m !! i) as [row |] eqn:Hrow; simpl in H; [| discriminate].
    eexists. split; [| eapply (elem_of_lookup_imap_2 _ m _ i), Hrow].
    apply list_elem_of_omap. exists (j, Fin q). split; [| done].
    by apply (elem_of_lookup_imap_2 pair row (Fin q) j).
Qed.

Lemma set_connected_cons dc p idxs :
  set_connected dc (p :: idxs)
  = set_connected (alter (λ row : list bool, <[p.2 := true]> row) p.1 dc) idxs.
Proof. reflexivity. Qed.

Lemma mlookup_connect_one (dc : mat bool) (p : nat * nat) i j :
  mlookup (alter (λ row : list bool, <[p.2 := true]> row) p.1 dc) i j
  = if bool_decide (p = (i, j)) then (λ _, true) <$> mlookup dc i j else mlookup dc i j.
Proof.
  destruct p as [a b]. unfold mlookup. cbn [fst snd].
  destruct (decide (a = i)) as [-> | Hne].
  - rewrite list_lookup_alter_eq. destruct (dc !! i) as [row |]; cbn [fmap option_fmap option_map mbind option_bind].
    + destruct (decide (b = j)) as [-> | Hne].
      * case_bool_decide; [| done].
        destruct (row !! j) eqn:E; cbn.
        -- apply list_lookup_insert_eq. by eapply lookup_lt_Some.
        -- apply lookup_ge_None. rewrite length_insert. by apply lookup_ge_None.
      * case_bool_decide; [congruence |].
        by apply list_lookup_insert_ne.
    + by case_bool_decide.
  - rewrite list_lookup_alter_ne by done.
    case_bool_decide; [congruence | done].
Qed.

Lemma mlookup_set_connected (dc : mat bool) idxs i j :
  mlookup (set_connected dc idxs) i j
  = if bool_decide ((i, j) ∈ idxs) then (λ _, true) <$> mlookup dc i j else mlookup dc i j.
Proof.
  revert dc. induction idxs as [| p idxs IH]; intros dc.
  - case_bool_decide as Hin; [| done]. by apply elem_of_nil in Hin.
  - rewrite set_connected_cons, IH, mlookup_connect_one.
    destruct (decide (p = (i, j))) as [-> | Hne].
    + rewrite (bool_decide_eq_true_2 ((i, j) = (i, j))) by done.
      rewrite (bool_decide_eq_true_2 ((i, j) ∈ (i, j) :: idxs)) by apply list_elem_of_here.
      case_bool_decide; [| done]. by destruct (mlookup dc i j).
    + rewrite (bool_decide_eq_false_2 (p = (i, j))) by done.
      case_bool_decide as Hin.
      * rewrite bool_decide_eq_true_2; [done |]. by apply list_elem_of_further.
      * rewrite bool_decide_eq_false_2; [done |].
        intros [? | ?]%elem_of_cons; congruence.
Qed.

Lemma square_set_connected n (dc : mat bool) idxs :
  square n dc → square n (set_connected dc idxs).
Proof.
  revert dc. induction idxs as [| p idxs IH]; intros dc H; [done |].
  rewrite set_connected_cons. apply IH. destruct H as [Hl Hr]. split.
  - by rewrite length_alter.
  - apply Forall_lookup. intros i row Hrow.
    destruct (decide (p.1 = i)) as [<- | Hne].
    + rewrite list_lookup_alter_eq in Hrow.
      destruct (dc !! p.1) as [row0 |] eqn:E; simpl in Hrow; [| discriminate].
      injection Hrow as <-. rewrite length_insert.
      exact (proj1 (Forall_lookup _ _) Hr _ _ E).
    + rewrite list_lookup_alter_ne in Hrow by done.
      exact (proj1 (Forall_lookup _ _) Hr _ _ Hrow).
Qed.

Lemma connect_loop_aligned scs :
  Forall (λ sc, where_finite (route_mat (extra_data sc)) ≠ []) scs →
  let groups := (λ sc, where_finite (route_mat (extra_data sc))) <$> scs in
  connect_loop scs (filter (λ c, c ≠ 0%nat) (length <$> groups)) (mjoin groups)
  = (connect <$> scs, None).
Proof.
  induction 1 as [| sc scs Hne Hall IH]; csimpl; [done |].
  rewrite filter_cons_True.
  2:{ destruct (where_finite (route_mat (extra_data sc))); simpl; [done | lia]. }
  csimpl in *. rewrite take_app_length, drop_app_length, IH. done.
Qed.

(** ** The refresh keeps the invariant *)

Section Refresh.
Context {lib : GraphAlgorithms} {lib_ok : GraphAlgorithmsSpec lib}.

Lemma derive_has_path sym a b sc :
  has_path (extra_data (derive sym a b sc))
  = mmap lt_inf (floyd_warshall (route_mat (extra_data sc))).2.
Proof. reflexivity. Qed.

Lemma derive_transit_times sym a b sc :
  transit_times (extra_data (derive sym a b sc))
  = derived_times (route_mat (extra_data sc)) (transfer_time_s (extra_data sc)).
Proof. reflexivity. Qed.

Lemma derive_n_transfers sym a b sc :
  n_transfers (extra_data (derive sym a b sc))
  = derived_transfers (route_mat (extra_data sc)).
Proof. reflexivity. Qed.

Lemma square_derived_transfers n rm : square n rm → square n (derived_transfers rm).
Proof.
  intros H. destruct (floyd_warshall_square n rm H) as [H1 H2].
  unfold derived_transfers. apply square_mzip_with.
  - apply square_mmap. by apply path_lens_square.
  - by apply square_mmap.
Qed.

Lemma square_derived_times n rm q : square n rm → square n (derived_times rm q).
Proof.
  intros H. destruct (floyd_warshall_square n rm H) as [H1 H2].
  unfold derived_times. apply square_mzip_with; [done |].
  by apply square_mmap, square_derived_transfers.
Qed.

Lemma derived_transfers_nonneg rm i j x :
  mlookup (derived_transfers rm) i j = Some x → 0 ≤ x.
Proof.
  unfold derived_transfers. rewrite mlookup_mzip_with, !mlookup_mmap.
  intros H. simplify_option_eq. case_match; lia.
Qed.

Lemma derived_path_iff rm q i j h t :
  mlookup (mmap lt_inf (floyd_warshall rm).2) i j = Some h →
  mlookup (derived_times rm q) i j = Some t →
  h = lt_inf t.
Proof.
  unfold derived_times. rewrite mlookup_mzip_with, !mlookup_mmap.
  intros H1 H2. simplify_option_eq. by rewrite lt_inf_add_fin.
Qed.

Lemma merged_lookup n rm new i j x :
  square n rm → square n new → mlookup rm i j = Some x →
  ∃ y, mlookup new i j = Some y ∧ mlookup (mzip_with ext_min rm new) i j = Some (ext_min x y).
Proof.
  intros Hrm Hnew Hx. destruct (mlookup_lt _ _ _ _ _ Hrm Hx) as [Hi Hj].
  destruct (square_lookup _ _ _ _ Hnew Hi Hj) as [y Hy].
  exists y. split; [done |]. by rewrite mlookup_mzip_with, Hx, Hy.
Qed.

Lemma refresh_scenario_ok n sym a b sc routes :
  scenario_ok n sc → scenario_ok n (refresh_scenario sym a b sc routes).
Proof.
  intros Hok.
  set (new := get_route_edge_matrix routes (drive_times (graph_data sc))
                (mean_stop_time (extra_data sc)) sym).
  set (rm := mzip_with ext_min (route_mat (extra_data sc)) new).
  set (dc := set_connected (directly_connected (extra_data sc)) (where_finite rm)).
  assert (square n new) as Hnew.
  { pose proof (edge_matrix_square routes (drive_times (graph_data sc))
                  (mean_stop_time (extra_data sc)) sym) as H.
    by rewrite (ok_drive _ _ Hok) in H. }
  assert (square n rm) as Hrm.
  { apply square_mzip_with; [apply Hok | done]. }
  assert (square n dc) as Hdc.
  { apply square_set_connected, Hok. }
  destruct (floyd_warshall_square n rm Hrm) as [Hnx Hfw].
  assert (∀ i j, mlookup dc i j = Some true ↔ ∃ q, mlookup rm i j = Some (Fin q)) as Hiff.
  { intros i j. unfold dc. rewrite mlookup_set_connected.
    case_bool_decide as Hin.
    - apply elem_of_where_finite in Hin as [q Hq]. split; [by eauto |]. intros _.
      destruct (mlookup_lt _ _ _ _ _ Hrm Hq) as [Hi Hj].
      destruct (square_lookup _ _ _ _ (ok_connected _ _ Hok) Hi Hj) as [x ->]. done.
    - split.
      + intros Hc. apply (ok_connected_iff _ _ Hok) in Hc as [q Hq].
        destruct (merged_lookup _ _ _ _ _ _ (ok_route_mat _ _ Hok) Hnew Hq) as (y & _ & Hm).
        destruct (ext_le_fin _ _ (ext_min_le_l (Fin q) y)) as (p & Hp & _).
        exists p. fold rm in Hm. by rewrite Hm, Hp.
      + intros [q Hq]. exfalso. apply Hin, elem_of_where_finite. eauto. }
  unfold refresh_scenario. constructor.
  - exact (ok_drive _ _ Hok).
  - exact (ok_demand _ _ Hok).
  - exact Hrm.
  - exact Hdc.
  - rewrite derive_has_path. by apply square_mmap.
  - rewrite derive_transit_times. by apply square_derived_times.
  - rewrite derive_n_transfers. by apply square_derived_transfers.
  - intros i Hi. destruct (ok_diagonal _ _ Hok i Hi) as (q & Hq & Hle).
    destruct (merged_lookup _ _ _ _ _ _ (ok_route_mat _ _ Hok) Hnew Hq) as (y & _ & Hm).
    destruct (ext_le_fin _ _ (ext_min_le_l (Fin q) y)) as (p & Hp & Hpq).
    exists p. split; [| by eapply Qle_trans].
    change (mlookup rm i i = Some (Fin p)). fold rm in Hm. by rewrite Hm, Hp.
  - exact Hiff.
  - intros i j h t. rewrite derive_has_path, derive_transit_times.
    apply derived_path_iff.
  - intros i j Hc. apply Hiff in Hc as [q Hq].
    rewrite derive_has_path, mlookup_mmap.
    destruct (floyd_warshall_le n rm i j _ Hrm Hq) as (y & Hy & Hle).
    change (route_mat (extra_data (connect (merge_routes sym sc routes)))) with rm.
    rewrite Hy. simpl. destruct (ext_le_fin _ _ Hle) as (p & -> & _). done.
  - intros i j x. rewrite derive_n_transfers. apply derived_transfers_nonneg.
Qed.

End Refresh.

(** ** The methods keep the invariant *)

Lemma scenario_ok_same_network n sc' sc :
  same_network sc' sc → scenario_ok n sc → scenario_ok n sc'.
Proof.
  intros H Hok.
  apply same_network_fields in H
    as (Eg & _ & _ & Edc & Erm & Ett & Ehp & Ent & _).
  constructor; rewrite ?Eg, ?Edc, ?Erm, ?Ett, ?Ehp, ?Ent; apply Hok.
Qed.

Section Invariant.
Context {lib : GraphAlgorithms} {lib_ok : GraphAlgorithmsSpec lib}.

Lemma max_n_nodes_same st' st :
  Forall2 same_nodes (scenarios st') (scenarios st) → max_n_nodes st' = max_n_nodes st.
Proof.
  unfold max_n_nodes. generalize (scenarios st') (scenarios st).
  induction 1 as [| sc' sc l' l H _ IH]; csimpl; [done |].
  unfold same_nodes in H. by rewrite H, IH.
Qed.

Lemma same_network_same_nodes l' l :
  Forall2 same_network l' l → Forall2 same_nodes l' l.
Proof.
  intros H. eapply Forall2_impl; [exact H |]. intros sc' sc Hs.
  apply same_network_fields in Hs. unfold same_nodes. tauto.
Qed.

Lemma state_ok_same_network st' st :
  Forall2 same_network (scenarios st') (scenarios st) → state_ok st → state_ok st'.
Proof.
  intros H [Hpos Hall]. unfold state_ok.
  rewrite (max_n_nodes_same st' st) by by apply same_network_same_nodes.
  split; [done |].
  apply Forall_lookup. intros b sc' Hb.
  destruct (Forall2_lookup_l _ _ _ _ _ H Hb) as (sc & Hsc & Hs).
  eapply scenario_ok_same_network; [exact Hs |].
  exact (proj1 (Forall_lookup _ _) Hall _ _ Hsc).
Qed.

Lemma merged_has_finite_entry n sym sc routes :
  (0 < n)%nat → scenario_ok n sc →
  where_finite (route_mat (extra_data (merge_routes sym sc routes))) ≠ [].
Proof.
  intros Hpos Hok.
  pose proof (refresh_scenario_ok n sym false false sc routes Hok) as Hok'.
  destruct (ok_diagonal _ _ Hok' 0%nat Hpos) as (q & Hq & _).
  assert ((0%nat, 0%nat) ∈ where_finite (route_mat (extra_data (merge_routes sym sc routes))))
    as Hin by (apply elem_of_where_finite; eauto).
  intros E. rewrite E in Hin. by apply elem_of_nil in Hin.
Qed.

Lemma fmap_zip_with_refresh sym a b (l : list Scenario) (routes : list (mat Z)) :
  derive sym a b <$> (connect <$> zip_with (merge_routes sym) l routes)
  = zip_with (refresh_scenario sym a b) l routes.
Proof.
  revert routes. induction l as [| sc l IH]; intros [| r routes]; csimpl; try done.
  by rewrite IH.
Qed.

(** On a state that satisfies the invariant the refresh returns, and
    refreshes every scenario with its own routes. *)
Lemma update_on_routes_returns st routes a b :
  state_ok st → length routes = batch_size st →
  _update_on_routes st routes a b
  = Ok (set_scenarios st
          (zip_with (refresh_scenario (symmetric_routes st) a b) (scenarios st) routes)).
Proof.
  intros [Hpos Hall] Hlen. unfold _update_on_routes.
  rewrite bool_decide_eq_true_2 by done. simpl.
  rewrite connect_loop_aligned.
  - by rewrite fmap_zip_with_refresh.
  - apply Forall_lookup. intros i sc1 Hi.
    apply lookup_zip_with_Some in Hi as (sc & r & -> & Hsc & _).
    eapply merged_has_finite_entry; [exact Hpos |].
    exact (proj1 (Forall_lookup _ _) Hall _ _ Hsc).
Qed.

Lemma refreshed_same_nodes sym a b l routes :
  length routes = length l →
  Forall2 same_nodes (zip_with (refresh_scenario sym a b) l routes) l.
Proof. intros H. apply Forall2_zip_with_l; [done |]. intros. reflexivity. Qed.

Lemma update_on_routes_ok st routes a b :
  state_ok st → state_ok (final_state (_update_on_routes st routes a b)).
Proof.
  intros Hok.
  destruct (decide (length routes = batch_size st)) as [Hlen | Hlen].
  - rewrite update_on_routes_returns by done. simpl.
    destruct Hok as [Hpos Hall]. unfold state_ok.
    rewrite (max_n_nodes_same _ st) by by apply refreshed_same_nodes.
    split; [done |]. simpl.
    apply Forall_lookup. intros i sc' Hi.
    apply lookup_zip_with_Some in Hi as (sc & r & -> & Hsc & _).
    apply refresh_scenario_ok.
    exact (proj1 (Forall_lookup _ _) Hall _ _ Hsc).
  - unfold _update_on_routes. by rewrite bool_decide_eq_false_2.
Qed.

Lemma shortest_path_action_ok st pis :
  state_ok st → state_ok (final_state (shortest_path_action st pis)).
Proof.
  intros Hok.
  destruct (shortest_path_action_cases st pis)
    as [(e & st1 & -> & H & _) | (st2 & routes & -> & H & _)]; simpl.
  - by eapply state_ok_same_network.
  - apply update_on_routes_ok. by eapply state_ok_same_network.
Qed.

Lemma add_new_routes_ok st new a b :
  state_ok st → state_ok (final_state (add_new_routes st new a b)).
Proof.
  intros Hok.
  destruct (add_new_routes_cases st new a b)
    as [(e & st1 & -> & H) | (st2 & -> & H & _)]; simpl.
  - by eapply state_ok_same_network.
  - apply update_on_routes_ok. by eapply state_ok_same_network.
Qed.

End Invariant.

(** ** The empty network *)

Lemma eye_lookup n i j :
  (i < n)%nat → (j < n)%nat → mlookup (eye n) i j = Some (bool_decide (i = j)).
Proof. intros Hi Hj. unfold eye. by rewrite mlookup_mbuild. Qed.

Lemma square_eye n : square n (eye n).
Proof. apply square_mbuild. Qed.

Lemma initial_times_lookup n i j :
  (i < n)%nat → (j < n)%nat →
  mlookup (initial_times n) i j = Some (if bool_decide (i = j) then Fin 0 else Inf).
Proof.
  intros Hi Hj. unfold initial_times. rewrite !mlookup_mmap, eye_lookup by done.
  by case_bool_decide.
Qed.

Lemma square_initial_times n : square n (initial_times n).
Proof. unfold initial_times. apply square_mmap, square_mmap, square_eye. Qed.

Lemma square_zeros_long n : square n (zeros_long n).
Proof. apply square_mbuild. Qed.

(** A scenario without routes satisfies the invariant. *)
Lemma empty_network_ok n sc :
  length (drive_times (graph_data sc)) = n →
  square n (demand (graph_data sc)) →
  route_mat (extra_data sc) = initial_times n →
  transit_times (extra_data sc) = initial_times n →
  directly_connected (extra_data sc) = eye n →
  has_path (extra_data sc) = eye n →
  square n (n_transfers (extra_data sc)) →
  (∀ i j x, mlookup (n_transfers (extra_data sc)) i j = Some x → x = 0) →
  scenario_ok n sc.
Proof.
  intros Hdrive Hdemand Erm Ett Edc Ehp Hnt Hzero.
  constructor; rewrite ?Erm, ?Ett, ?Edc, ?Ehp; try done;
    auto using square_initial_times, square_eye.
  - intros i Hi. exists 0%Q. rewrite initial_times_lookup by done.
    rewrite bool_decide_eq_true_2 by done. done.
  - intros i j. split.
    + intros H. destruct (mlookup_lt _ _ _ _ _ (square_eye n) H) as [Hi Hj].
      rewrite eye_lookup in H by done. injection H as H.
      rewrite initial_times_lookup, H by done. eauto.
    + intros [q H].
      destruct (mlookup_lt _ _ _ _ _ (square_initial_times n) H) as [Hi Hj].
      rewrite initial_times_lookup in H by done. rewrite eye_lookup by done.
      by case_bool_decide.
  - intros i j h t Hh Ht.
    destruct (mlookup_lt _ _ _ _ _ (square_eye n) Hh) as [Hi Hj].
    rewrite eye_lookup in Hh by done. rewrite initial_times_lookup in Ht by done.
    simplify_eq. by case_bool_decide.
  - intros i j x H. apply Hzero in H. lia.
Qed.

Section Clearing.
Context {lib : GraphAlgorithms}.

Lemma clear_scenario_ok n sc : scenario_ok n sc → scenario_ok n (clear_scenario n sc).
Proof.
  intros Hok. apply empty_network_ok; try done; try apply Hok.
  - simpl. apply square_mmap, Hok.
  - intros i j x. simpl. rewrite mlookup_mmap. intros H. by simplify_option_eq.
Qed.

Lemma clear_routes_helper_ok st batch_index :
  state_ok st → state_ok (_clear_routes_helper st batch_index).
Proof.
  intros [Hpos Hall]. unfold state_ok.
  assert (max_n_nodes (_clear_routes_helper st batch_index) = max_n_nodes st) as ->.
  { unfold max_n_nodes, _clear_routes_helper. simpl. f_equal.
    apply list_eq. intros i. rewrite !list_lookup_fmap, list_lookup_imap.
    destruct (scenarios st !! i); simpl; [| done]. by case_bool_decide. }
  split; [done |]. unfold _clear_routes_helper. simpl.
  apply Forall_lookup. intros i sc' Hi. rewrite list_lookup_imap in Hi.
  destruct (scenarios st !! i) as [sc |] eqn:Hsc; simpl in Hi; [| done].
  pose proof (proj1 (Forall_lookup _ _) Hall _ _ Hsc) as Hok.
  injection Hi as <-. case_bool_decide; [by apply clear_scenario_ok | done].
Qed.

Lemma reset_dones_ok st : state_ok st → state_ok (reset_dones st).
Proof.
  intros Hok. unfold reset_dones. case_bool_decide; [| done].
  by apply clear_routes_helper_ok.
Qed.

(** The record that the constructor builds for one scenario. *)
Lemma init_extra_data_fields n cost vts nrs ws fixed ii dd ed :
  init_extra_data n cost vts nrs ws fixed ii dd = inr ed →
  route_mat ed = initial_times n
  ∧ transit_times ed = initial_times n
  ∧ directly_connected ed = eye n
  ∧ has_path ed = eye n
  ∧ n_transfers ed = zeros_long n
  ∧ route_nexts ed = zeros_long n
  ∧ current_routes ed = no_route n
  ∧ total_route_time ed = Fin 0
  ∧ current_route_time ed = Fin 0
  ∧ valid_terms_mat ed = base_valid_terms_mat ed
  ∧ n_nodes_in_scenario ed = num_nodes dd.
Proof.
  unfold init_extra_data.
  cbv [mbind result_bind mret result_ret raise index_or_raise].
  intros H. repeat case_match; simplify_eq; done.
Qed.

Lemma init_scenarios n cost vts nrs ws fixed graphs k eds :
  mapM (M := result)
    (λ p : nat * GraphData, init_extra_data n cost vts nrs ws fixed p.1 p.2)
    (imap (λ i, pair (k + i)%nat) graphs) = inr eds →
  Forall2 (λ dd ed, ∃ ii, init_extra_data n cost vts nrs ws fixed ii dd = inr ed) graphs eds.
Proof.
  intros H. apply mapM_result_Forall2 in H.
  revert k eds H. induction graphs as [| dd graphs IH]; intros k eds H; simpl in H.
  - inversion H. constructor.
  - inversion H as [| p ed l l' Hp Hl]; subst. constructor; [by eauto |].
    apply (IH (S k)). erewrite imap_ext; [exact Hl |].
    intros i x _. simpl. f_equal. lia.
Qed.

Lemma init_max_n_nodes n cost vts nrs ws fixed graphs eds :
  Forall2 (λ dd ed, ∃ ii, init_extra_data n cost vts nrs ws fixed ii dd = inr ed) graphs eds →
  foldr Nat.max 0%nat
    ((λ sc, n_nodes_in_scenario (extra_data sc))
       <$> zip_with (λ dd ed, {| graph_data := dd; finished_routes := []; extra_data := ed |})
                    graphs eds)
  = foldr Nat.max 0%nat (num_nodes <$> graphs).
Proof.
  induction 1 as [| dd ed l l' (ii & Hd) _ IH]; csimpl; [done |].
  apply init_extra_data_fields in Hd. rewrite IH.
  by replace (n_nodes_in_scenario ed) with (num_nodes dd) by (symmetry; tauto).
Qed.

Lemma init_state_ok graphs cost n_routes vts ws fixed st :
  padded_batch graphs →
  __init__ graphs cost n_routes vts ws fixed = inr st →
  state_ok st.
Proof.
  intros [Hpos Hpad] H. unfold __init__ in H.
  set (n := foldr Nat.max 0%nat (num_nodes <$> graphs)) in *.
  destruct (mapM _ _) as [e | eds] eqn:Heds; simpl in H; [discriminate |].
  injection H as <-.
  apply (init_scenarios _ _ _ _ _ _ _ 0%nat) in Heds.
  assert (max_n_nodes
            {| symmetric_routes := CostModule.symmetric_routes (cost_base cost);
               scenarios :=
                 zip_with
                   (λ dd ed, {| graph_data := dd; finished_routes := []; extra_data := ed |})
                   graphs eds |} = n) as Hmax.
  { unfold max_n_nodes. simpl. by erewrite init_max_n_nodes. }
  split; rewrite Hmax; [done |]. simpl.
  apply Forall_lookup. intros i sc Hi.
  apply lookup_zip_with_Some in Hi as (dd & ed & -> & Hdd & Hed).
  destruct (Forall2_lookup_lr _ _ _ _ _ _ Heds Hdd Hed) as (ii & Hinit).
  apply init_extra_data_fields in Hinit
    as (Erm & Ett & Edc & Ehp & Ent & _).
  destruct (proj1 (Forall_lookup _ _) Hpad _ _ Hdd) as [Hdrive Hdemand].
  apply empty_network_ok; simpl; try done.
  - rewrite Ent. apply square_zeros_long.
  - rewrite Ent. intros a b x Hx.
    destruct (mlookup_lt _ _ _ _ _ (square_zeros_long n) Hx) as [Ha Hb].
    unfold zeros_long in Hx. rewrite mlookup_mbuild in Hx by done. by injection Hx.
Qed.

End Clearing.

Section Reachable.
Context {lib : GraphAlgorithms} {lib_ok : GraphAlgorithmsSpec lib}.

Lemma reachable_ok st : reachable st → state_ok st.
Proof.
  induction 1.
  - by eapply init_state_ok.
  - by apply shortest_path_action_ok.
  - by apply add_new_routes_ok.
  - unfold replace_routes. by apply add_new_routes_ok, clear_routes_helper_ok.
  - by apply clear_routes_helper_ok.
  - by apply reset_dones_ok.
Qed.

End Reachable.

(** ** The reference library meets the interface's specification *)

Lemma count_stops_0 (route : list Z) :
  count_stops route = 0%nat → Forall (λ x, x <= -1) route ∧ valid_stops route = [].
Proof.
  unfold count_stops, valid_stops. induction route as [| x route IH]; [done |].
  rewrite filter_cons. case_decide; simpl; [discriminate |].
  intros Hlen. destruct (IH Hlen) as [? ?]. split; [constructor; [lia | done] | done].
Qed.

Lemma ref_relax_square n k s :
  square n (Reference.relax n k s).1 ∧ square n (Reference.relax n k s).2.
Proof. split; apply square_mbuild. Qed.

Lemma ref_floyd_warshall_square n (m : mat ext) :
  square n m →
  square n (Reference.floyd_warshall m).1 ∧ square n (Reference.floyd_warshall m).2.
Proof.
  intros [<- _]. unfold Reference.floyd_warshall.
  generalize (seq 0 (length m)). intros ks.
  set (s0 := (mbuild (length m) _, mbuild (length m) _)).
  assert (square (length m) s0.1 ∧ square (length m) s0.2) as H0
    by (split; apply square_mbuild).
  revert H0. generalize s0. clear s0.
  induction ks as [| k ks IH]; intros s Hs; simpl; [done |].
  apply IH, ref_relax_square.
Qed.

Lemma ref_relax_le n k (s : mat Z * mat ext) i j y :
  (i < n)%nat → (j < n)%nat → mlookup s.2 i j = Some y →
  ∃ y', mlookup (Reference.relax n k s).2 i j = Some y' ∧ ext_le y' y.
Proof.
  intros Hi Hj Hy. unfold Reference.relax. simpl.
  rewrite mlookup_mbuild by done. rewrite Hy. simpl.
  eexists. split; [reflexivity |].
  destruct (ext_leb y _) eqn:E; simpl.
  - apply ext_le_refl.
  - by apply ext_leb_total.
Qed.

Lemma ref_floyd_warshall_le n (m : mat ext) i j x :
  square n m → mlookup m i j = Some x →
  ∃ y, mlookup (Reference.floyd_warshall m).2 i j = Some y ∧ ext_le y x.
Proof.
  intros Hsq Hx. destruct (mlookup_lt _ _ _ _ _ Hsq Hx) as [Hi Hj].
  destruct Hsq as [<- _]. unfold Reference.floyd_warshall.
  generalize (seq 0 (length m)). intros ks.
  set (s0 := (mbuild (length m) _, mbuild (length m) _)).
  assert (∃ y, mlookup s0.2 i j = Some y ∧ ext_le y x) as H0.
  { exists x. unfold s0. simpl. rewrite mlookup_mbuild, Hx by done.
    split; [done | apply ext_le_refl]. }
  revert H0. generalize s0. clear s0.
  induction ks as [| k ks IH]; intros s Hs; simpl; [done |].
  apply IH. destruct Hs as (y & Hy & Hle).
  destruct (ref_relax_le (length m) k s i j y Hi Hj Hy) as (y' & Hy' & Hle').
  exists y'. split; [done | by eapply ext_le_trans].
Qed.

Lemma ref_edge_matrix_no_stops routes drive mst sym i j x :
  Forall (λ r, count_stops r = 0%nat) routes →
  mlookup (Reference.get_route_edge_matrix routes drive mst sym) i j = Some x →
  x = Inf.
Proof.
  intros Hall. unfold Reference.get_route_edge_matrix.
  assert (mjoin ((λ route : list Z,
                    Reference.rides drive mst (valid_stops route)
                    ++ (if sym then Reference.rides drive mst (reverse (valid_stops route))
                        else [])) <$> routes) = []) as ->.
  { induction Hall as [| r routes Hr _ IH]; csimpl; [done |].
    rewrite IH. destruct (count_stops_0 r Hr) as [_ ->]. simpl. by destruct sym. }
  intros H.
  destruct (mlookup_lt _ _ _ _ _ (square_mbuild _ _) H) as [Hi Hj].
  rewrite mlookup_mbuild in H by done. by injection H.
Qed.

Lemma ref_leg_times_no_stops routes drive mst :
  Forall (λ r, count_stops r = 0%nat) routes →
  Forall (Forall (λ t, t = Fin 0)) (Reference.get_route_leg_times routes drive mst).
Proof.
  intros Hall. unfold Reference.get_route_leg_times. apply Forall_fmap.
  eapply Forall_impl; [exact Hall |]. intros r Hr. simpl.
  destruct (count_stops_0 r Hr) as [Hneg _].
  apply Forall_lookup. intros k t Hk.
  apply lookup_zip_with_Some in Hk as (a & b & -> & Ha & _).
  pose proof (proj1 (Forall_lookup _ _) Hneg _ _ Ha) as Hle. simpl in Hle.
  unfold Reference.leg_time. by rewrite (proj2 (Z.ltb_lt a 0)) by lia.
Qed.

Lemma reference_ok : GraphAlgorithmsSpec Reference.lib.
Proof.
  constructor; simpl.
  - apply ref_floyd_warshall_square.
  - apply ref_floyd_warshall_le.
  - intros n nx [<- _]. apply square_mbuild.
  - intros. apply square_mbuild.
  - intros routes drive mst sym i j x Hall H.
    rewrite (ref_edge_matrix_no_stops _ _ _ _ _ _ _ Hall H). by case_bool_decide.
  - apply ref_leg_times_no_stops.
  - intros width from. unfold Reference.get_variable_slice_mask.
    apply Forall_fmap, Forall_forall. intros i _. simpl.
    apply bool_decide_eq_false_2. lia.
Qed.

(** ** Reachability consistency *)

Lemma scenario_ok_consistent n sc : scenario_ok n sc → consistent_reachability n sc.
Proof.
  intros Hok i j Hi Hj.
  destruct (square_lookup _ _ _ _ (ok_has_path _ _ Hok) Hi Hj) as [h Hh].
  destruct (square_lookup _ _ _ _ (ok_transit _ _ Hok) Hi Hj) as [t Ht].
  exists h, t. repeat split; try done.
  - by eapply ok_path_iff.
  - intros Hc. apply (ok_connected_path _ _ Hok) in Hc. congruence.
Qed.


(** ** The four demand buckets *)

Lemma buckets_partition n : 0 ≤ n → length (filter (λ b, b = true) (buckets n)) = 1%nat.
Proof.
  intros Hn. unfold buckets.
  destruct (n =? 0) eqn:E0; destruct (n =? 1) eqn:E1; destruct (n =? 2) eqn:E2;
    destruct (2 <? n) eqn:E3; try reflexivity; exfalso; lia.
Qed.

Lemma bucket_rows_sum (ds : list Q) (ns : list Z) :
  length ds = length ns → Forall (λ n, 0 ≤ n) ns →
  (bucket_row (λ n, n =? 0) ds ns + bucket_row (λ n, n =? 1) ds ns
   + bucket_row (λ n, n =? 2) ds ns + bucket_row (λ n, 2 <? n) ds ns == Qsum ds)%Q.
Proof.
  revert ns. induction ds as [| d ds IH]; intros [| n ns] Hlen Hall;
    try discriminate; unfold bucket_row in *; simpl.
  - reflexivity.
  - inversion Hall as [| ? ? Hn Hns]; subst.
    specialize (IH ns ltac:(simpl in Hlen; lia) Hns).
    destruct (n =? 0) eqn:E0; destruct (n =? 1) eqn:E1; destruct (n =? 2) eqn:E2;
      destruct (2 <? n) eqn:E3; try (exfalso; lia); lra.
Qed.

Lemma bucket_mats_sum (dm : mat Q) (nm : mat Z) :
  Forall2 (λ (r : list Q) (r' : list Z), length r = length r') dm nm →
  Forall (Forall (λ n, 0 ≤ n)) nm →
  (bucket_mat (λ n, n =? 0) dm nm + bucket_mat (λ n, n =? 1) dm nm
   + bucket_mat (λ n, n =? 2) dm nm + bucket_mat (λ n, 2 <? n) dm nm == Qmsum dm)%Q.
Proof.
  unfold bucket_mat, Qmsum, mzip_with.
  induction 1 as [| r r' dm nm Hr _ IH]; intros Hall; csimpl.
  - reflexivity.
  - inversion Hall as [| ? ? Hn Hns]; subst. specialize (IH Hns).
    pose proof (bucket_rows_sum r r' Hr Hn) as Hrow. unfold bucket_row in Hrow.
    lra.
Qed.

Lemma Forall_mlookup {A} (P : A → Prop) (m : mat A) :
  (∀ i j x, mlookup m i j = Some x → P x) → Forall (Forall P) m.
Proof.
  intros H. apply Forall_lookup. intros i row Hrow.
  apply Forall_lookup. intros j x Hx. apply (H i j). unfold mlookup. by rewrite Hrow.
Qed.

Lemma square_same_rows {A B} n (a : mat A) (b : mat B) :
  square n a → square n b →
  Forall2 (λ (r : list A) (r' : list B), length r = length r') a b.
Proof.
  intros [Hla Hra] [Hlb Hrb]. apply Forall2_same_length_lookup. split; [congruence |].
  intros i r r' Hr Hr'.
  pose proof (proj1 (Forall_lookup _ _) Hra _ _ Hr) as Ea.
  pose proof (proj1 (Forall_lookup _ _) Hrb _ _ Hr') as Eb. simpl in *. congruence.
Qed.

Section Buckets.
Context {lib : GraphAlgorithms}.

Lemma transfers_or_3_nonneg n sc i j x :
  scenario_ok n sc → mlookup (transfers_or_3 sc) i j = Some x → 0 ≤ x.
Proof.
  intros Hok. unfold transfers_or_3. rewrite mlookup_mzip_with. intros H.
  destruct (mlookup (n_transfers (extra_data sc)) i j) as [k |] eqn:Hk; simpl in H;
    [| discriminate].
  destruct (mlookup (has_path (extra_data sc)) i j) as [h |]; simpl in H; [| discriminate].
  injection H as <-. destruct h; [| lia]. by eapply ok_transfers_nonneg.
Qed.

Lemma buckets_sum_ok n sc :
  scenario_ok n sc → (Qsum (trips_at_transfers sc) == total_demand sc)%Q.
Proof.
  intros Hok.
  pose proof (bucket_mats_sum (demand (graph_data sc)) (transfers_or_3 sc)) as H.
  unfold bucket_mat in H. unfold trips_at_transfers, demand_where, total_demand. simpl.
  rewrite <- H.
  - ring.
  - eapply square_same_rows; [apply Hok |].
    unfold transfers_or_3. apply square_mzip_with; apply Hok.
  - apply Forall_mlookup. intros i j x. by eapply transfers_or_3_nonneg.
Qed.

End Buckets.


Lemma example_padded trips : square 3 trips → padded_batch [Example.graph trips].
Proof.
  intros H. split; [simpl; lia |]. constructor; [| constructor]. split; [done | exact H].
Qed.

Lemma example_fresh_reachable trips n_routes valid_terms :
  square 3 trips →
  reachable (lib := Reference.lib) (Example.fresh trips n_routes valid_terms).
Proof.
  intros H.
  apply (reach_init [Example.graph trips] (My Example.my_module) [n_routes]
                    ((λ v, [v]) <$> valid_terms) None None);
    [by apply example_padded |].
  unfold Example.fresh. by destruct valid_terms.
Qed.

Lemma example_square_one_trip : square 3 Example.one_trip.
Proof. split; [reflexivity | repeat constructor]. Qed.

Lemma example_planned_reachable : reachable (lib := Reference.lib) Example.planned.
Proof.
  unfold Example.planned, Example.planning.
  apply reach_action, reach_action, example_fresh_reachable, example_square_one_trip.
Qed.



(** ** The duplicate-route check *)

Lemma same_route_identical (r : list Z) : forallb id (zip_with Z.eqb r r) = true.
Proof. induction r as [| x r IH]; simpl; [done |]. by rewrite Z.eqb_refl. Qed.

(** Every route is identical to itself, so the check answers true for
    every scenario that has a route. *)
Lemma duplicate_check_of_any_route (r : list Z) (routes : mat Z) (batch : list (mat Z)) :
  check_for_duplicate_routes ((r :: routes) :: batch)
  = true :: check_for_duplicate_routes batch.
Proof.
  unfold check_for_duplicate_routes. csimpl. by rewrite same_route_identical.
Qed.

(** C9 (duplicate-route detection): the claim says that a scenario is
    flagged exactly when two of its routes are identical, so that one
    with the distinct routes [0,1,2] and [2,1,0] is not.  The check
    compares every route with every route, itself included: it flags
    every scenario that has a route at all, that scenario as well as
    the one with [0,1,2] twice. *)
Theorem duplicate_check_flags_distinct_routes (routes_tensor : list (mat Z)) :
  check_for_duplicate_routes routes_tensor
  = (λ routes : mat Z, bool_decide (routes ≠ [])) <$> routes_tensor
  ∧ check_for_duplicate_routes [[[0; 1; 2]; [2; 1; 0]]; [[0; 1; 2]; [0; 1; 2]]]
    = [true; true].
Proof.
  split; [| reflexivity].
  induction routes_tensor as [| routes batch IH]; [done |].
  destruct routes as [| r routes].
  - change (check_for_duplicate_routes ([] :: batch))
      with (false :: check_for_duplicate_routes batch).
    by rewrite IH.
  - rewrite duplicate_check_of_any_route, IH. done.
Qed.

(** ** Clearing *)

Lemma fmap_const_replicate {A B} (x : B) (l : list A) :
  (λ _, x) <$> l = replicate (length l) x.
Proof. induction l; csimpl; [done | by f_equal]. Qed.

Lemma mmap_const_mbuild {A B} n (x : B) (m : mat A) :
  square n m → mmap (λ _, x) m = mbuild n (λ _ _, x).
Proof.
  intros H. apply (square_eq n); [by apply square_mmap | apply square_mbuild |].
  intros i j Hi Hj. rewrite mlookup_mmap, mlookup_mbuild by done.
  by destruct (square_lookup _ _ _ _ H Hi Hj) as [y ->].
Qed.

(** C6 (reset correctness): after [clear_routes], in every scenario the
    route matrix is the initial one (0 on the diagonal, [inf]
    elsewhere), the total route time is 0, the valid-terminal mask is
    the base mask, there are no finished routes, and the route-derived
    fields have their no-route values, which are the values that the
    constructor gives them. *)
Theorem clear_routes_resets {lib : GraphAlgorithms} (st : RouteGenBatchState) :
  let n := max_n_nodes st in
  Forall2 (λ sc' sc, cleared n sc' sc ∧ as_constructed n sc')
          (scenarios (clear_routes st)) (scenarios st)
  ∧ symmetric_routes (clear_routes st) = symmetric_routes st
  ∧ (∀ i j, (i < n)%nat → (j < n)%nat →
       mlookup (initial_times n) i j = Some (if bool_decide (i = j) then Fin 0 else Inf)).
Proof.
  intros n. split; [| split; [done | apply initial_times_lookup]].
  unfold clear_routes, _clear_routes_helper. simpl.
  apply Forall2_same_length_lookup. split; [by rewrite length_imap |].
  intros i sc' sc Hsc' Hsc. rewrite list_lookup_imap, Hsc in Hsc'. simpl in Hsc'.
  rewrite bool_decide_eq_true_2 in Hsc'.
  2:{ apply elem_of_seq. apply lookup_lt_Some in Hsc. unfold batch_size. lia. }
  injection Hsc' as <-. fold n. split.
  - unfold cleared. simpl. repeat split; try done.
    + apply fmap_const_replicate.
    + intros H. by apply mmap_const_mbuild.
    + intros H. by apply mmap_const_mbuild.
  - intros cost vts nrs ws fixed ii dd ed Hed.
    apply init_extra_data_fields in Hed
      as (-> & -> & -> & -> & _ & _ & _ & -> & _). simpl. done.
Qed.

(** ** Validity of an extension *)

Lemma set_shortest_path_sequences_eta sc :
  set_extra (set_shortest_path_sequences (shortest_path_sequences (extra_data sc))) sc = sc.
Proof.
  destruct sc as [g f ed]. unfold set_extra, set_shortest_path_sequences. simpl.
  by rewrite with_mutable_eta.
Qed.

Lemma mapM_result_error {A B} (f : A → result B) (l : list A) e :
  mapM (M := result) f l = inl e → ∃ x, x ∈ l ∧ f x = inl e.
Proof.
  induction l as [| x l IH]; intros H; simpl in H; [discriminate |].
  destruct (f x) as [e' | y] eqn:Hx; simpl in H.
  - injection H as <-. exists x. split; [apply list_elem_of_here | done].
  - destruct (mapM f l) as [e' | k]; simpl in H; [| discriminate].
    injection H as <-. destruct (IH eq_refl) as (x' & Hin & Hx').
    exists x'. split; [by apply list_elem_of_further | done].
Qed.

Lemma forallb_lookup {A} (f : A → bool) (l : list A) i x :
  forallb f l = true → l !! i = Some x → f x = true.
Proof.
  revert i. induction l as [| y l IH]; intros i H Hi; [done |].
  simpl in H. apply andb_true_iff in H as [Hy Hl].
  destruct i as [| i]; simpl in Hi; [by simplify_eq | by eapply IH].
Qed.

Section Validity.
Context {lib : GraphAlgorithms}.

Lemma memo_frame st :
  Forall2 same_but_memo (scenarios (get_shortest_path_sequences st).1) (scenarios st).
Proof.
  unfold get_shortest_path_sequences. case_bool_decide; simpl.
  - apply Forall2_fmap_diag. intros sc. by eexists.
  - apply Forall_Forall2_diag, Forall_forall. intros sc _.
    exists (shortest_path_sequences (extra_data sc)).
    by rewrite set_shortest_path_sequences_eta.
Qed.

Lemma gather_error sc seqs pidx e : gather sc seqs pidx = inl e → e = IndexError.
Proof.
  unfold gather. cbv [mbind result_bind mret result_ret raise index_or_raise].
  intros H. repeat case_match; by simplify_eq.
Qed.

Lemma gather_valid_action sc seqs u v g :
  gather sc seqs (u, v) = inr g → u ≠ -1 →
  valid_action g = true ↔ some_case (current_routes (extra_data sc)) u v.
Proof.
  unfold gather. cbv [mbind result_bind mret result_ret raise index_or_raise]. simpl.
  intros H Hu. repeat case_match; simplify_eq.
  unfold some_case, no_current_route, ends_at_start, starts_at_end.
  unfold valid_action, starting, ends_at_cur_start, starts_at_cur_end, routes_are_done.
  simpl. rewrite (proj2 (Z.eqb_neq u (-1))) by done.
  rewrite orb_false_r, andb_true_r, !orb_true_iff, !Z.eqb_eq.
  match goal with H1 : tindex _ 0 = Some _, H2 : tindex _ _ = Some _ |- _ =>
    rewrite H1, H2 end.
  split.
  - intros [[-> | ->] | ->]; auto.
  - intros [[= ->] | [[= ->] | [= ->]]]; auto.
Qed.

Lemma updated_routes_error_state st pis e st1 :
  shortest_path_action st pis = Raise e st1 →
  updated_routes (get_shortest_path_sequences st).1 (get_shortest_path_sequences st).2 pis
    = inl e →
  st1 = (get_shortest_path_sequences st).1.
Proof. unfold shortest_path_action. intros H Hu. rewrite Hu in H. congruence. Qed.

(** The gathered row of scenario [b]. *)
Lemma gathered_row st seqs pis gs b sc u v :
  length seqs = batch_size st →
  mapM (M := result)
    (λ p : Scenario * (list (mat Z) * (Z * Z)), gather p.1 p.2.1 p.2.2)
    (zip (scenarios st) (zip seqs pis)) = inr gs →
  scenarios st !! b = Some sc → pis !! b = Some (u, v) →
  ∃ sq g, gather sc sq (u, v) = inr g ∧ gs !! b = Some g.
Proof.
  intros Hlen Hgs Hsc Hp.
  destruct (lookup_lt_is_Some_2 seqs b) as [sq Hsq].
  { rewrite Hlen. by eapply lookup_lt_Some. }
  apply mapM_result_Forall2 in Hgs.
  assert (zip (scenarios st) (zip seqs pis) !! b = Some (sc, (sq, (u, v)))) as Hz.
  { apply lookup_zip_Some. split; [done |]. by apply lookup_zip_Some. }
  destruct (Forall2_lookup_l _ _ _ _ _ Hgs Hz) as (g & Hg & Hgather).
  by exists sq, g.
Qed.

Lemma shortest_path_action_valid st pis st' b sc u v :
  shortest_path_action st pis = Ok st' →
  scenarios st !! b = Some sc → pis !! b = Some (u, v) → u ≠ -1 →
  some_case (current_routes (extra_data sc)) u v.
Proof.
  intros Hok Hsc Hp Hu. unfold shortest_path_action in Hok.
  pose proof (memo_frame st) as Hframe. pose proof (memo_length st) as Hlen.
  destruct (get_shortest_path_sequences st) as [st0 seqs]. simpl in *.
  destruct (updated_routes st0 seqs pis) as [e | upd] eqn:Hupd; [discriminate |].
  clear Hok. unfold updated_routes in Hupd.
  case_bool_decide; simpl in Hupd; [| discriminate].
  destruct (mapM _ _) as [e | gs] eqn:Hgs; simpl in Hupd; [discriminate |].
  destruct (forallb valid_action gs) eqn:Hvalid; simpl in Hupd; [| discriminate].
  destruct (Forall2_lookup_r _ _ _ _ _ Hframe Hsc) as (sc0 & Hsc0 & sps & ->).
  assert (length seqs = batch_size st0) as Hlen0.
  { rewrite Hlen. unfold batch_size. symmetry. by eapply Forall2_length. }
  destruct (gathered_row st0 seqs pis gs b _ u v Hlen0 Hgs Hsc0 Hp) as (sq & g & Hg & Hb).
  apply (gather_valid_action _ _ _ _ _ Hg Hu).
  by eapply forallb_lookup.
Qed.

End Validity.

Section Invalid.
Context {lib : GraphAlgorithms}.

Lemma shortest_path_action_invalid st pis b sc u v :
  scenarios st !! b = Some sc → pis !! b = Some (u, v) → u ≠ -1 →
  ¬ some_case (current_routes (extra_data sc)) u v →
  ∃ e, shortest_path_action st pis = Raise e (get_shortest_path_sequences st).1
       ∧ (e = AssertionError "invalid action!" ∨ e = IndexError).
Proof.
  intros Hsc Hp Hu Hnone. unfold shortest_path_action.
  pose proof (memo_frame st) as Hframe. pose proof (memo_length st) as Hlen.
  destruct (get_shortest_path_sequences st) as [st0 seqs]. simpl in *.
  assert (∃ e, updated_routes st0 seqs pis = inl e
               ∧ (e = AssertionError "invalid action!" ∨ e = IndexError)) as (e & -> & He).
  2:{ by exists e. }
  unfold updated_routes. case_bool_decide; simpl; [| by eauto].
  destruct (mapM _ _) as [e | gs] eqn:Hgs; simpl.
  - exists e. split; [done |]. right.
    apply mapM_result_error in Hgs as (x & _ & Hx). by eapply gather_error.
  - destruct (Forall2_lookup_r _ _ _ _ _ Hframe Hsc) as (sc0 & Hsc0 & sps & ->).
    assert (length seqs = batch_size st0) as Hlen0.
    { rewrite Hlen. unfold batch_size. symmetry. by eapply Forall2_length. }
    destruct (gathered_row st0 seqs pis gs b _ u v Hlen0 Hgs Hsc0 Hp) as (sq & g & Hg & Hb).
    destruct (forallb valid_action gs) eqn:Hvalid; simpl; [| by eauto].
    exfalso. apply Hnone. apply (gather_valid_action _ _ _ _ _ Hg Hu).
    by eapply forallb_lookup.
Qed.

End Invalid.


Lemma two_stops_route :
  (current_routes ∘ extra_data <$> scenarios two_stops) = [[0; 1; -1]]
  ∧ (is_done <$> scenarios two_stops) = [false]
  ∧ shortest_path_action (lib := Reference.lib) two_stops [(1, 0)] = Ok looped
  ∧ (current_routes ∘ extra_data <$> scenarios looped) = [[1; 0; 1]].
Proof. repeat split; vm_compute; reflexivity. Qed.



(** ** The demand component of the weighted cost *)

Lemma Qeq_bool_false (a b : Q) : ¬ (a == b)%Q → Qeq_bool a b = false.
Proof.
  intros H. destruct (Qeq_bool a b) eqn:E; [| done].
  by apply Qeq_bool_iff in E.
Qed.




(** ** Finite and non-negative costs *)

Lemma signed_inf_nonneg a : (0 <= a)%Q → tnonneg (signed_inf a).
Proof.
  intros H. unfold signed_inf. destruct (0 ?= a)%Q eqn:E; simpl; try done.
  all: apply Qgt_alt in E; lra.
Qed.

Lemma tnonneg_add x y : tnonneg x → tnonneg y → tnonneg (tadd x y).
Proof. destruct x, y; simpl; try done. intros. lra. Qed.

Lemma tnonneg_mul x y : tnonneg x → tnonneg y → tnonneg (tmul x y).
Proof.
  destruct x, y; simpl; try done; auto using signed_inf_nonneg.
  intros. by apply Qmult_le_0_compat.
Qed.

Lemma tnonneg_div x y : tnonneg x → tnonneg y → tnonneg (tdiv x y).
Proof.
  destruct x as [a | | |], y as [b | | |]; simpl; try done.
  - intros Ha Hb. destruct (Qeq_bool b 0) eqn:E; [by apply signed_inf_nonneg |].
    simpl. apply Qmult_le_0_compat; [done |]. by apply Qinv_le_0_compat.
  - intros _ Hb. apply Qle_bool_iff in Hb. by rewrite Hb.
Qed.

Lemma tnonneg_sum l : Forall tnonneg l → tnonneg (tsum l).
Proof.
  induction 1 as [| x l Hx _ IH]; simpl; [done |]. by apply tnonneg_add.
Qed.

Lemma tnonneg_msum m : Forall (Forall tnonneg) m → tnonneg (tmsum m).
Proof.
  intros H. unfold tmsum. apply tnonneg_sum, Forall_fmap.
  eapply Forall_impl; [exact H |]. intros row. apply tnonneg_sum.
Qed.

Lemma tnonneg_of_ext t : ext_le (Fin 0) t → tnonneg (of_ext t).
Proof. by destruct t. Qed.

Lemma tnonneg_finite x : tnonneg x → isfinite x = true → tge0 x = true.
Proof. destruct x; simpl; try done. intros H _. by apply Qle_bool_iff. Qed.

Lemma Forall_mzip_with {A B C} (P : A → Prop) (Q : B → Prop) (R : C → Prop)
    (f : A → B → C) (a : mat A) (b : mat B) :
  (∀ x y, P x → Q y → R (f x y)) →
  Forall (Forall P) a → Forall (Forall Q) b → Forall (Forall R) (mzip_with f a b).
Proof.
  intros Hf Ha Hb. apply Forall_mlookup. intros i j z.
  rewrite mlookup_mzip_with. unfold mlookup. intros H.
  destruct (a !! i) as [ra |] eqn:Era; simpl in H; [| discriminate].
  destruct (ra !! j) as [x |] eqn:Ex; simpl in H; [| discriminate].
  destruct (b !! i) as [rb |] eqn:Erb; simpl in H; [| discriminate].
  destruct (rb !! j) as [y |] eqn:Ey; simpl in H; [| discriminate].
  injection H as <-. apply Hf.
  - exact (proj1 (Forall_lookup _ _) (proj1 (Forall_lookup _ _) Ha _ _ Era) _ _ Ex).
  - exact (proj1 (Forall_lookup _ _) (proj1 (Forall_lookup _ _) Hb _ _ Erb) _ _ Ey).
Qed.

Lemma Forall_True {A} (l : list A) : Forall (λ _, True) l.
Proof. by apply Forall_forall. Qed.

Lemma Forall_Forall_True {A} (m : mat A) : Forall (Forall (λ _, True)) m.
Proof. apply Forall_forall. intros. apply Forall_True. Qed.

Lemma Qsum_nonneg l : Forall (λ q, (0 <= q)%Q) l → (0 <= Qsum l)%Q.
Proof. induction 1; simpl; lra. Qed.

Lemma Qmsum_nonneg m : Forall (Forall (λ q, (0 <= q)%Q)) m → (0 <= Qmsum m)%Q.
Proof.
  intros H. unfold Qmsum. apply Qsum_nonneg, Forall_fmap.
  eapply Forall_impl; [exact H |]. intros row. apply Qsum_nonneg.
Qed.

(** A masked sum of non-negative demands is at most their sum. *)
Lemma masked_row_le {A} (p : A → bool) (ds : list Q) (xs : list A) :
  Forall (λ q, (0 <= q)%Q) ds →
  (0 <= Qsum (zip_with (λ (d : Q) x, if p x then d else 0%Q) ds xs) <= Qsum ds)%Q.
Proof.
  intros H. revert xs. induction H as [| d ds Hd _ IH]; intros xs; simpl.
  - lra.
  - destruct xs as [| x xs]; simpl.
    + pose proof (IH []) as H0. simpl in H0. destruct ds; simpl in *; lra.
    + specialize (IH xs). destruct (p x); lra.
Qed.

Lemma masked_mat_le {A} (p : A → bool) (dm : mat Q) (xm : mat A) :
  Forall (Forall (λ q, (0 <= q)%Q)) dm →
  (0 <= Qmsum (mzip_with (λ (d : Q) x, if p x then d else 0%Q) dm xm) <= Qmsum dm)%Q.
Proof.
  intros H. revert xm. unfold Qmsum, mzip_with.
  induction H as [| r dm Hr Hdm IH]; intros xm; csimpl.
  - lra.
  - destruct xm as [| x xm]; csimpl.
    + pose proof (Qsum_nonneg r Hr). pose proof (Qmsum_nonneg dm Hdm) as H0.
      unfold Qmsum in H0. lra.
    + pose proof (masked_row_le p r x Hr). specialize (IH xm). lra.
Qed.

Lemma tgood_num q : (0 <= q)%Q → tgood (Num q).
Proof. by split. Qed.

Lemma tgood_inv x : tgood x → ∃ q, x = Num q ∧ (0 <= q)%Q.
Proof. destruct x; intros [Hf Hn]; try discriminate. by eauto. Qed.

Lemma tgood_add x y : tgood x → tgood y → tgood (tadd x y).
Proof.
  intros (a & -> & Ha)%tgood_inv (b & -> & Hb)%tgood_inv. apply tgood_num. lra.
Qed.

Lemma tgood_mul x y : tgood x → tgood y → tgood (tmul x y).
Proof.
  intros (a & -> & Ha)%tgood_inv (b & -> & Hb)%tgood_inv. apply tgood_num.
  by apply Qmult_le_0_compat.
Qed.

Lemma tgood_div x y b : tgood x → y = Num b → (0 < b)%Q → tgood (tdiv x y).
Proof.
  intros (a & -> & Ha)%tgood_inv -> Hb. simpl.
  rewrite Qeq_bool_false by lra. apply tgood_num.
  apply Qmult_le_0_compat; [done |]. apply Qinv_le_0_compat. lra.
Qed.

Lemma tgood_bool b : tgood (tfloat_of_bool b).
Proof. destruct b; apply tgood_num; lra. Qed.

Lemma tgood_checks x : tgood x → isfinite x = true ∧ tge0 x = true.
Proof. intros [Hf Hn]. split; [done | by apply tnonneg_finite]. Qed.

Lemma inject_Z_nonneg z : 0 ≤ z → (0 <= inject_Z z)%Q.
Proof. intros H. unfold Qle. simpl. lia. Qed.

Lemma inject_Z_pos z : 0 < z → (0 < inject_Z z)%Q.
Proof. intros H. unfold Qlt. simpl. lia. Qed.

Lemma dict_get_nonneg (key : string) (d : list (string * Q)) w :
  Forall (λ kv : string * Q, (0 <= kv.2)%Q) d → (0 <= w)%Q →
  (0 <= default w (dict_get key d))%Q.
Proof.
  intros Hd Hw. unfold dict_get.
  destruct (head (filter (λ kv : string * Q, kv.1 = key) d)) as [kv |] eqn:E; simpl; [| done].
  apply head_Some_elem_of in E. apply list_elem_of_filter in E as [_ Hin].
  exact (proj1 (Forall_forall _ _) Hd _ Hin).
Qed.

Section MyCost.
Context {lib : GraphAlgorithms}.

(** The weighted cost of one scenario is finite and not negative when
    the diameter and the total demand are positive and finite, and the
    travel time, route time, counts, bounds and weights are not
    negative. *)
Lemma my_cost_good self sym cw no_norm sc T r D U nd oob d len :
  max_entry (drive_times (graph_data sc)) = Some (Fin d) → (0 < d)%Q →
  (0 < D)%Q → (0 <= U)%Q → (0 <= T)%Q → (0 <= r)%Q →
  (0 < n_demand_edges sym sc)%Q → (0 <= nd)%Q → 0 ≤ oob →
  0 ≤ n_routes_to_plan (extra_data sc) →
  MyCostModule.min_route_len self = Some len → 0 ≤ len →
  Forall (λ kv : string * Q, (0 <= kv.2)%Q) (cost_weights (extra_data sc)) →
  (0 <= MyCostModule.demand_time_weight self)%Q →
  (0 <= MyCostModule.route_time_weight self)%Q →
  (0 <= default (MyCostModule.constraint_violation_weight self) cw)%Q →
  ∃ cost, my_cost self sym cw no_norm sc (Num T) (Fin r) D U nd oob = inr cost
          ∧ tgood cost.
Proof.
  intros Hmax Hd HD HU HT Hr Hnde Hnd Hoob Hn Hlen Hlen0 Hws Hdw Hrw Hcw.
  unfold my_cost. rewrite Hmax, Hlen.
  cbv [mbind result_bind mret result_ret]. eexists. split; [reflexivity |].
  assert (0 <= inject_Z (n_routes_to_plan (extra_data sc)))%Q as Hn' by by apply inject_Z_nonneg.
  assert (0 <= d * inject_Z (n_routes_to_plan (extra_data sc)))%Q as Hdn
    by (apply Qmult_le_0_compat; lra).
  assert (tgood (demand_cost no_norm (Fin d) (Num T) D U)) as Hdc.
  { unfold demand_cost, mean_demand_time.
    assert (tgood (tadd (tdiv (Num T) (Num (D + (1 # 1000000))))
                        (tdiv (tmul (tmul (Num U) (of_ext (Fin d))) (Num 2)) (Num D)))) as H.
    { apply tgood_add.
      - eapply tgood_div; [by apply tgood_num | reflexivity | lra].
      - eapply tgood_div; [| reflexivity | done].
        apply tgood_mul; [apply tgood_mul |]; apply tgood_num; lra. }
    destruct no_norm; [done |]. by eapply tgood_div. }
  apply tgood_add; [apply tgood_add |].
  - apply tgood_mul; [done |]. by apply tgood_num, dict_get_nonneg.
  - apply tgood_mul; [| by apply tgood_num, dict_get_nonneg].
    destruct no_norm; [by apply tgood_num |].
    eapply tgood_div; [by apply tgood_num | reflexivity |]. lra.
  - apply tgood_mul; [| by apply tgood_num].
    assert (∀ x, tgood x → tgood (tadd x (tmul (Num (1 # 10)) (tfloat_of_bool (tgt0 x)))))
      as Hstep.
    { intros x Hx. apply tgood_add; [done |].
      apply tgood_mul; [apply tgood_num; lra | apply tgood_bool]. }
    assert (tgood (tdiv (Num nd) (Num (n_demand_edges sym sc)))) as Hfu
      by (eapply tgood_div; [by apply tgood_num | reflexivity | done]).
    destruct (MyCostModule.ignore_stops_oob self); [by apply Hstep |].
    apply tgood_add; [by apply Hstep |]. apply Hstep.
    eapply tgood_div; [by apply tgood_num, inject_Z_nonneg | reflexivity |].
    apply inject_Z_pos. case_match; [lia |].
    assert (0 ≤ n_routes_to_plan (extra_data sc) * len) by lia.
    apply Z.eqb_neq in H. lia.
Qed.

Lemma forallb_Forall_true {A} (f : A → bool) (l : list A) :
  forallb f l = true → Forall (λ x, f x = true) l.
Proof.
  intros H. apply Forall_lookup. intros i x Hx. by eapply forallb_lookup.
Qed.

(** What [MyCostModule.forward] returns has passed its two checks. *)
Lemma my_forward_checked self st cw no_norm cho :
  MyCostModule_forward self st cw no_norm = inr cho →
  ∃ cs, CostHelperOutput.cost cho = Some cs
        ∧ Forall (λ c, isfinite c = true ∧ tge0 c = true) cs.
Proof.
  unfold MyCostModule_forward. cbv [mbind result_bind mret result_ret raise].
  intros H.
  destruct (_cost_helper (My self) st) as [e | cho0]; [discriminate |].
  destruct (mapM _ _) as [e | cs]; [discriminate |].
  destruct (forallb isfinite cs) eqn:Hfin; simpl in H; [| discriminate].
  destruct (forallb tge0 cs) eqn:Hge; simpl in H; [| discriminate].
  injection H as <-. exists cs. split; [done |].
  apply forallb_Forall_true in Hfin, Hge.
  apply Forall_and. by split.
Qed.

End MyCost.

Lemma Forall_mmap {A B} (P : A → Prop) (R : B → Prop) (f : A → B) (m : mat A) :
  (∀ x, P x → R (f x)) → Forall (Forall P) m → Forall (Forall R) (mmap f m).
Proof.
  intros Hf H. unfold mmap. apply Forall_fmap.
  eapply Forall_impl; [exact H |]. intros row Hrow. simpl.
  apply Forall_fmap. eapply Forall_impl; [exact Hrow |]. intros x. apply Hf.
Qed.

Section Nikolic.
Context {lib : GraphAlgorithms}.

Lemma trip_times_nonneg sc :
  nonneg_inputs sc → Forall (Forall (λ t, ext_le (Fin 0) t)) (trip_times sc).
Proof.
  intros [_ Ht]. unfold trip_times.
  eapply (Forall_mzip_with _ (λ _, True)); [| exact Ht | apply Forall_Forall_True].
  intros t h Hle _. destruct h; [done |]. simpl. lra.
Qed.

Lemma total_dmd_time_nonneg sc : nonneg_inputs sc → tnonneg (total_dmd_time sc).
Proof.
  intros H. unfold total_dmd_time. apply tnonneg_msum.
  eapply Forall_mzip_with; [| apply H | by apply trip_times_nonneg].
  intros d t Hd Ht. apply tnonneg_mul; [done | by apply tnonneg_of_ext].
Qed.

Lemma served_demand_nonneg sc :
  nonneg_inputs sc → (0 <= unserved_demand sc <= total_demand sc)%Q.
Proof. intros [Hd _]. unfold unserved_demand, demand_where, total_demand. by apply masked_mat_le. Qed.

Lemma nikolic_cost_nonneg self sc :
  nonneg_inputs sc → (0 <= NikolicCostModule.unsatisfied_penalty_extra_s self)%Q →
  tnonneg (nikolic_cost self (total_dmd_time sc) (total_demand sc) (unserved_demand sc)
                        (trip_times sc)).
Proof.
  intros Hin Hextra. pose proof (total_dmd_time_nonneg sc Hin) as Ht.
  pose proof (served_demand_nonneg sc Hin) as Hu.
  unfold nikolic_cost. apply tnonneg_add; [done |].
  apply tnonneg_mul; [| simpl; lra]. apply tnonneg_add; [| done].
  case_match.
  - unfold tmean. apply tnonneg_div.
    + apply tnonneg_msum. eapply Forall_mmap; [| by apply trip_times_nonneg].
      intros t. apply tnonneg_of_ext.
    + simpl. apply inject_Z_nonneg. lia.
  - apply tnonneg_div; [done |]. simpl. lra.
Qed.

(** The rows of the helper's output are computed from the scenarios. *)
Lemma cost_helper_row self st cho b sc r :
  _cost_helper self st = inr cho → scenarios st !! b = Some sc →
  cho_row cho b = inr r →
  r.1.1.1.1.1.1 = total_dmd_time sc ∧ r.1.1.1.1.1.2 = state_total_route_time sc
  ∧ r.1.1.1.1.2 = total_demand sc ∧ r.1.1.1.2 = unserved_demand sc
  ∧ r.2 = trip_times sc.
Proof.
  intros Hcho Hsc. unfold _cost_helper in Hcho.
  cbv [mbind result_bind mret result_ret raise] in Hcho.
  repeat case_match; simplify_eq.
  unfold cho_row. simpl. rewrite !list_lookup_fmap, Hsc. simpl.
  cbv [mbind result_bind mret result_ret raise index_or_raise].
  intros Hr. repeat case_match; simplify_eq. done.
Qed.

Lemma nikolic_forward_good self st cho :
  Forall nonneg_inputs (scenarios st) →
  (0 <= NikolicCostModule.unsatisfied_penalty_extra_s self)%Q →
  NikolicCostModule_forward self st = inr cho →
  ∃ cs, CostHelperOutput.cost cho = Some cs
        ∧ Forall (λ c, isfinite c = true ∧ tge0 c = true) cs.
Proof.
  intros Hin Hextra. unfold NikolicCostModule_forward.
  cbv [mbind result_bind mret result_ret raise]. intros H.
  destruct (_cost_helper (Nikolic self) st) as [e | cho0] eqn:Hcho; [discriminate |].
  destruct (mapM _ _) as [e | rows] eqn:Hrows; [discriminate |].
  destruct (existsb _ _); [discriminate |].
  destruct (forallb isfinite _) eqn:Hfin; simpl in H; [| discriminate].
  injection H as <-. eexists. split; [reflexivity |].
  apply forallb_Forall_true in Hfin.
  apply Forall_lookup. intros b c Hc.
  pose proof (proj1 (Forall_lookup _ _) Hfin _ _ Hc) as Hc_fin. simpl in Hc_fin.
  split; [done |]. apply tnonneg_finite; [| done].
  rewrite list_lookup_fmap in Hc.
  destruct (rows !! b) as [r |] eqn:Hr; simpl in Hc; [| discriminate].
  injection Hc as <-.
  apply mapM_result_Forall2 in Hrows.
  destruct (Forall2_lookup_r _ _ _ _ _ Hrows Hr) as ([b' sc] & Hb & Hrow).
  rewrite list_lookup_imap in Hb.
  destruct (scenarios st !! b) as [sc' |] eqn:Hsc; simpl in Hb; [| discriminate].
  injection Hb as <- <-. simpl in Hrow.
  destruct (cost_helper_row _ _ _ _ _ _ Hcho Hsc Hrow) as (E1 & _ & E3 & E4 & E5).
  destruct r as [[[[[[tdt trt] td] ud] nd] oob] times]. simpl in *. subst.
  apply nikolic_cost_nonneg; [| done].
  exact (proj1 (Forall_lookup _ _) Hin _ _ Hsc).
Qed.

End Nikolic.




(** ** The done sentinel on a complete scenario *)

Lemma count_stops_no_route n : count_stops (no_route n) = 0%nat.
Proof.
  unfold count_stops, no_route. induction n as [| n IH]; [done |].
  simpl. rewrite filter_cons. by case_decide.
Qed.

Lemma count_stops_all_padding (l : list Z) :
  Forall (λ x, x = -1) l → count_stops l = 0%nat.
Proof.
  unfold count_stops. induction 1 as [| x l -> _ IH]; [done |].
  rewrite filter_cons. by case_decide.
Qed.

Lemma masked_assign_row_false mask t vals :
  Forall (λ b, b = false) mask → masked_assign_row mask t vals = Some (t, vals).
Proof.
  intros H. revert t. induction H as [| m mask -> _ IH]; intros t; simpl.
  - by destruct t.
  - destruct t as [| x t]; [done |]. by rewrite IH.
Qed.

Lemma masked_select_false {A} mask (t : list A) :
  Forall (λ b, b = false) mask → masked_select mask t = [].
Proof.
  intros H. revert t. unfold masked_select.
  induction H as [| m mask -> _ IH]; intros t; [done |].
  destruct t as [| x t]; [done |]. csimpl. apply IH.
Qed.

(** A row whose mask is empty keeps its values. *)
Lemma masked_assign_lookup_false masks t vals t' b mask :
  masked_assign masks t vals = inr t' →
  masks !! b = Some mask → Forall (λ m, m = false) mask →
  t' !! b = t !! b.
Proof.
  revert t vals t' b. induction masks as [| mask0 masks IH]; intros t vals t' b H Hb Hmask;
    [done |].
  simpl in H. destruct t as [| row t].
  - destruct vals; [| discriminate]. by injection H as <-.
  - destruct (masked_assign_row mask0 row vals) as [[row' rest] |] eqn:Hrow; [| discriminate].
    destruct (masked_assign masks t rest) as [e | t''] eqn:Ht; simpl in H; [discriminate |].
    injection H as <-. destruct b as [| b]; simpl in *.
    + injection Hb as ->. rewrite masked_assign_row_false in Hrow by done.
      by injection Hrow as <- _.
    + by eapply IH.
Qed.

Section Sentinel.
Context {lib : GraphAlgorithms} {lib_ok : GraphAlgorithmsSpec lib}.

Lemma gather_fields sc seqs pidx g :
  gather sc seqs pidx = inr g →
  cur g = current_routes (extra_data sc) ∧ path_index g = pidx.
Proof.
  unfold gather. cbv [mbind result_bind mret result_ret raise index_or_raise].
  intros H. repeat case_match; by simplify_eq.
Qed.

(** The vectorised parts of a scenario that is given the sentinel and
    has no route in progress. *)
Lemma sentinel_parts g n :
  routes_are_done g = true → cur g = no_route n → length (new_part g) = length (cur g) →
  first_parts g = no_route n
  ∧ count_stops (first_parts g) = 0%nat ∧ count_stops (second_parts g) = 0%nat.
Proof.
  intros Hdone Hcur Hlen.
  assert (first_parts g = no_route n) as Hfirst.
  { unfold first_parts, chose_next, chose_prev, starting, extending.
    rewrite Hdone. simpl. rewrite Hcur in *.
    apply list_eq. intros i. rewrite lookup_zip_with.
    destruct (no_route n !! i) as [c |] eqn:Hc.
    - destruct (lookup_lt_is_Some_2 (new_part g) i) as [x ->].
      { rewrite Hlen. by eapply lookup_lt_Some. }
      simpl. rewrite !andb_false_r, orb_true_r. simpl. f_equal. lia.
    - by destruct (new_part g !! i). }
  split; [done |]. split; [rewrite Hfirst; apply count_stops_no_route |].
  apply count_stops_all_padding. unfold second_parts, chose_next, chose_prev, extending.
  rewrite Hdone. rewrite !andb_false_r. simpl.
  apply Forall_drop, Forall_lookup. intros i x Hx.
  apply lookup_zip_with_Some in Hx as (a & c & -> & _ & _). lia.
Qed.

Lemma updated_routes_sentinel st seqs pis upd b sc v :
  updated_routes st seqs pis = inr upd →
  length seqs = batch_size st →
  scenarios st !! b = Some sc → pis !! b = Some (-1, v) →
  current_routes (extra_data sc) = no_route (max_n_nodes st) →
  upd !! b = Some (no_route (max_n_nodes st)).
Proof.
  intros Hupd Hlen Hsc Hp Hcur. unfold updated_routes in Hupd.
  set (width := max_n_nodes st) in *.
  case_bool_decide; simpl in Hupd; [| discriminate].
  destruct (mapM _ _) as [e | gs] eqn:Hgs; simpl in Hupd; [discriminate |].
  destruct (forallb valid_action gs); simpl in Hupd; [| discriminate].
  destruct (forallb _ gs) eqn:Hshape; simpl in Hupd; [| discriminate].
  destruct (masked_assign _ _ _) as [e | u1] eqn:Hu1; simpl in Hupd; [discriminate |].
  destruct (forallb _ u1); simpl in Hupd; [| discriminate].
  injection Hupd as <-.
  destruct (gathered_row st seqs pis gs b sc (-1) v Hlen Hgs Hsc Hp) as (sq & g & Hg & Hb).
  destruct (gather_fields _ _ _ _ Hg) as [Hcg Hpg].
  pose proof (forallb_lookup _ _ _ _ Hshape Hb) as Hsh.
  apply bool_decide_eq_true in Hsh as [Hnew _].
  assert (routes_are_done g = true) as Hdone by (unfold routes_are_done; by rewrite Hpg).
  rewrite Hcur in Hcg.
  destruct (sentinel_parts g width Hdone Hcg Hnew) as (Hfirst & Hc1 & Hc2).
  assert (u1 !! b = Some (no_route width)) as Hrow.
  { erewrite masked_assign_lookup_false; [| exact Hu1 | | apply (slice_mask_empty width 0)].
    - rewrite !list_lookup_fmap, Hb. simpl. rewrite Hfirst.
      unfold no_route. rewrite length_replicate, Nat.sub_diag. simpl.
      by rewrite app_nil_r.
    - rewrite lookup_zip_with, !list_lookup_fmap, Hb. simpl.
      rewrite lookup_zip_with, !list_lookup_fmap, Hb. simpl.
      by rewrite Hc1, Hc2. }
  rewrite lookup_zip_with, Hsc. simpl. rewrite !list_lookup_fmap, Hrow. simpl.
  f_equal. case_match; [done |]. unfold no_route. by rewrite fmap_replicate.
Qed.

End Sentinel.

Lemma same_routes_trans sc1 sc2 sc3 :
  same_routes sc1 sc2 → same_routes sc2 sc3 → same_routes sc1 sc3.
Proof.
  intros (Hn1 & ? & ? & ? & ?) (Hn2 & ? & ? & ? & ?).
  split; [by eapply same_network_trans |]. repeat split; congruence.
Qed.

Lemma same_routes_unchanged sc' sc : same_routes sc' sc → unchanged sc' sc.
Proof.
  intros (Hn & Hf & Ht & Hc & Hct).
  apply same_network_fields in Hn
    as (_ & Evt & _ & Edc & Erm & Ett & Ehp & _).
  unfold unchanged, state_total_route_time. rewrite Ht, Hct. by repeat split.
Qed.

Lemma ext_sum_zero l : Forall (λ t, t = Fin 0) l → ext_sum l = Fin 0.
Proof. induction 1 as [| x l -> _ IH]; simpl; [done |]. by rewrite IH. Qed.

Section Noop.
Context {lib : GraphAlgorithms} {lib_ok : GraphAlgorithmsSpec lib}.

Lemma no_stops_take_no_time routes drive mst :
  Forall (λ r, count_stops r = 0%nat) routes →
  ext_sum (ext_sum <$> get_route_leg_times routes drive mst) = Fin 0.
Proof.
  intros H. apply ext_sum_zero, Forall_fmap.
  eapply Forall_impl; [by apply leg_times_no_stops |].
  intros legs Hlegs. simpl. by apply ext_sum_zero.
Qed.

Lemma get_total_route_time_no_stops sym sc routes :
  Forall (λ r, count_stops r = 0%nat) routes →
  get_total_route_time sym sc routes = Fin 0.
Proof.
  intros H. unfold get_total_route_time. rewrite !no_stops_take_no_time by done.
  by destruct sym.
Qed.

Lemma apply_action_sentinel sym sc v n :
  current_routes (extra_data sc) = no_route n →
  current_route_time (extra_data sc) = Fin 0 →
  same_routes (apply_action sym sc (-1, v) (no_route n)) sc.
Proof.
  intros Hcur Htime.
  assert (finish_route sc true (no_route n) = (sc, no_route n)) as Hfin.
  { unfold finish_route.
    assert (valid_stops (no_route n) = []) as ->.
    { apply count_stops_0, count_stops_no_route. }
    simpl. rewrite fmap_const_replicate. unfold no_route at 1 2.
    rewrite length_replicate. by destruct (is_done sc). }
  split; [apply same_network_apply_action |].
  unfold apply_action. cbn [fst snd]. change (-1 =? -1) with true.
  rewrite Hfin. simpl.
  repeat split; try done.
  rewrite Htime. apply get_total_route_time_no_stops.
  constructor; [apply count_stops_no_route | constructor].
Qed.

(** Refreshing a settled scenario with routes that have no stops
    changes none of the listed fields. *)
Lemma refresh_noop n sym sc routes :
  scenario_ok n sc → settled sym sc →
  Forall (λ r, count_stops r = 0%nat) routes →
  unchanged (refresh_scenario sym false false sc routes) sc.
Proof.
  intros Hok (Svt & Stt & Shp) Hroutes.
  set (new := get_route_edge_matrix routes (drive_times (graph_data sc))
                (mean_stop_time (extra_data sc)) sym).
  assert (square n new) as Hnew.
  { pose proof (edge_matrix_square routes (drive_times (graph_data sc))
                  (mean_stop_time (extra_data sc)) sym) as H.
    by rewrite (ok_drive _ _ Hok) in H. }
  assert (mzip_with ext_min (route_mat (extra_data sc)) new = route_mat (extra_data sc))
    as Erm.
  { apply (square_eq n); [by apply square_mzip_with; [apply Hok |] | apply Hok |].
    intros i j Hi Hj.
    destruct (square_lookup _ _ _ _ (ok_route_mat _ _ Hok) Hi Hj) as [x Hx].
    destruct (merged_lookup _ _ _ _ _ _ (ok_route_mat _ _ Hok) Hnew Hx) as (y & Hy & ->).
    rewrite Hx. f_equal. apply ext_min_absorb.
    pose proof (edge_matrix_no_stops _ _ _ _ _ _ _ Hroutes Hy) as Hle.
    case_bool_decide as Hij.
    - subst j. destruct (ok_diagonal _ _ Hok i Hi) as (q & Hq & Hq0).
      rewrite Hq in Hx. injection Hx as <-.
      eapply ext_le_trans; [| exact Hle]. done.
    - rewrite Hle. by destruct x. }
  assert (set_connected (directly_connected (extra_data sc))
            (where_finite (route_mat (extra_data sc)))
          = directly_connected (extra_data sc)) as Edc.
  { apply (square_eq n); [apply square_set_connected | |]; try apply Hok.
    intros i j Hi Hj. rewrite mlookup_set_connected.
    case_bool_decide as Hin; [| done].
    apply elem_of_where_finite in Hin. apply (ok_connected_iff _ _ Hok) in Hin.
    by rewrite Hin. }
  unfold unchanged, refresh_scenario, state_total_route_time.
  rewrite derive_has_path, derive_transit_times.
  change (route_mat (extra_data (connect (merge_routes sym sc routes))))
    with (mzip_with ext_min (route_mat (extra_data sc)) new).
  change (transfer_time_s (extra_data (connect (merge_routes sym sc routes))))
    with (transfer_time_s (extra_data sc)).
  rewrite Erm. repeat split; try done.
  change (set_connected (directly_connected (extra_data sc))
            (where_finite (mzip_with ext_min (route_mat (extra_data sc)) new))
          = directly_connected (extra_data sc)).
  by rewrite Erm.
Qed.

End Noop.

Lemma same_routes_memo sps sc :
  same_routes (set_extra (set_shortest_path_sequences sps) sc) sc.
Proof. split; [apply same_network_memo | by repeat split]. Qed.

Lemma same_routes_times t sc :
  same_routes (set_extra (set_current_route_times_from_start t) sc) sc.
Proof. split; [apply same_network_times | by repeat split]. Qed.

Lemma unchanged_trans sc1 sc2 sc3 : unchanged sc1 sc2 → unchanged sc2 sc3 → unchanged sc1 sc3.
Proof.
  unfold unchanged. intros (? & ? & ? & ? & ? & ? & ? & ? & ?) (? & ? & ? & ? & ? & ? & ? & ? & ?).
  repeat split; congruence.
Qed.

Section DoneSentinel.
Context {lib : GraphAlgorithms} {lib_ok : GraphAlgorithmsSpec lib}.

Lemma derive_valid_terms sym sc :
  valid_terms_mat (extra_data (derive sym false false sc))
  = if sym
    then mzip_with andb (valid_terms_mat (extra_data sc))
                   (mtranspose false (valid_terms_mat (extra_data sc)))
    else valid_terms_mat (extra_data sc).
Proof. reflexivity. Qed.

Lemma settled_same_network sym sc' sc :
  same_network sc' sc → settled sym sc → settled sym sc'.
Proof.
  intros H (Svt & Stt & Shp).
  apply same_network_fields in H
    as (_ & Evt & _ & _ & Erm & Ett & Ehp & _ & _ & _ & _ & Ets & _).
  unfold settled in *.
  rewrite derive_has_path, derive_transit_times, derive_valid_terms in *.
  by rewrite Erm, Ett, Ehp, Ets, Evt.
Qed.

Lemma done_sentinel_unchanged st pis b sc v :
  state_ok st →
  scenarios st !! b = Some sc → pis !! b = Some (-1, v) →
  current_routes (extra_data sc) = no_route (max_n_nodes st) →
  current_route_time (extra_data sc) = Fin 0 →
  settled (symmetric_routes st) sc →
  ∃ sc', scenarios (final_state (shortest_path_action st pis)) !! b = Some sc'
         ∧ unchanged sc' sc.
Proof.
  intros Hok Hsc Hp Hcur Htime Hset. unfold shortest_path_action.
  pose proof (memo_frame st) as Hframe. pose proof (memo_length st) as Hlen.
  pose proof (memo_same_network st) as Hnet.
  assert (symmetric_routes (get_shortest_path_sequences st).1 = symmetric_routes st) as Hsym.
  { unfold get_shortest_path_sequences. by case_bool_decide. }
  pose proof (max_n_nodes_same _ _ (same_network_same_nodes _ _ Hnet)) as Hmax.
  destruct (get_shortest_path_sequences st) as [st0 seqs]. simpl in *.
  destruct (Forall2_lookup_r _ _ _ _ _ Hframe Hsc) as (sc0 & Hsc0 & sps & ->).
  assert (length seqs = batch_size st0) as Hlen0.
  { rewrite Hlen. unfold batch_size. symmetry. by eapply Forall2_length. }
  destruct (updated_routes st0 seqs pis) as [e | upd] eqn:Hupd; simpl.
  { eexists. split; [exact Hsc0 |]. apply same_routes_unchanged, same_routes_memo. }
  pose proof (updated_routes_sentinel st0 seqs pis upd b _ v Hupd Hlen0 Hsc0 Hp) as Hrow.
  rewrite Hmax in Hrow. specialize (Hrow Hcur).
  apply updated_routes_length in Hupd as [Hu Hpl]; [| done].
  set (sym := symmetric_routes st0) in *.
  set (scs1 := zip_with _ (zip (scenarios st0) pis) upd).
  set (sc1 := apply_action sym (set_extra (set_shortest_path_sequences sps) sc) (-1, v)
                (no_route (max_n_nodes st))).
  assert (scs1 !! b = Some sc1) as Hsc1.
  { unfold scs1. rewrite lookup_zip_with.
    rewrite (proj2 (lookup_zip_Some _ _ _ _ _) (conj Hsc0 Hp)). simpl. by rewrite Hrow. }
  assert (same_routes sc1 sc) as Hsame1.
  { eapply same_routes_trans; [| apply same_routes_memo].
    by apply apply_action_sentinel. }
  assert (Forall2 same_network scs1 (scenarios st)) as Hnet1.
  { eapply Forall2_same_network_trans; [| exact Hnet].
    apply apply_actions_same_network; unfold batch_size in *; congruence. }
  destruct (mapM times_from_start scs1) as [ncr |] eqn:Hncr; simpl.
  2:{ exists sc1. split; [done | by apply same_routes_unchanged]. }
  apply mapM_Some_1, Forall2_length in Hncr.
  destruct (lookup_lt_is_Some_2 ncr b) as [t Ht].
  { rewrite <- Hncr. by eapply lookup_lt_Some. }
  set (scs2 := zip_with _ scs1 ncr).
  set (sc2 := set_extra (set_current_route_times_from_start t) sc1).
  assert (scs2 !! b = Some sc2) as Hsc2.
  { unfold scs2. by rewrite lookup_zip_with, Hsc1, Ht. }
  assert (same_routes sc2 sc) as Hsame2.
  { eapply same_routes_trans; [apply same_routes_times | done]. }
  assert (Forall2 same_network scs2 (scenarios st)) as Hnet2.
  { eapply Forall2_same_network_trans; [| exact Hnet1].
    apply Forall2_zip_with_l; [congruence | intros; apply same_network_times]. }
  assert (state_ok (set_scenarios st0 scs2)) as Hok2.
  { by eapply state_ok_same_network. }
  rewrite update_on_routes_returns; [| done |].
  2:{ rewrite length_fmap. done. }
  simpl. eexists. split.
  { rewrite lookup_zip_with, Hsc2. simpl. rewrite list_lookup_fmap, Hsc2. done. }
  eapply unchanged_trans; [| by apply same_routes_unchanged].
  destruct Hok2 as [_ Hall2].
  pose proof (proj1 (Forall_lookup _ _) Hall2 _ _ Hsc2) as Hok_sc2.
  eapply refresh_noop; [exact Hok_sc2 | |].
  - fold sym. rewrite <- Hsym in Hset. fold sym in Hset.
    eapply settled_same_network; [apply Hsame2 | done].
  - destruct Hsame2 as (_ & _ & _ & -> & _). rewrite Hcur.
    constructor; [apply count_stops_no_route | constructor].
Qed.

End DoneSentinel.

Lemma symmetrize_lookup n (m : mat bool) i j :
  square n m → (i < n)%nat → (j < n)%nat →
  ∃ x y, mlookup m i j = Some x ∧ mlookup m j i = Some y
         ∧ mlookup (symmetrize m) i j = Some (x && y).
Proof.
  intros Hsq Hi Hj.
  destruct (square_lookup _ _ _ _ Hsq Hi Hj) as [x Hx].
  destruct (square_lookup _ _ _ _ Hsq Hj Hi) as [y Hy].
  exists x, y. repeat split; try done.
  unfold symmetrize, mtranspose. rewrite mlookup_mzip_with, Hx. simpl.
  destruct Hsq as [-> _]. rewrite mlookup_mbuild by done. simpl. by rewrite Hy.
Qed.

Lemma square_symmetrize n (m : mat bool) : square n m → square n (symmetrize m).
Proof.
  intros Hsq. unfold symmetrize, mtranspose. apply square_mzip_with; [done |].
  destruct Hsq as [-> _]. apply square_mbuild.
Qed.

Lemma symmetrize_idempotent n (m : mat bool) :
  square n m → symmetrize (symmetrize m) = symmetrize m.
Proof.
  intros Hsq. pose proof (square_symmetrize n m Hsq) as Hs.
  apply (square_eq n); [by apply square_symmetrize | done |].
  intros i j Hi Hj.
  destruct (symmetrize_lookup n m i j Hsq Hi Hj) as (x & y & Hx & Hy & Hxy).
  destruct (symmetrize_lookup n m j i Hsq Hj Hi) as (y' & x' & Hy' & Hx' & Hyx).
  destruct (symmetrize_lookup n _ i j Hs Hi Hj) as (a & b & Ha & Hb & Hab).
  rewrite Hab, Hxy. simplify_eq. f_equal. by destruct x, y.
Qed.

(** After a refresh with the default flags a scenario is settled. *)
Lemma refresh_settles {lib : GraphAlgorithms} n sym sc routes :
  square n (valid_terms_mat (extra_data sc)) →
  settled sym (refresh_scenario sym false false sc routes).
Proof.
  intros Hsq. unfold settled. rewrite derive_valid_terms.
  split; [| by split]. unfold refresh_scenario. rewrite derive_valid_terms.
  change (valid_terms_mat (extra_data (connect (merge_routes sym sc routes))))
    with (valid_terms_mat (extra_data sc)).
  destruct sym; [| done]. by apply (symmetrize_idempotent n).
Qed.

(** *** What a returning call leaves *)

Lemma masked_assign_row_length mask t vals p :
  masked_assign_row mask t vals = Some p → length p.1 = length t.
Proof.
  revert t vals p. induction mask as [| m mask IH]; intros t vals p H; simpl in H.
  - by injection H as <-.
  - destruct t as [| x t]; [by injection H as <- |].
    destruct m.
    + destruct vals as [| v vals]; [discriminate |].
      destruct (masked_assign_row mask t vals) as [q |] eqn:E; simpl in H; [| discriminate].
      injection H as <-. simpl. f_equal. by eapply IH.
    + destruct (masked_assign_row mask t vals) as [q |] eqn:E; simpl in H; [| discriminate].
      injection H as <-. simpl. f_equal. by eapply IH.
Qed.

Lemma masked_assign_widths masks t vals t' :
  masked_assign masks t vals = inr t' → Forall2 (λ r' r : list Z, length r' = length r) t' t.
Proof.
  revert t vals t'. induction masks as [| mask masks IH]; intros t vals t' H; simpl in H.
  - destruct vals; [| discriminate]. injection H as <-.
    by apply Forall_Forall2_diag, Forall_forall.
  - destruct t as [| row t].
    + destruct vals; [| discriminate]. injection H as <-. constructor.
    + destruct (masked_assign_row mask row vals) as [[row' rest] |] eqn:Er; [| discriminate].
      destruct (masked_assign masks t rest) as [e | t''] eqn:E; simpl in H; [discriminate |].
      injection H as <-. constructor.
      * by apply masked_assign_row_length in Er.
      * by eapply IH.
Qed.

Section Returning.
Context {lib : GraphAlgorithms} {lib_ok : GraphAlgorithmsSpec lib}.

(** Every row of the updated routes has the width of the batch. *)
Lemma updated_routes_width st seqs pis upd :
  updated_routes st seqs pis = inr upd →
  Forall (λ row, length row = max_n_nodes st) upd.
Proof.
  intros Hupd. unfold updated_routes in Hupd.
  set (width := max_n_nodes st) in *.
  case_bool_decide; simpl in Hupd; [| discriminate].
  destruct (mapM _ _) as [e | gs] eqn:Hgs; simpl in Hupd; [discriminate |].
  destruct (forallb valid_action gs); simpl in Hupd; [| discriminate].
  destruct (forallb _ gs) eqn:Hshape; simpl in Hupd; [| discriminate].
  destruct (masked_assign _ _ _) as [e | u1] eqn:Hu1; simpl in Hupd; [discriminate |].
  destruct (forallb _ u1); simpl in Hupd; [| discriminate].
  injection Hupd as <-.
  apply masked_assign_widths in Hu1.
  apply Forall_lookup. intros i row Hrow.
  apply lookup_zip_with_Some in Hrow as (sc & r & -> & _ & Hr).
  case_match; [apply length_replicate |].
  rewrite list_lookup_fmap in Hr.
  destruct (u1 !! i) as [r1 |] eqn:Hr1; simpl in Hr; [| discriminate].
  injection Hr as <-. rewrite length_fmap.
  destruct (Forall2_lookup_l _ _ _ _ _ Hu1 Hr1) as (r0 & Hr0 & ->).
  rewrite !list_lookup_fmap in Hr0.
  destruct (gs !! i) as [g |] eqn:Hg; simpl in Hr0; [| discriminate].
  injection Hr0 as <-.
  pose proof (forallb_lookup _ _ _ _ Hshape Hg) as Hsh.
  apply bool_decide_eq_true in Hsh as [Hnew Hle].
  assert (length (first_parts g) = length (cur g)) as Hfirst.
  { unfold first_parts. rewrite length_zip_with. lia. }
  rewrite length_app, length_replicate, Hfirst. lia.
Qed.

(** A call that returns leaves every scenario settled, if its mask is
    square. *)
Lemma shortest_path_action_settles st pis st' :
  state_ok st →
  Forall (λ sc, square (max_n_nodes st) (valid_terms_mat (extra_data sc))) (scenarios st) →
  shortest_path_action st pis = Ok st' →
  symmetric_routes st' = symmetric_routes st
  ∧ Forall (settled (symmetric_routes st')) (scenarios st').
Proof.
  intros Hok Hsq Hspa.
  destruct (shortest_path_action_cases st pis)
    as [(e & st1 & E & _) | (st2 & routes & E & Hnet & Hsym & Hroutes)];
    rewrite E in Hspa; [discriminate |].
  rewrite update_on_routes_returns in Hspa.
  2:{ by eapply state_ok_same_network. }
  2:{ rewrite Hroutes. by rewrite length_fmap. }
  injection Hspa as <-. simpl. split; [done |].
  apply Forall_lookup. intros b sc' Hb.
  apply lookup_zip_with_Some in Hb as (sc2 & r & -> & Hsc2 & _).
  destruct (Forall2_lookup_l _ _ _ _ _ Hnet Hsc2) as (sc & Hsc & Hsame).
  apply (refresh_settles (max_n_nodes st)).
  apply same_network_fields in Hsame as (_ & -> & _).
  exact (proj1 (Forall_lookup _ _) Hsq _ _ Hsc).
Qed.

(** A call that returns leaves a scenario that was given the sentinel
    without a route in progress. *)
Lemma sentinel_clears st pis st' b v :
  state_ok st →
  shortest_path_action st pis = Ok st' → pis !! b = Some (-1, v) →
  max_n_nodes st' = max_n_nodes st
  ∧ ∃ sc', scenarios st' !! b = Some sc'
           ∧ current_routes (extra_data sc') = no_route (max_n_nodes st)
           ∧ current_route_time (extra_data sc') = Fin 0.
Proof.
  intros Hok Hspa Hp. unfold shortest_path_action in Hspa.
  pose proof (memo_length st) as Hlen. pose proof (memo_same_network st) as Hnet.
  pose proof (max_n_nodes_same _ _ (same_network_same_nodes _ _ Hnet)) as Hmax.
  destruct (get_shortest_path_sequences st) as [st0 seqs]. simpl in *.
  assert (length seqs = batch_size st0) as Hlen0.
  { rewrite Hlen. unfold batch_size. symmetry. by eapply Forall2_length. }
  destruct (updated_routes st0 seqs pis) as [e | upd] eqn:Hupd; [discriminate |].
  pose proof (updated_routes_width _ _ _ _ Hupd) as Hwidth. rewrite Hmax in Hwidth.
  apply updated_routes_length in Hupd as [Hu Hpl]; [| done].
  set (sym := symmetric_routes st0) in *.
  set (scs1 := zip_with _ (zip (scenarios st0) pis) upd) in *.
  assert (Forall2 same_network scs1 (scenarios st)) as Hnet1.
  { eapply Forall2_same_network_trans; [| exact Hnet].
    apply apply_actions_same_network; unfold batch_size in *; congruence. }
  destruct (mapM times_from_start scs1) as [ncr |] eqn:Hncr; [| discriminate].
  apply mapM_Some_1, Forall2_length in Hncr.
  set (scs2 := zip_with _ scs1 ncr) in *.
  assert (Forall2 same_network scs2 (scenarios st)) as Hnet2.
  { eapply Forall2_same_network_trans; [| exact Hnet1].
    apply Forall2_zip_with_l; [congruence | intros; apply same_network_times]. }
  rewrite update_on_routes_returns in Hspa.
  2:{ by eapply state_ok_same_network. }
  2:{ by rewrite length_fmap. }
  injection Hspa as <-. split.
  { etransitivity; [| apply (max_n_nodes_same (set_scenarios st0 scs2) st)].
    - apply max_n_nodes_same. simpl. apply refreshed_same_nodes. by rewrite length_fmap.
    - by apply same_network_same_nodes. }
  destruct (lookup_lt_is_Some_2 (scenarios st0) b) as [sc0 Hsc0].
  { apply lookup_lt_Some in Hp. unfold batch_size in *. lia. }
  destruct (lookup_lt_is_Some_2 upd b) as [row Hrow].
  { apply lookup_lt_Some in Hp. lia. }
  pose proof (proj1 (Forall_lookup _ _) Hwidth _ _ Hrow) as Hrow_len.
  set (sc1 := apply_action sym sc0 (-1, v) row).
  assert (scs1 !! b = Some sc1) as Hsc1.
  { unfold scs1. rewrite lookup_zip_with.
    rewrite (proj2 (lookup_zip_Some _ _ _ _ _) (conj Hsc0 Hp)). simpl. by rewrite Hrow. }
  destruct (lookup_lt_is_Some_2 ncr b) as [t Ht].
  { rewrite <- Hncr. by eapply lookup_lt_Some. }
  set (sc2 := set_extra (set_current_route_times_from_start t) sc1).
  assert (scs2 !! b = Some sc2) as Hsc2.
  { unfold scs2. by rewrite lookup_zip_with, Hsc1, Ht. }
  eexists. split.
  { simpl. rewrite lookup_zip_with, Hsc2. simpl. rewrite list_lookup_fmap, Hsc2. done. }
  assert ((finish_route sc0 true row).2 = no_route (max_n_nodes st)) as Hcleared.
  { unfold finish_route. cbn [snd]. rewrite orb_true_r, fmap_const_replicate.
    unfold no_route. by rewrite Hrow_len. }
  change (current_routes (extra_data sc1) = no_route (max_n_nodes st)
          ∧ current_route_time (extra_data sc1) = Fin 0).
  unfold sc1, apply_action. cbn [fst snd]. change (-1 =? -1) with true.
  rewrite Hcleared. split; [done |].
  apply get_total_route_time_no_stops.
  constructor; [apply count_stops_no_route | constructor].
Qed.

(** Completion idempotence proper: when a call has returned, a scenario
    that was given the done sentinel is left unchanged by being given
    it once more. *)
Lemma done_sentinel_twice st pis st' pis' b v v' :
  state_ok st →
  Forall (λ sc, square (max_n_nodes st) (valid_terms_mat (extra_data sc))) (scenarios st) →
  shortest_path_action st pis = Ok st' →
  pis !! b = Some (-1, v) → pis' !! b = Some (-1, v') →
  ∃ sc' sc'',
    scenarios st' !! b = Some sc'
    ∧ scenarios (final_state (shortest_path_action st' pis')) !! b = Some sc''
    ∧ unchanged sc'' sc'.
Proof.
  intros Hok Hsq Hspa Hp Hp'.
  destruct (sentinel_clears st pis st' b v Hok Hspa Hp) as (Hmax & sc' & Hsc' & Hcur & Htime).
  destruct (shortest_path_action_settles st pis st' Hok Hsq Hspa) as [_ Hset].
  pose proof (shortest_path_action_ok st pis Hok) as Hok'. rewrite Hspa in Hok'.
  destruct (done_sentinel_unchanged st' pis' b sc' v' Hok' Hsc' Hp') as (sc'' & Hsc'' & Hun).
  - by rewrite Hmax.
  - done.
  - exact (proj1 (Forall_lookup _ _) Hset _ _ Hsc').
  - by exists sc', sc''.
Qed.

End Returning.


Lemma example_planned_settled :
  ∃ sc, scenarios Example.planned = [sc]
        ∧ current_routes (extra_data sc) = no_route (max_n_nodes Example.planned)
        ∧ current_route_time (extra_data sc) = Fin 0
        ∧ finished_routes sc = [[0; 1; 2]]
        ∧ settled (lib := Reference.lib) (symmetric_routes Example.planned) sc.
Proof.
  eexists. split; [vm_compute; reflexivity |]. repeat split; vm_compute; reflexivity.
Qed.



(** ** Finishing a route of one stop *)

(** The loop appends whatever route has a stop: a route of one stop
    too, in any scenario that is not done. *)
Lemma finish_route_one_stop sc u row :
  is_done sc = false → valid_stops row = [u] →
  finished_routes (finish_route sc true row).1 = finished_routes sc ++ [[u]]
  ∧ total_route_time (extra_data (finish_route sc true row).1)
    = ext_add (total_route_time (extra_data sc)) (current_route_time (extra_data sc))
  ∧ (finish_route sc true row).2 = no_route (length row).
Proof.
  intros Hdone Hrow. unfold finish_route. rewrite Hdone, Hrow. simpl.
  split; [done |]. split; [done | apply fmap_const_replicate].
Qed.

Lemma valid_stops_clamp (l : list Z) : valid_stops (Z.max (-1) <$> l) = valid_stops l.
Proof.
  unfold valid_stops. induction l as [| x l IH]; [done |]. csimpl.
  rewrite !filter_cons, IH. repeat case_decide; try lia; [f_equal; lia | done].
Qed.

Lemma valid_stops_padding (l : list Z) k : valid_stops (l ++ replicate k (-1)) = valid_stops l.
Proof.
  destruct (count_stops_0 (replicate k (-1)) (count_stops_no_route k)) as [_ Hpad].
  unfold valid_stops in *. rewrite filter_app, Hpad. apply app_nil_r.
Qed.

(** The vectorised parts of a scenario that is given the sentinel: the
    first part is its current route, the second part is empty. *)
Lemma sentinel_parts_any g :
  routes_are_done g = true → length (new_part g) = length (cur g) →
  first_parts g = cur g ∧ count_stops (second_parts g) = 0%nat.
Proof.
  intros Hdone Hlen. split.
  - unfold first_parts, chose_next, chose_prev, starting, extending.
    rewrite Hdone. simpl.
    apply list_eq. intros i. rewrite lookup_zip_with.
    destruct (cur g !! i) as [c |] eqn:Hc.
    + destruct (lookup_lt_is_Some_2 (new_part g) i) as [x ->].
      { rewrite Hlen. by eapply lookup_lt_Some. }
      simpl. rewrite !andb_false_r, orb_true_r. simpl. f_equal. lia.
    + by destruct (new_part g !! i).
  - apply count_stops_all_padding. unfold second_parts, chose_next, chose_prev, extending.
    rewrite Hdone. rewrite !andb_false_r. simpl.
    apply Forall_drop, Forall_lookup. intros i x Hx.
    apply lookup_zip_with_Some in Hx as (a & c & -> & _ & _). lia.
Qed.

Section OneStop.
Context {lib : GraphAlgorithms} {lib_ok : GraphAlgorithmsSpec lib}.

(** The row of the updated routes of a scenario that is given the
    sentinel and is not done: the stops of its current route. *)
Lemma updated_routes_sentinel_any st seqs pis upd b sc v :
  updated_routes st seqs pis = inr upd →
  length seqs = batch_size st →
  scenarios st !! b = Some sc → pis !! b = Some (-1, v) → is_done sc = false →
  ∃ row, upd !! b = Some row
         ∧ valid_stops row = valid_stops (current_routes (extra_data sc)).
Proof.
  intros Hupd Hlen Hsc Hp Hnot. unfold updated_routes in Hupd.
  set (width := max_n_nodes st) in *.
  case_bool_decide; simpl in Hupd; [| discriminate].
  destruct (mapM _ _) as [e | gs] eqn:Hgs; simpl in Hupd; [discriminate |].
  destruct (forallb valid_action gs); simpl in Hupd; [| discriminate].
  destruct (forallb _ gs) eqn:Hshape; simpl in Hupd; [| discriminate].
  destruct (masked_assign _ _ _) as [e | u1] eqn:Hu1; simpl in Hupd; [discriminate |].
  destruct (forallb _ u1); simpl in Hupd; [| discriminate].
  injection Hupd as <-.
  destruct (gathered_row st seqs pis gs b sc (-1) v Hlen Hgs Hsc Hp) as (sq & g & Hg & Hb).
  destruct (gather_fields _ _ _ _ Hg) as [Hcg Hpg].
  pose proof (forallb_lookup _ _ _ _ Hshape Hb) as Hsh.
  apply bool_decide_eq_true in Hsh as [Hnew _].
  assert (routes_are_done g = true) as Hdone by (unfold routes_are_done; by rewrite Hpg).
  destruct (sentinel_parts_any g Hdone Hnew) as (Hfirst & Hc2).
  assert (u1 !! b = Some (cur g ++ replicate (width - length (cur g)) (-1))) as Hrow.
  { erewrite masked_assign_lookup_false;
      [| exact Hu1 | | apply (slice_mask_empty width (count_stops (cur g)))].
    - rewrite !list_lookup_fmap, Hb. simpl. by rewrite Hfirst.
    - rewrite lookup_zip_with, !list_lookup_fmap, Hb. simpl.
      rewrite lookup_zip_with, !list_lookup_fmap, Hb. simpl.
      by rewrite Hfirst, Hc2, Nat.add_0_r. }
  eexists. split.
  { rewrite lookup_zip_with, Hsc. simpl. rewrite !list_lookup_fmap, Hrow. simpl.
    rewrite Hnot. reflexivity. }
  by rewrite valid_stops_clamp, valid_stops_padding, Hcg.
Qed.

(** A returning call that gives the sentinel to a scenario that is not
    done and has one stop in progress. *)
Lemma sentinel_appends_one_stop st pis st' b sc u v :
  state_ok st →
  shortest_path_action st pis = Ok st' →
  scenarios st !! b = Some sc → pis !! b = Some (-1, v) →
  is_done sc = false → valid_stops (current_routes (extra_data sc)) = [u] →
  ∃ sc', scenarios st' !! b = Some sc'
         ∧ finished_routes sc' = finished_routes sc ++ [[u]]
         ∧ total_route_time (extra_data sc')
           = ext_add (total_route_time (extra_data sc)) (current_route_time (extra_data sc))
         ∧ count_stops (current_routes (extra_data sc')) = 0%nat.
Proof.
  intros Hok Hspa Hsc Hp Hnot Hone. unfold shortest_path_action in Hspa.
  pose proof (memo_frame st) as Hframe. pose proof (memo_length st) as Hlen.
  pose proof (memo_same_network st) as Hnet.
  destruct (get_shortest_path_sequences st) as [st0 seqs]. simpl in *.
  destruct (Forall2_lookup_r _ _ _ _ _ Hframe Hsc) as (sc0 & Hsc0 & sps & ->).
  assert (length seqs = batch_size st0) as Hlen0.
  { rewrite Hlen. unfold batch_size. symmetry. by eapply Forall2_length. }
  destruct (updated_routes st0 seqs pis) as [e | upd] eqn:Hupd; [discriminate |].
  destruct (updated_routes_sentinel_any st0 seqs pis upd b _ v Hupd Hlen0 Hsc0 Hp Hnot)
    as (row & Hrow & Hstops).
  apply updated_routes_length in Hupd as [Hu Hpl]; [| done].
  set (sym := symmetric_routes st0) in *.
  set (scs1 := zip_with _ (zip (scenarios st0) pis) upd) in *.
  assert (Forall2 same_network scs1 (scenarios st)) as Hnet1.
  { eapply Forall2_same_network_trans; [| exact Hnet].
    apply apply_actions_same_network; unfold batch_size in *; congruence. }
  destruct (mapM times_from_start scs1) as [ncr |] eqn:Hncr; [| discriminate].
  apply mapM_Some_1, Forall2_length in Hncr.
  set (scs2 := zip_with _ scs1 ncr) in *.
  assert (Forall2 same_network scs2 (scenarios st)) as Hnet2.
  { eapply Forall2_same_network_trans; [| exact Hnet1].
    apply Forall2_zip_with_l; [congruence | intros; apply same_network_times]. }
  rewrite update_on_routes_returns in Hspa.
  2:{ by eapply state_ok_same_network. }
  2:{ by rewrite length_fmap. }
  injection Hspa as <-.
  set (sc0 := set_extra (set_shortest_path_sequences sps) sc) in *.
  set (sc1 := apply_action sym sc0 (-1, v) row).
  assert (scs1 !! b = Some sc1) as Hsc1.
  { unfold scs1. rewrite lookup_zip_with.
    rewrite (proj2 (lookup_zip_Some _ _ _ _ _) (conj Hsc0 Hp)). simpl. by rewrite Hrow. }
  destruct (lookup_lt_is_Some_2 ncr b) as [t Ht].
  { rewrite <- Hncr. by eapply lookup_lt_Some. }
  set (sc2 := set_extra (set_current_route_times_from_start t) sc1).
  assert (scs2 !! b = Some sc2) as Hsc2.
  { unfold scs2. by rewrite lookup_zip_with, Hsc1, Ht. }
  eexists. split.
  { simpl. rewrite lookup_zip_with, Hsc2. simpl. rewrite list_lookup_fmap, Hsc2. done. }
  destruct (finish_route_one_stop sc0 u row Hnot) as (Hfin & Htime & Hcleared).
  { by rewrite Hstops. }
  change (finished_routes (finish_route sc0 true row).1 = finished_routes sc ++ [[u]]
          ∧ total_route_time (extra_data (finish_route sc0 true row).1)
            = ext_add (total_route_time (extra_data sc)) (current_route_time (extra_data sc))
          ∧ count_stops (finish_route sc0 true row).2 = 0%nat).
  rewrite Hfin, Htime, Hcleared. repeat split. apply count_stops_no_route.
Qed.

End OneStop.


Lemma example_one_stop :
  reachable (lib := Reference.lib) one_stop
  ∧ current_routes ∘ extra_data <$> scenarios one_stop = [[0; -1; -1]]
  ∧ finished_routes <$> scenarios one_stop = [[]]
  ∧ is_done <$> scenarios one_stop = [false]
  ∧ shortest_path_action (lib := Reference.lib) one_stop [(-1, -1)] = Ok one_stop_done
  ∧ finished_routes <$> scenarios one_stop_done = [[[0]]]
  ∧ is_done <$> scenarios one_stop_done = [true].
Proof.
  split.
  { change (reachable (lib := Reference.lib)
              (final_state (shortest_path_action (lib := Reference.lib)
                              (Example.fresh Example.one_trip 1 None) [(0, 0)]))).
    apply reach_action, example_fresh_reachable, example_square_one_trip. }
  repeat split; vm_compute; reflexivity.
Qed.


(** * Further properties of the state *)

(** ** Lists of results *)

Lemma mapM_result_ok {A B} (f : A → result B) (l : list A) :
  Forall (λ x, ∃ y, f x = inr y) l →
  ∃ ys, mapM (M := result) f l = inr ys ∧ length ys = length l.
Proof.
  induction 1 as [| x l [y Hy] _ (ys & Hys & Hlen)].
  - by exists [].
  - exists (y :: ys). split; [| simpl; by rewrite Hlen].
    change (mapM f (x :: l)) with (y ← f x; k ← mapM f l; mret (y :: k)).
    by rewrite Hy, Hys.
Qed.

Lemma mapM_result_length {A B} (f : A → result B) (l : list A) ys :
  mapM (M := result) f l = inr ys → length ys = length l.
Proof.
  revert ys. induction l as [| x l IH]; intros ys H; simpl in H.
  - by injection H as <-.
  - destruct (f x); simpl in H; [discriminate |].
    destruct (mapM f l); simpl in H; [discriminate |]. injection H as <-.
    simpl. f_equal. by apply IH.
Qed.

(** ** Direct connections *)

Lemma existsb_lookup {A} (f : A → bool) (l : list A) i x :
  l !! i = Some x → f x = true → existsb f l = true.
Proof.
  revert i. induction l as [| y l IH]; intros i Hi Hx; [done |].
  simpl. destruct i as [| i]; simpl in Hi.
  - simplify_eq. by rewrite Hx.
  - rewrite (IH i Hi Hx). apply orb_true_r.
Qed.

Lemma scenario_ok_connected n sc i j :
  scenario_ok n sc → (i < n)%nat → (j < n)%nat →
  ∃ c r, mlookup (directly_connected (extra_data sc)) i j = Some c
         ∧ mlookup (route_mat (extra_data sc)) i j = Some r
         ∧ c = lt_inf r ∧ (i = j → c = true).
Proof.
  intros Hok Hi Hj.
  destruct (square_lookup _ _ _ _ (ok_connected _ _ Hok) Hi Hj) as [c Hc].
  destruct (square_lookup _ _ _ _ (ok_route_mat _ _ Hok) Hi Hj) as [r Hr].
  exists c, r. split; [done |]. split; [done |].
  assert (c = lt_inf r) as Hcr.
  { destruct c.
    - apply (ok_connected_iff _ _ Hok) in Hc as [q Hq]. rewrite Hq in Hr. by simplify_eq.
    - destruct r as [q |]; [| done].
      assert (mlookup (directly_connected (extra_data sc)) i j = Some true) as Ht.
      { apply (ok_connected_iff _ _ Hok). by exists q. }
      rewrite Ht in Hc. discriminate. }
  split; [done |]. intros ->.
  destruct (ok_diagonal _ _ Hok j Hj) as (q & Hq & _). rewrite Hq in Hr.
  by simplify_eq.
Qed.



Lemma any_over_rows_diagonal n (m : mat bool) :
  (0 < n)%nat → square n m →
  (∀ i, (i < n)%nat → mlookup m i i = Some true) →
  any_over_rows m = replicate n true.
Proof.
  intros Hpos [Hlen Hrows] Hdiag. unfold any_over_rows.
  assert (length (default [] (head m)) = n) as ->.
  { destruct m as [| row m]; [simpl in Hlen; lia |]. simpl.
    by inversion Hrows. }
  apply list_eq. intros j. rewrite list_lookup_fmap.
  destruct (decide (j < n)%nat) as [Hj | Hj].
  - rewrite lookup_seq_lt, lookup_replicate_2 by done. simpl. f_equal.
    specialize (Hdiag j Hj). unfold mlookup in Hdiag.
    destruct (m !! j) as [row |] eqn:Hrow; [| done]. simpl in Hdiag.
    eapply existsb_lookup; [exact Hrow |]. by rewrite Hdiag.
  - rewrite lookup_seq_ge by lia. simpl. symmetry. apply lookup_replicate_None. lia.
Qed.

Lemma any_over_columns_diagonal n (m : mat bool) :
  square n m →
  (∀ i, (i < n)%nat → mlookup m i i = Some true) →
  any_over_columns m = replicate n true.
Proof.
  intros [Hlen Hrows] Hdiag. unfold any_over_columns.
  apply list_eq. intros i. rewrite list_lookup_fmap.
  destruct (decide (i < n)%nat) as [Hi | Hi].
  - rewrite lookup_replicate_2 by done.
    specialize (Hdiag i Hi). unfold mlookup in Hdiag.
    destruct (m !! i) as [row |] eqn:Hrow; [| done]. simpl in *. f_equal.
    by eapply existsb_lookup.
  - rewrite lookup_ge_None_2 by lia. simpl. symmetry. apply lookup_replicate_None. lia.
Qed.



(** ** Clearing forgets the routes *)

Lemma same_network_nexts sc' sc :
  same_network sc' sc → route_nexts (extra_data sc') = route_nexts (extra_data sc).
Proof. intros H. apply same_network_fields in H. tauto. Qed.

Lemma nexts_square_same_network st' st :
  Forall2 same_network (scenarios st') (scenarios st) → nexts_square st → nexts_square st'.
Proof.
  intros H Hsq. unfold nexts_square in *.
  rewrite (max_n_nodes_same st' st) by by apply same_network_same_nodes.
  apply Forall_lookup. intros b sc' Hb.
  destruct (Forall2_lookup_l _ _ _ _ _ H Hb) as (sc & Hsc & Hsame).
  rewrite (same_network_nexts _ _ Hsame).
  exact (proj1 (Forall_lookup _ _) Hsq _ _ Hsc).
Qed.

Section Shapes.
Context {lib : GraphAlgorithms} {lib_ok : GraphAlgorithmsSpec lib}.

Lemma merged_square n sym sc routes :
  scenario_ok n sc → square n (route_mat (extra_data (merge_routes sym sc routes))).
Proof.
  intros Hok. simpl. apply square_mzip_with; [apply Hok |].
  pose proof (edge_matrix_square routes (drive_times (graph_data sc))
                (mean_stop_time (extra_data sc)) sym) as H.
  by rewrite (ok_drive _ _ Hok) in H.
Qed.

Lemma refreshed_nexts_square n sym a b sc routes :
  scenario_ok n sc →
  square n (route_nexts (extra_data (refresh_scenario sym a b sc routes))).
Proof.
  intros Hok.
  change (square n (floyd_warshall (route_mat (extra_data (merge_routes sym sc routes)))).1).
  by apply floyd_warshall_square, merged_square.
Qed.

Lemma update_on_routes_nexts_square st routes a b :
  state_ok st → nexts_square st →
  nexts_square (final_state (_update_on_routes st routes a b)).
Proof.
  intros Hok Hsq.
  destruct (decide (length routes = batch_size st)) as [Hlen | Hlen].
  - rewrite update_on_routes_returns by done. simpl.
    destruct Hok as [Hpos Hall]. unfold nexts_square.
    rewrite (max_n_nodes_same _ st) by by apply refreshed_same_nodes.
    simpl. apply Forall_lookup. intros i sc' Hi.
    apply lookup_zip_with_Some in Hi as (sc & r & -> & Hsc & _).
    apply refreshed_nexts_square.
    exact (proj1 (Forall_lookup _ _) Hall _ _ Hsc).
  - unfold _update_on_routes. by rewrite bool_decide_eq_false_2.
Qed.

Lemma shortest_path_action_nexts_square st pis :
  state_ok st → nexts_square st →
  nexts_square (final_state (shortest_path_action st pis)).
Proof.
  intros Hok Hsq.
  destruct (shortest_path_action_cases st pis)
    as [(e & st1 & -> & H & _) | (st2 & routes & -> & H & _)]; simpl.
  - by eapply nexts_square_same_network.
  - apply update_on_routes_nexts_square.
    + by eapply state_ok_same_network.
    + by eapply nexts_square_same_network.
Qed.

Lemma add_new_routes_nexts_square st new a b :
  state_ok st → nexts_square st →
  nexts_square (final_state (add_new_routes st new a b)).
Proof.
  intros Hok Hsq.
  destruct (add_new_routes_cases st new a b)
    as [(e & st1 & -> & H) | (st2 & -> & H & _)]; simpl.
  - by eapply nexts_square_same_network.
  - apply update_on_routes_nexts_square.
    + by eapply state_ok_same_network.
    + by eapply nexts_square_same_network.
Qed.

Lemma clear_helper_max_n_nodes st batch_index :
  max_n_nodes (_clear_routes_helper st batch_index) = max_n_nodes st.
Proof.
  unfold max_n_nodes, _clear_routes_helper. simpl. f_equal.
  apply list_eq. intros i. rewrite !list_lookup_fmap, list_lookup_imap.
  destruct (scenarios st !! i); simpl; [| done]. by case_bool_decide.
Qed.

Lemma clear_helper_nexts_square st batch_index :
  nexts_square st → nexts_square (_clear_routes_helper st batch_index).
Proof.
  intros Hsq. unfold nexts_square. rewrite clear_helper_max_n_nodes.
  unfold _clear_routes_helper. simpl.
  apply Forall_lookup. intros i sc' Hi. rewrite list_lookup_imap in Hi.
  destruct (scenarios st !! i) as [sc |] eqn:Hsc; simpl in Hi; [| done].
  pose proof (proj1 (Forall_lookup _ _) Hsq _ _ Hsc) as Hok.
  injection Hi as <-. case_bool_decide; [| done].
  simpl. by apply square_mmap.
Qed.

Lemma init_nexts_square graphs cost n_routes vts ws fixed st :
  __init__ graphs cost n_routes vts ws fixed = inr st → nexts_square st.
Proof.
  intros H. unfold __init__ in H.
  set (n := foldr Nat.max 0%nat (num_nodes <$> graphs)) in *.
  destruct (mapM _ _) as [e | eds] eqn:Heds; simpl in H; [discriminate |].
  injection H as <-.
  apply (init_scenarios _ _ _ _ _ _ _ 0%nat) in Heds.
  unfold nexts_square.
  assert (max_n_nodes
            {| symmetric_routes := CostModule.symmetric_routes (cost_base cost);
               scenarios :=
                 zip_with
                   (λ dd ed, {| graph_data := dd; finished_routes := []; extra_data := ed |})
                   graphs eds |} = n) as ->.
  { unfold max_n_nodes. simpl. by erewrite init_max_n_nodes. }
  simpl. apply Forall_lookup. intros i sc Hi.
  apply lookup_zip_with_Some in Hi as (dd & ed & -> & Hdd & Hed).
  destruct (Forall2_lookup_lr _ _ _ _ _ _ Heds Hdd Hed) as (ii & Hinit).
  apply init_extra_data_fields in Hinit as (_ & _ & _ & _ & _ & E & _).
  simpl. rewrite E. apply square_zeros_long.
Qed.

Lemma reachable_nexts_square st : reachable st → nexts_square st.
Proof.
  induction 1 as [graphs cost n_routes vts ws fixed st Hpad Hinit
                 | st pis Hr IH | st new a b Hr IH | st new a b Hr IH
                 | st Hr IH | st Hr IH].
  - by eapply init_nexts_square.
  - apply shortest_path_action_nexts_square; [by apply reachable_ok | done].
  - apply add_new_routes_nexts_square; [by apply reachable_ok | done].
  - unfold replace_routes. apply add_new_routes_nexts_square.
    + by apply clear_routes_helper_ok, reachable_ok.
    + by apply clear_helper_nexts_square.
  - by apply clear_helper_nexts_square.
  - unfold reset_dones. case_bool_decide; [| done]. by apply clear_helper_nexts_square.
Qed.

End Shapes.

Lemma append_loop_frame {lib : GraphAlgorithms} scs new :
  Forall2 (λ sc' sc, ∃ fr, sc' = set_finished_routes fr sc) (append_loop scs new).1 scs.
Proof.
  revert new. induction scs as [| sc scs IH]; intros new; simpl; [constructor |].
  destruct new as [| r new]; simpl.
  - apply Forall_Forall2_diag, Forall_forall. intros x _.
    exists (finished_routes x). by destruct x.
  - constructor; [by eexists | apply IH].
Qed.

Lemma clears_alike_nodes n sc' sc :
  clears_alike n sc' sc → same_nodes sc' sc.
Proof.
  unfold clears_alike, same_nodes. intros H.
  apply (f_equal (λ x, n_nodes_in_scenario (extra_data x))) in H. exact H.
Qed.

Section Forgetting.
Context {lib : GraphAlgorithms} {lib_ok : GraphAlgorithmsSpec lib}.

Lemma clear_derive n sym a b sc :
  square n (route_mat (extra_data sc)) →
  square n (route_nexts (extra_data sc)) → square n (n_transfers (extra_data sc)) →
  clears_alike n (derive sym a b sc) sc.
Proof.
  intros Hrm Hrn Hnt. unfold clears_alike, clear_scenario.
  change (graph_data (derive sym a b sc)) with (graph_data sc).
  unfold set_finished_routes, set_extra, with_mutable.
  change (graph_data (derive sym a b sc)) with (graph_data sc).
  f_equal.
  change (route_nexts (extra_data (derive sym a b sc)))
    with (floyd_warshall (route_mat (extra_data sc))).1.
  rewrite derive_n_transfers.
  rewrite (mmap_const_mbuild n 0 (route_nexts (extra_data sc))) by done.
  rewrite (mmap_const_mbuild n 0 (n_transfers (extra_data sc))) by done.
  rewrite (mmap_const_mbuild n 0 (floyd_warshall (route_mat (extra_data sc))).1)
    by by apply floyd_warshall_square.
  rewrite (mmap_const_mbuild n 0 (derived_transfers (route_mat (extra_data sc))))
    by by apply square_derived_transfers.
  reflexivity.
Qed.

Lemma clear_refresh n sym a b sc routes :
  scenario_ok n sc → square n (route_nexts (extra_data sc)) →
  clears_alike n (refresh_scenario sym a b sc routes) sc.
Proof.
  intros Hok Hsq. unfold clears_alike, refresh_scenario.
  rewrite clear_derive.
  - reflexivity.
  - by apply merged_square.
  - exact Hsq.
  - apply Hok.
Qed.

Lemma clear_routes_alike st' st :
  symmetric_routes st' = symmetric_routes st →
  Forall2 (clears_alike (max_n_nodes st)) (scenarios st') (scenarios st) →
  clear_routes st' = clear_routes st.
Proof.
  intros Hsym Hall.
  assert (max_n_nodes st' = max_n_nodes st) as Hmax.
  { apply max_n_nodes_same. eapply Forall2_impl; [exact Hall |].
    intros sc' sc. apply clears_alike_nodes. }
  unfold clear_routes, _clear_routes_helper, set_scenarios, batch_size. simpl.
  rewrite Hsym, Hmax. f_equal.
  rewrite (Forall2_length _ _ _ Hall).
  apply list_eq. intros i. rewrite !list_lookup_imap.
  destruct (scenarios st' !! i) as [sc' |] eqn:Hsc'.
  - destruct (Forall2_lookup_l _ _ _ _ _ Hall Hsc') as (sc & Hsc & Halike).
    rewrite Hsc. simpl. f_equal.
    assert (i ∈ seq 0 (length (scenarios st))) as Hi.
    { apply elem_of_seq. apply lookup_lt_Some in Hsc. lia. }
    rewrite !bool_decide_eq_true_2 by done. exact Halike.
  - apply lookup_ge_None in Hsc'. rewrite (Forall2_length _ _ _ Hall) in Hsc'.
    by rewrite (lookup_ge_None_2 (scenarios st) i).
Qed.

Lemma add_new_routes_clears_alike st new a b :
  state_ok st → nexts_square st →
  symmetric_routes (final_state (add_new_routes st new a b)) = symmetric_routes st
  ∧ Forall2 (clears_alike (max_n_nodes st))
            (scenarios (final_state (add_new_routes st new a b))) (scenarios st).
Proof.
  intros Hok Hsq. unfold add_new_routes.
  pose proof (append_loop_frame (scenarios st) new) as Hframe.
  pose proof (append_loop_same_network (scenarios st) new) as Hnet.
  assert (Forall2 (clears_alike (max_n_nodes st)) (append_loop (scenarios st) new).1
                  (scenarios st)) as Halike.
  { eapply Forall2_impl; [exact Hframe |]. by intros sc' sc [fr ->]. }
  destruct (append_loop (scenarios st) new) as [scs [e |]]; simpl in *; [done |].
  case_bool_decide as Hlen; simpl; [| done].
  set (scs1 := zip_with _ scs new).
  assert (Forall2 same_network scs1 (scenarios st)) as Hnet1.
  { eapply Forall2_same_network_trans; [| exact Hnet].
    apply Forall2_zip_with_l; [| intros; apply same_network_total].
    rewrite Hlen. unfold batch_size. symmetry. by eapply Forall2_length. }
  assert (state_ok (set_scenarios st scs1)) as Hok1 by by eapply state_ok_same_network.
  assert (length scs1 = length (scenarios st)) as Hlen1 by by eapply Forall2_length.
  rewrite update_on_routes_returns; [| done | unfold batch_size in *; simpl; lia].
  simpl. split; [done |].
  apply Forall2_same_length_lookup. split.
  { rewrite length_zip_with. unfold batch_size in Hlen. lia. }
  intros i sc' sc Hsc' Hsc.
  apply lookup_zip_with_Some in Hsc' as (sc1 & r & -> & Hsc1 & Hr).
  pose proof (Forall2_lookup_lr _ _ _ _ _ _ Hnet1 Hsc1 Hsc) as Hsame.
  assert (clears_alike (max_n_nodes st) sc1 sc) as H1.
  { unfold scs1 in Hsc1.
    apply lookup_zip_with_Some in Hsc1 as (sc0 & r0 & -> & Hsc0 & _).
    exact (Forall2_lookup_lr _ _ _ _ _ _ Halike Hsc0 Hsc). }
  unfold clears_alike in *. rewrite <- H1.
  apply (clear_refresh (max_n_nodes st)).
  - destruct Hok as [_ Hall].
    eapply scenario_ok_same_network; [exact Hsame |].
    exact (proj1 (Forall_lookup _ _) Hall _ _ Hsc).
  - rewrite (same_network_nexts _ _ Hsame).
    exact (proj1 (Forall_lookup _ _) Hsq _ _ Hsc).
Qed.

End Forgetting.

Lemma clear_scenario_idempotent {lib : GraphAlgorithms} n sc :
  clears_alike n (clear_scenario n sc) sc.
Proof.
  unfold clears_alike, clear_scenario, set_finished_routes, set_extra. simpl.
  f_equal. unfold with_mutable. simpl. unfold mmap.
  rewrite <- !list_fmap_compose. f_equal.
  - apply list_fmap_ext. intros i row _. simpl. by rewrite <- list_fmap_compose.
  - apply list_fmap_ext. intros i row _. simpl. by rewrite <- list_fmap_compose.
Qed.

Lemma clear_routes_idempotent {lib : GraphAlgorithms} {lib_ok : GraphAlgorithmsSpec lib} st :
  clear_routes (clear_routes st) = clear_routes st.
Proof.
  apply clear_routes_alike; [done |].
  unfold clear_routes, _clear_routes_helper. simpl.
  apply Forall2_imap_diag. intros i sc.
  case_bool_decide; [apply clear_scenario_idempotent | done].
Qed.



(** ** Resetting the scenarios that are done *)

Lemma elem_of_done_indices {lib : GraphAlgorithms} (scs : list Scenario) i :
  i ∈ omap (λ p : nat * Scenario, if is_done p.2 then Some p.1 else None) (imap pair scs)
  ↔ ∃ sc, scs !! i = Some sc ∧ is_done sc = true.
Proof.
  rewrite list_elem_of_omap. split.
  - intros ([j sc] & Hin & Hf). simpl in Hf.
    apply elem_of_lookup_imap in Hin as (k & x & Heq & Hk). injection Heq as -> ->.
    destruct (is_done x) eqn:Hd; [| discriminate]. injection Hf as <-. by exists x.
  - intros (sc & Hsc & Hd). exists (i, sc). split.
    + apply elem_of_lookup_imap. by exists i, sc.
    + simpl. by rewrite Hd.
Qed.

(** X4 (resetting): [reset_dones] clears exactly the scenarios that are
    done and leaves the others as they are; after it a scenario is done
    only if it has no route to plan. *)
Theorem reset_dones_clears_the_done {lib : GraphAlgorithms} (st : RouteGenBatchState) :
  scenarios (reset_dones st)
  = (λ sc, if is_done sc then clear_scenario (max_n_nodes st) sc else sc) <$> scenarios st
  ∧ symmetric_routes (reset_dones st) = symmetric_routes st
  ∧ Forall (λ sc, is_done sc = true → n_routes_to_plan (extra_data sc) = 0)
           (scenarios (reset_dones st)).
Proof.
  assert (scenarios (reset_dones st)
          = (λ sc, if is_done sc then clear_scenario (max_n_nodes st) sc else sc)
              <$> scenarios st) as Hscs.
  { unfold reset_dones.
    set (done := omap _ (imap pair (scenarios st))).
    assert (∀ i, i ∈ done ↔ ∃ sc, scenarios st !! i = Some sc ∧ is_done sc = true) as Hdone.
    { intros i. apply elem_of_done_indices. }
    case_bool_decide as Hany.
    - unfold _clear_routes_helper. simpl.
      apply list_eq. intros i. rewrite list_lookup_imap, list_lookup_fmap.
      destruct (scenarios st !! i) as [sc |] eqn:Hsc; simpl; [| done]. f_equal.
      case_bool_decide as Hin.
      + apply Hdone in Hin as (sc' & Hsc' & Hd). simplify_eq. by rewrite Hd.
      + destruct (is_done sc) eqn:Hd; [| done].
        exfalso. apply Hin, Hdone. by exists sc.
    - apply list_eq. intros i. rewrite list_lookup_fmap.
      destruct (scenarios st !! i) as [sc |] eqn:Hsc; simpl; [| done]. f_equal.
      destruct (is_done sc) eqn:Hd; [| done].
      exfalso. apply Hany.
      assert (i ∈ done) as Hin by (apply Hdone; by exists sc).
      destruct done; [by apply elem_of_nil in Hin | simpl; lia]. }
  split; [done |]. split.
  { unfold reset_dones. by case_bool_decide. }
  rewrite Hscs. apply Forall_fmap, Forall_forall. intros sc _. simpl.
  destruct (is_done sc) eqn:Hd.
  - unfold is_done, n_routes_left_to_plan, n_finished_routes. simpl.
    intros H. apply Z.eqb_eq in H. lia.
  - by rewrite Hd.
Qed.

(** ** The finished routes *)

Section Finished.
Context {lib : GraphAlgorithms}.

Lemma Forall2_finished_trans (l1 l2 l3 : list Scenario) :
  Forall2 (λ sc' sc, finished_routes sc' = finished_routes sc) l1 l2 →
  Forall2 (λ sc' sc, finished_routes sc' = finished_routes sc) l2 l3 →
  Forall2 (λ sc' sc, finished_routes sc' = finished_routes sc) l1 l3.
Proof. apply Forall2_trans. intros x y z Hxy Hyz. congruence. Qed.

Lemma update_on_routes_finished st routes a b :
  Forall2 (λ sc' sc, finished_routes sc' = finished_routes sc)
          (scenarios (final_state (_update_on_routes st routes a b))) (scenarios st).
Proof.
  unfold _update_on_routes.
  case_bool_decide as Hlen; simpl.
  2:{ by apply Forall_Forall2_diag, Forall_forall. }
  set (scs1 := zip_with (merge_routes (symmetric_routes st)) (scenarios st) routes).
  assert (Forall2 (λ sc' sc, finished_routes sc' = finished_routes sc) scs1 (scenarios st))
    as H1.
  { apply Forall2_zip_with_l; [done |]. by intros sc r. }
  match goal with |- context [connect_loop scs1 ?c ?e] =>
    pose proof (connect_loop_frame scs1 c e) as H2;
    destruct (connect_loop scs1 c e) as [scs2 [e' |]] end; simpl in *.
  - eapply Forall2_finished_trans; [| exact H1].
    eapply Forall2_impl; [exact H2 |]. by intros sc' sc [dc ->].
  - eapply Forall2_finished_trans; [| exact H1].
    apply Forall2_fmap_l.
    eapply Forall2_impl; [exact H2 |]. by intros sc' sc [dc ->].
Qed.

Lemma finish_route_finished sc sentinel row :
  finished_routes (finish_route sc sentinel row).1 = finished_routes sc
  ∨ (is_done sc = false ∧ sentinel = true ∧ valid_stops row ≠ []
     ∧ finished_routes (finish_route sc sentinel row).1
       = finished_routes sc ++ [valid_stops row]).
Proof.
  unfold finish_route. destruct (is_done sc), sentinel; simpl; try by left.
  case_bool_decide as Hlen; [| by left].
  right. repeat split; try done. intros E. rewrite E in Hlen. simpl in Hlen. lia.
Qed.

(** X5 (finished routes under an action): whatever [shortest_path_action]
    does, returning or raising, it keeps every scenario and its
    finished routes, in their order; it appends at most one route to a
    scenario, and only to a scenario that was not done and was given
    the sentinel; that route has at least one stop and no padding. *)
Theorem shortest_path_action_finished_routes (st : RouteGenBatchState)
    (path_indices : list (Z * Z)) :
  Forall2 (λ sc' sc,
             finished_routes sc' = finished_routes sc
             ∨ (is_done sc = false
                ∧ ∃ r, r ≠ [] ∧ Forall (λ x, -1 < x) r
                       ∧ finished_routes sc' = finished_routes sc ++ [r]))
          (scenarios (final_state (shortest_path_action st path_indices))) (scenarios st)
  ∧ ∀ b sc sc',
      scenarios st !! b = Some sc →
      scenarios (final_state (shortest_path_action st path_indices)) !! b = Some sc' →
      finished_routes sc' ≠ finished_routes sc →
      ∃ v, path_indices !! b = Some (-1, v).
Proof.
  set (R := λ (p : option (Z * Z)) (sc' sc : Scenario),
         finished_routes sc' = finished_routes sc
         ∨ (is_done sc = false ∧ (∃ v, p = Some (-1, v))
            ∧ ∃ r, r ≠ [] ∧ Forall (λ x, -1 < x) r
                   ∧ finished_routes sc' = finished_routes sc ++ [r])).
  assert (∀ b sc, scenarios st !! b = Some sc →
            ∃ sc', scenarios (final_state (shortest_path_action st path_indices)) !! b
                   = Some sc' ∧ R (path_indices !! b) sc' sc) as Hmain.
  { intros b sc Hsc. unfold shortest_path_action.
    pose proof (memo_frame st) as Hframe. pose proof (memo_length st) as Hlen.
    destruct (get_shortest_path_sequences st) as [st0 seqs]. simpl in *.
    destruct (Forall2_lookup_r _ _ _ _ _ Hframe Hsc) as (sc0 & Hsc0 & sps & ->).
    assert (length seqs = batch_size st0) as Hlen0.
    { rewrite Hlen. unfold batch_size. symmetry. by eapply Forall2_length. }
    destruct (updated_routes st0 seqs path_indices) as [e | upd] eqn:Hupd; simpl.
    { eexists. split; [exact Hsc0 |]. by left. }
    apply updated_routes_length in Hupd as [Hu Hpl]; [| done].
    destruct (lookup_lt_is_Some_2 path_indices b) as [p Hp].
    { apply lookup_lt_Some in Hsc0. unfold batch_size in *. lia. }
    destruct (lookup_lt_is_Some_2 upd b) as [row Hrow].
    { apply lookup_lt_Some in Hsc0. unfold batch_size in *. lia. }
    set (sym := symmetric_routes st0) in *.
    set (scs1 := zip_with _ (zip (scenarios st0) path_indices) upd).
    set (sc1 := apply_action sym (set_extra (set_shortest_path_sequences sps) sc) p row).
    assert (scs1 !! b = Some sc1) as Hsc1.
    { unfold scs1. rewrite lookup_zip_with.
      rewrite (proj2 (lookup_zip_Some _ _ _ _ _) (conj Hsc0 Hp)). simpl. by rewrite Hrow. }
    assert (R (Some p) sc1 sc) as HR.
    { unfold R, sc1, apply_action. simpl.
      destruct (finish_route_finished (set_extra (set_shortest_path_sequences sps) sc)
                  (p.1 =? -1) row) as [E | (Hd & Hs & Hne & E)]; [by left |].
      right. split; [exact Hd |]. split.
      { exists p.2. destruct p as [u v]. simpl in *. apply Z.eqb_eq in Hs. by subst. }
      exists (valid_stops row). split; [done |]. split; [| exact E].
      unfold valid_stops. apply Forall_forall. intros x Hx.
      by apply list_elem_of_filter in Hx as [Hx _]. }
    rewrite Hp.
    destruct (mapM times_from_start scs1) as [ncr |] eqn:Hncr; simpl.
    2:{ by exists sc1. }
    apply mapM_Some_1, Forall2_length in Hncr.
    destruct (lookup_lt_is_Some_2 ncr b) as [t Ht].
    { rewrite <- Hncr. by eapply lookup_lt_Some. }
    set (scs2 := zip_with _ scs1 ncr).
    assert (scs2 !! b = Some (set_extra (set_current_route_times_from_start t) sc1)) as Hsc2.
    { unfold scs2. by rewrite lookup_zip_with, Hsc1, Ht. }
    match goal with |- context [_update_on_routes ?s ?r ?x ?y] =>
      pose proof (update_on_routes_finished s r x y) as Hfin end.
    simpl in Hfin.
    destruct (Forall2_lookup_r _ _ _ _ _ Hfin Hsc2) as (sc' & Hsc' & E).
    exists sc'. split; [exact Hsc' |].
    unfold R in *. rewrite E. exact HR. }
  assert (length (scenarios (final_state (shortest_path_action st path_indices)))
          = length (scenarios st)) as Hlength.
  { destruct (shortest_path_action_cases st path_indices)
      as [(e & st1 & -> & H & _) | (st2 & routes & -> & H & _)]; simpl.
    - by eapply Forall2_length.
    - rewrite (Forall2_length _ _ _ (update_on_routes_finished st2 routes false false)).
      by eapply Forall2_length. }
  split.
  - apply Forall2_same_length_lookup. split; [done |].
    intros b sc' sc Hsc' Hsc.
    destruct (Hmain b sc Hsc) as (sc'' & Hsc'' & [E | (Hd & _ & Hr)]); simplify_eq;
      [by left | by right].
  - intros b sc sc' Hsc Hsc' Hne.
    destruct (Hmain b sc Hsc) as (sc'' & Hsc'' & [E | (_ & Hs & _)]); simplify_eq; done.
Qed.

End Finished.

Section Adding.
Context {lib : GraphAlgorithms}.

Lemma append_loop_lookup scs new bi sc :
  scs !! bi = Some sc →
  ∃ sc', (append_loop scs new).1 !! bi = Some sc'
         ∧ finished_routes sc' = finished_routes sc ++ kept_routes (default [] (new !! bi)).
Proof.
  revert new bi. induction scs as [| sc0 scs IH]; intros new bi Hbi; [done |].
  destruct new as [| r new]; simpl.
  - exists sc. split; [done |]. by rewrite app_nil_r.
  - destruct bi as [| bi]; simpl in *.
    + simplify_eq. by eexists.
    + by apply IH.
Qed.

Lemma append_loop_error scs new :
  (append_loop scs new).2
  = if bool_decide (length new < length scs)%nat then Some IndexError else None.
Proof.
  revert new. induction scs as [| sc scs IH]; intros new.
  - destruct (bool_decide _) eqn:E; [apply bool_decide_eq_true in E; simpl in E; lia | done].
  - destruct new as [| r new].
    + destruct (bool_decide _) eqn:E; [done |].
      apply bool_decide_eq_false in E. simpl in E. lia.
    + cbn [append_loop snd]. rewrite IH.
      destruct (bool_decide (length new < length scs)%nat) eqn:E1;
        destruct (bool_decide (length (r :: new) < length (sc :: scs))%nat) eqn:E2;
        try done.
      * apply bool_decide_eq_true in E1. apply bool_decide_eq_false in E2. simpl in E2. lia.
      * apply bool_decide_eq_false in E1. apply bool_decide_eq_true in E2. simpl in E2. lia.
Qed.

Lemma kept_routes_long (new_routes : mat Z) :
  Forall (λ r, (2 ≤ length r)%nat
               ∧ ∃ route, route ∈ new_routes ∧ r = take (count_stops route) route)
         (kept_routes new_routes).
Proof.
  apply Forall_forall. intros r Hr. unfold kept_routes in Hr.
  apply list_elem_of_omap in Hr as (route & Hin & Hf).
  case_bool_decide as Hlen; [discriminate |]. injection Hf as <-.
  split; [| by exists route].
  rewrite length_take.
  assert (count_stops route ≤ length route)%nat; [| lia].
  unfold count_stops. apply length_filter.
Qed.


End Adding.

(** ** Starting and finishing a route *)

Lemma Qplus_0_r_eq (q : Q) : (q + 0)%Q = q.
Proof.
  destruct q as [n d]. unfold Qplus. simpl.
  rewrite Z.mul_1_r, Z.add_0_r, Pos.mul_1_r. done.
Qed.

Lemma ext_add_0_r x : ext_add x (Fin 0) = x.
Proof. destruct x as [q |]; simpl; [by rewrite Qplus_0_r_eq | done]. Qed.

Lemma gather_new_part sc seqs pidx g :
  gather sc seqs pidx = inr g →
  ∃ path, tindex2 seqs pidx.1 pidx.2 = Some path
          ∧ new_part g
            = path ++ replicate (length (current_routes (extra_data sc)) - length path) (-1)
          ∧ tindex (current_routes (extra_data sc)) 0 = Some (cur_first g).
Proof.
  unfold gather. cbv [mbind result_bind mret result_ret raise index_or_raise].
  intros H. repeat case_match; simplify_eq. simpl. by eexists.
Qed.

(** The vectorised parts of a scenario that starts a route: the first
    part is the new path, the second part is empty. *)
Lemma starting_parts g :
  starting g = true → length (new_part g) = length (cur g) →
  first_parts g = new_part g ∧ count_stops (second_parts g) = 0%nat.
Proof.
  intros Hstart Hlen.
  assert (routes_are_done g = false) as Hdone.
  { unfold starting in Hstart. apply andb_true_iff in Hstart as [_ H].
    by apply negb_true_iff in H. }
  split.
  - unfold first_parts, chose_next, chose_prev, extending.
    rewrite Hstart, Hdone. simpl.
    apply list_eq. intros i. rewrite lookup_zip_with.
    destruct (new_part g !! i) as [x |] eqn:Hx; [| done].
    destruct (lookup_lt_is_Some_2 (cur g) i) as [c ->].
    { rewrite <- Hlen. by eapply lookup_lt_Some. }
    simpl. f_equal. lia.
  - apply count_stops_all_padding. unfold second_parts, chose_next, chose_prev, extending.
    rewrite Hstart. simpl.
    apply Forall_drop, Forall_lookup. intros i x Hx.
    apply lookup_zip_with_Some in Hx as (a & c & -> & _ & _). lia.
Qed.

Section Routes.
Context {lib : GraphAlgorithms} {lib_ok : GraphAlgorithmsSpec lib}.

Lemma updated_routes_starting st seqs pis upd b sc u v :
  updated_routes st seqs pis = inr upd →
  length seqs = batch_size st →
  scenarios st !! b = Some sc → pis !! b = Some (u, v) → u ≠ -1 →
  is_done sc = false → no_current_route (current_routes (extra_data sc)) →
  ∃ sq path row,
    seqs !! b = Some sq ∧ tindex2 sq u v = Some path ∧ upd !! b = Some row
    ∧ valid_stops row = valid_stops path.
Proof.
  intros Hupd Hlen Hsc Hp Hu Hnot Hnone. unfold updated_routes in Hupd.
  set (width := max_n_nodes st) in *.
  case_bool_decide; simpl in Hupd; [| discriminate].
  destruct (mapM _ _) as [e | gs] eqn:Hgs; simpl in Hupd; [discriminate |].
  destruct (forallb valid_action gs); simpl in Hupd; [| discriminate].
  destruct (forallb _ gs) eqn:Hshape; simpl in Hupd; [| discriminate].
  destruct (masked_assign _ _ _) as [e | u1] eqn:Hu1; simpl in Hupd; [discriminate |].
  destruct (forallb _ u1); simpl in Hupd; [| discriminate].
  injection Hupd as <-.
  destruct (lookup_lt_is_Some_2 seqs b) as [sq Hsq].
  { rewrite Hlen. by eapply lookup_lt_Some. }
  apply mapM_result_Forall2 in Hgs.
  assert (zip (scenarios st) (zip seqs pis) !! b = Some (sc, (sq, (u, v)))) as Hz.
  { apply lookup_zip_Some. split; [done |]. by apply lookup_zip_Some. }
  destruct (Forall2_lookup_l _ _ _ _ _ Hgs Hz) as (g & Hb & Hg). simpl in Hg.
  destruct (gather_fields _ _ _ _ Hg) as [Hcg Hpg].
  destruct (gather_new_part _ _ _ _ Hg) as (path & Hpath & Hnew & Hfirst). simpl in Hpath.
  pose proof (forallb_lookup _ _ _ _ Hshape Hb) as Hsh.
  apply bool_decide_eq_true in Hsh as [Hnewlen _].
  assert (starting g = true) as Hstart.
  { unfold starting, routes_are_done. rewrite Hpg. simpl.
    unfold no_current_route in Hnone. rewrite Hnone in Hfirst. injection Hfirst as <-.
    rewrite (proj2 (Z.eqb_neq u (-1))) by done. done. }
  destruct (starting_parts g Hstart Hnewlen) as (Hfp & Hc2).
  assert (u1 !! b = Some (new_part g ++ replicate (width - length (new_part g)) (-1)))
    as Hrow.
  { erewrite masked_assign_lookup_false;
      [| exact Hu1 | | apply (slice_mask_empty width (count_stops (new_part g)))].
    - rewrite !list_lookup_fmap, Hb. simpl. by rewrite Hfp.
    - rewrite lookup_zip_with, !list_lookup_fmap, Hb. simpl.
      rewrite lookup_zip_with, !list_lookup_fmap, Hb. simpl.
      by rewrite Hfp, Hc2, Nat.add_0_r. }
  exists sq, path. eexists. split; [done |]. split; [done |]. split.
  { rewrite lookup_zip_with, Hsc. simpl. rewrite !list_lookup_fmap, Hrow. simpl.
    rewrite Hnot. reflexivity. }
  by rewrite valid_stops_clamp, valid_stops_padding, Hnew, valid_stops_padding.
Qed.

(** What a returning call leaves of scenario [b], given the row of its
    updated route. *)
Lemma returned_scenario st pis st' b sc :
  state_ok st →
  shortest_path_action st pis = Ok st' →
  scenarios st !! b = Some sc →
  ∃ sps p row seqs upd,
    let st0 := (get_shortest_path_sequences st).1 in
    let sc0 := set_extra (set_shortest_path_sequences sps) sc in
    scenarios st0 !! b = Some sc0
    ∧ updated_routes st0 (get_shortest_path_sequences st).2 pis = inr upd
    ∧ seqs = (get_shortest_path_sequences st).2
    ∧ length seqs = batch_size st0
    ∧ pis !! b = Some p ∧ upd !! b = Some row
    ∧ ∃ sc', scenarios st' !! b = Some sc'
             ∧ finished_routes sc' = finished_routes (finish_route sc0 (p.1 =? -1) row).1
             ∧ total_route_time (extra_data sc')
               = total_route_time (extra_data (finish_route sc0 (p.1 =? -1) row).1)
             ∧ current_routes (extra_data sc') = (finish_route sc0 (p.1 =? -1) row).2
             ∧ current_route_time (extra_data sc')
               = get_total_route_time (symmetric_routes st)
                   (finish_route sc0 (p.1 =? -1) row).1
                   [(finish_route sc0 (p.1 =? -1) row).2].
Proof.
  intros Hok Hspa Hsc. unfold shortest_path_action in Hspa.
  pose proof (memo_frame st) as Hframe. pose proof (memo_length st) as Hlen.
  pose proof (memo_same_network st) as Hnet.
  assert (symmetric_routes (get_shortest_path_sequences st).1 = symmetric_routes st) as Hsym.
  { unfold get_shortest_path_sequences. by case_bool_decide. }
  destruct (get_shortest_path_sequences st) as [st0 seqs]. simpl in *.
  destruct (Forall2_lookup_r _ _ _ _ _ Hframe Hsc) as (sc0 & Hsc0 & sps & ->).
  assert (length seqs = batch_size st0) as Hlen0.
  { rewrite Hlen. unfold batch_size. symmetry. by eapply Forall2_length. }
  destruct (updated_routes st0 seqs pis) as [e | upd] eqn:Hupd; [discriminate |].
  pose proof Hupd as Hupd'.
  apply updated_routes_length in Hupd as [Hu Hpl]; [| done].
  destruct (lookup_lt_is_Some_2 pis b) as [p Hp].
  { apply lookup_lt_Some in Hsc0. unfold batch_size in *. lia. }
  destruct (lookup_lt_is_Some_2 upd b) as [row Hrow].
  { apply lookup_lt_Some in Hsc0. unfold batch_size in *. lia. }
  rewrite <- Hsym.
  set (sym := symmetric_routes st0) in *.
  set (scs1 := zip_with _ (zip (scenarios st0) pis) upd) in *.
  assert (Forall2 same_network scs1 (scenarios st)) as Hnet1.
  { eapply Forall2_same_network_trans; [| exact Hnet].
    apply apply_actions_same_network; unfold batch_size in *; congruence. }
  destruct (mapM times_from_start scs1) as [ncr |] eqn:Hncr; [| discriminate].
  apply mapM_Some_1, Forall2_length in Hncr.
  set (scs2 := zip_with _ scs1 ncr) in *.
  assert (Forall2 same_network scs2 (scenarios st)) as Hnet2.
  { eapply Forall2_same_network_trans; [| exact Hnet1].
    apply Forall2_zip_with_l; [congruence | intros; apply same_network_times]. }
  rewrite update_on_routes_returns in Hspa.
  2:{ by eapply state_ok_same_network. }
  2:{ by rewrite length_fmap. }
  injection Hspa as <-.
  set (sc0 := set_extra (set_shortest_path_sequences sps) sc) in *.
  set (sc1 := apply_action sym sc0 p row).
  assert (scs1 !! b = Some sc1) as Hsc1.
  { unfold scs1. rewrite lookup_zip_with.
    rewrite (proj2 (lookup_zip_Some _ _ _ _ _) (conj Hsc0 Hp)). simpl. by rewrite Hrow. }
  destruct (lookup_lt_is_Some_2 ncr b) as [t Ht].
  { rewrite <- Hncr. by eapply lookup_lt_Some. }
  set (sc2 := set_extra (set_current_route_times_from_start t) sc1).
  assert (scs2 !! b = Some sc2) as Hsc2.
  { unfold scs2. by rewrite lookup_zip_with, Hsc1, Ht. }
  exists sps, p, row, seqs, upd.
  split; [done |]. split; [done |]. split; [done |]. split; [done |].
  split; [done |]. split; [done |].
  eexists. split.
  { simpl. rewrite lookup_zip_with, Hsc2. simpl. rewrite list_lookup_fmap, Hsc2. done. }
  by repeat split.
Qed.

End Routes.

Lemma finish_route_extending sc row :
  finish_route sc false row = (sc, if is_done sc then (λ _, -1) <$> row else row).
Proof.
  unfold finish_route. rewrite andb_false_r, orb_false_r. done.
Qed.

Lemma finish_route_nonempty sc row :
  is_done sc = false → valid_stops row ≠ [] →
  finished_routes (finish_route sc true row).1 = finished_routes sc ++ [valid_stops row]
  ∧ total_route_time (extra_data (finish_route sc true row).1)
    = ext_add (total_route_time (extra_data sc)) (current_route_time (extra_data sc))
  ∧ (finish_route sc true row).2 = no_route (length row).
Proof.
  intros Hdone Hrow. unfold finish_route. rewrite Hdone. simpl.
  rewrite bool_decide_eq_true_2.
  2:{ destruct (valid_stops row); [done | simpl; lia]. }
  simpl. split; [done |]. split; [done | apply fmap_const_replicate].
Qed.





(** ** The valid terminal pairs after a refresh *)

Lemma mlookup_mbuild_Some {A} n (f : nat → nat → A) i j x :
  mlookup (mbuild n f) i j = Some x → (i < n)%nat ∧ (j < n)%nat ∧ x = f i j.
Proof.
  intros H. destruct (mlookup_lt _ _ _ _ _ (square_mbuild n f) H) as [Hi Hj].
  rewrite mlookup_mbuild in H by done. by simplify_eq.
Qed.

Lemma symmetric_part_symmetric (m : mat bool) i j :
  mlookup (mzip_with andb m (mtranspose false m)) i j = Some true →
  mlookup (mzip_with andb m (mtranspose false m)) j i = Some true.
Proof.
  rewrite !mlookup_mzip_with. intros H.
  destruct (mlookup m i j) as [x |] eqn:Hx; simpl in H; [| done].
  destruct (mlookup (mtranspose false m) i j) as [y |] eqn:Hy; simpl in H; [| done].
  injection H as H. apply andb_true_iff in H as [-> ->].
  unfold mtranspose in *.
  apply mlookup_mbuild_Some in Hy as (Hi & Hj & Hji).
  destruct (mlookup m j i) as [z |] eqn:Hz; simpl in Hji; [subst z | done].
  simpl. rewrite mlookup_mbuild by done. by rewrite Hx.
Qed.

Lemma symmetric_part_false (m : mat bool) i j :
  mlookup m i j = Some false →
  mlookup (mzip_with andb m (mtranspose false m)) i j ≠ Some true.
Proof.
  rewrite mlookup_mzip_with. intros ->. simpl.
  destruct (mlookup (mtranspose false m) i j); simpl; congruence.
Qed.

Lemma mlookup_mask_fill_true {A} (value : A) (t : mat A) (mask : mat bool) i j x :
  mlookup mask i j = Some true → mlookup (mask_fill value t mask) i j = Some x → x = value.
Proof.
  unfold mask_fill. rewrite mlookup_mzip_with. intros ->.
  destruct (mlookup t i j); simpl; congruence.
Qed.

Section ValidTerminals.
Context {lib : GraphAlgorithms} {lib_ok : GraphAlgorithmsSpec lib}.

Lemma derive_keeps_connections sym a b sc :
  directly_connected (extra_data (derive sym a b sc)) = directly_connected (extra_data sc).
Proof. reflexivity. Qed.

Lemma derive_symmetric_terminals a b sc i j :
  mlookup (valid_terms_mat (extra_data (derive true a b sc))) i j = Some true →
  mlookup (valid_terms_mat (extra_data (derive true a b sc))) j i = Some true.
Proof.
  unfold derive, set_extra, set_derived, with_mutable.
  cbn [extra_data valid_terms_mat]. apply symmetric_part_symmetric.
Qed.

Lemma derive_unconnected_terminals sym a sc i j :
  mlookup (directly_connected (extra_data sc)) i j = Some true →
  mlookup (valid_terms_mat (extra_data (derive sym a true sc))) i j ≠ Some true.
Proof.
  intros Hdc. unfold derive, set_extra, set_derived, with_mutable.
  cbn [extra_data valid_terms_mat].
  match goal with |- context [mask_fill false ?t ?m] =>
    generalize t; intros vt1 end.
  assert (mlookup (mask_fill false vt1 (directly_connected (extra_data sc))) i j
          ≠ Some true) as Hfill.
  { intros H. by apply (mlookup_mask_fill_true _ _ _ _ _ _ Hdc) in H. }
  destruct sym; [| exact Hfill].
  destruct (mlookup (mask_fill false vt1 (directly_connected (extra_data sc))) i j)
    as [[|] |] eqn:E; [done | by apply symmetric_part_false |].
  rewrite mlookup_mzip_with, E. done.
Qed.

Lemma update_on_routes_terminals st routes a b st' :
  state_ok st → _update_on_routes st routes a b = Ok st' →
  Forall (terminals_ok (symmetric_routes st) b) (scenarios st').
Proof.
  intros Hok E.
  destruct (decide (length routes = batch_size st)) as [Hlen | Hlen].
  2:{ unfold _update_on_routes in E. by rewrite bool_decide_eq_false_2 in E. }
  rewrite update_on_routes_returns in E by done. injection E as <-.
  simpl. apply Forall_lookup. intros k sc' Hk.
  apply lookup_zip_with_Some in Hk as (sc & r & -> & _ & _).
  intros i j. unfold refresh_scenario. split.
  - intros ->. apply derive_symmetric_terminals.
  - intros ->. rewrite derive_keeps_connections. apply derive_unconnected_terminals.
Qed.


End ValidTerminals.


(** ** The stored shortest-path sequences *)

Lemma memo_kept_refl l : memo_kept l l.
Proof. apply Forall_forall. intros sc Hsc. by exists sc. Qed.

Lemma memo_kept_trans l1 l2 l3 : memo_kept l1 l2 → memo_kept l2 l3 → memo_kept l1 l3.
Proof.
  intros H12 H23. apply Forall_forall. intros sc1 H1.
  destruct (proj1 (Forall_forall _ _) H12 _ H1) as (sc2 & H2 & [Hg Hm]).
  destruct (proj1 (Forall_forall _ _) H23 _ H2) as (sc3 & H3 & [Hg' Hm']).
  exists sc3. split; [done |]. split; congruence.
Qed.

Lemma memo_kept_Forall2 l' l : Forall2 same_memo l' l → memo_kept l' l.
Proof.
  intros H. apply Forall_lookup. intros i sc' Hi.
  destruct (Forall2_lookup_l _ _ _ _ _ H Hi) as (sc & Hsc & Hsame).
  exists sc. split; [by eapply list_elem_of_lookup_2 | done].
Qed.

Lemma memo_kept_zip_with {B} (f : Scenario → B → Scenario) l (k : list B) :
  (∀ sc y, same_memo (f sc y) sc) → memo_kept (zip_with f l k) l.
Proof.
  intros Hf. apply Forall_lookup. intros i sc' Hi.
  apply lookup_zip_with_Some in Hi as (sc & y & -> & Hsc & _).
  exists sc. split; [by eapply list_elem_of_lookup_2 | apply Hf].
Qed.

Lemma memo_kept_fmap (f : Scenario → Scenario) l :
  (∀ sc, same_memo (f sc) sc) → memo_kept (f <$> l) l.
Proof.
  intros Hf. apply Forall_fmap, Forall_forall. intros sc Hsc. by exists sc.
Qed.

Section Memo.
Context {lib : GraphAlgorithms}.

Lemma memo_fresh_kept st' st :
  memo_kept (scenarios st') (scenarios st) → memo_fresh st → memo_fresh st'.
Proof.
  intros Hkept [H | H]; [left | right]; apply Forall_forall; intros sc' Hsc';
    destruct (proj1 (Forall_forall _ _) Hkept _ Hsc') as (sc & Hsc & [Hg Hm]);
    pose proof (proj1 (Forall_forall _ _) H _ Hsc) as E; simpl in E; congruence.
Qed.

Lemma update_on_routes_memo st routes a b :
  memo_kept (scenarios (final_state (_update_on_routes st routes a b))) (scenarios st).
Proof.
  unfold _update_on_routes. case_bool_decide as Hlen; simpl; [| apply memo_kept_refl].
  set (scs1 := zip_with (merge_routes (symmetric_routes st)) (scenarios st) routes).
  assert (memo_kept scs1 (scenarios st)) as H1.
  { apply memo_kept_zip_with. by intros sc r. }
  match goal with |- context [connect_loop scs1 ?c ?e] =>
    pose proof (connect_loop_frame scs1 c e) as H2;
    destruct (connect_loop scs1 c e) as [scs2 [e' |]] end; simpl in *.
  - eapply memo_kept_trans; [| exact H1].
    apply memo_kept_Forall2. eapply Forall2_impl; [exact H2 |]. by intros sc' sc [dc ->].
  - eapply memo_kept_trans; [| eapply memo_kept_trans; [| exact H1]].
    + apply memo_kept_fmap. by intros sc.
    + apply memo_kept_Forall2. eapply Forall2_impl; [exact H2 |].
      by intros sc' sc [dc ->].
Qed.

Lemma append_loop_memo scs new : Forall2 same_memo (append_loop scs new).1 scs.
Proof.
  revert new. induction scs as [| sc scs IH]; intros new; simpl; [constructor |].
  destruct new as [| r new]; simpl.
  - by apply Forall_Forall2_diag, Forall_forall.
  - constructor; [done | apply IH].
Qed.

Lemma add_new_routes_memo st new a b :
  memo_kept (scenarios (final_state (add_new_routes st new a b))) (scenarios st).
Proof.
  unfold add_new_routes.
  pose proof (append_loop_memo (scenarios st) new) as H0.
  apply memo_kept_Forall2 in H0.
  destruct (append_loop (scenarios st) new) as [scs [e |]]; simpl in H0; [done |].
  case_bool_decide as Hlen; simpl; [| done].
  eapply memo_kept_trans; [apply update_on_routes_memo |]. simpl.
  eapply memo_kept_trans; [| exact H0].
  apply memo_kept_zip_with. by intros sc r.
Qed.

Lemma clear_helper_memo st batch_index :
  memo_kept (scenarios (_clear_routes_helper st batch_index)) (scenarios st).
Proof.
  unfold _clear_routes_helper. simpl. apply memo_kept_Forall2, Forall2_imap_diag.
  intros i sc. by case_bool_decide.
Qed.

(** The call fills the memo, or finds it filled. *)
Lemma memo_fresh_filled st :
  memo_fresh st →
  memo_fresh (get_shortest_path_sequences st).1
  ∧ (get_shortest_path_sequences st).2
    = (λ sc, (reconstruct_all_paths (nexts (graph_data sc))).1) <$> scenarios st.
Proof.
  intros Hfresh. unfold get_shortest_path_sequences.
  case_bool_decide as Hempty; simpl.
  - split.
    + right. simpl. apply Forall_fmap, Forall_forall. by intros sc _.
    + rewrite <- list_fmap_compose. by apply list_fmap_ext.
  - destruct Hfresh as [Hnone | Hall].
    + exfalso. apply Hempty. clear Hempty.
      induction Hnone as [| sc scs Hsc _ IH]; [done |]. csimpl. by rewrite Hsc, IH.
    + split; [by right |]. apply list_fmap_ext. intros i sc Hsc.
      exact (proj1 (Forall_lookup _ _) Hall _ _ Hsc).
Qed.

Lemma shortest_path_action_memo st pis :
  memo_fresh st → memo_fresh (final_state (shortest_path_action st pis)).
Proof.
  intros Hfresh. destruct (memo_fresh_filled st Hfresh) as [H0 _].
  unfold shortest_path_action.
  destruct (get_shortest_path_sequences st) as [st0 seqs]. simpl in *.
  destruct (updated_routes st0 seqs pis) as [e | u]; [done |].
  set (scs1 := zip_with _ (zip (scenarios st0) pis) u).
  assert (memo_kept scs1 (scenarios st0)) as H1.
  { apply Forall_lookup. intros i sc' Hi.
    apply lookup_zip_with_Some in Hi as ([sc p] & row & -> & Hsc & _).
    apply lookup_zip_Some in Hsc as [Hsc _].
    exists sc. split; [by eapply list_elem_of_lookup_2 |].
    unfold apply_action, finish_route. simpl.
    destruct (negb (is_done sc) && (p.1 =? -1)); [| done]. by case_bool_decide. }
  destruct (mapM times_from_start scs1) as [ncr |]; simpl.
  - eapply memo_fresh_kept; [| exact H0].
    eapply memo_kept_trans; [apply update_on_routes_memo |]. simpl.
    eapply memo_kept_trans; [| exact H1].
    apply memo_kept_zip_with. by intros sc t.
  - by eapply memo_fresh_kept.
Qed.

Lemma init_extra_data_memo n cost vts nrs ws fixed ii dd ed :
  init_extra_data n cost vts nrs ws fixed ii dd = inr ed →
  shortest_path_sequences ed = [].
Proof.
  unfold init_extra_data.
  cbv [mbind result_bind mret result_ret raise index_or_raise].
  intros H. repeat case_match; simplify_eq; done.
Qed.

Lemma reachable_memo_fresh st : reachable st → memo_fresh st.
Proof.
  induction 1 as [graphs cost n_routes vts ws fixed st Hpad Hinit
                 | st pis Hr IH | st new a b Hr IH | st new a b Hr IH
                 | st Hr IH | st Hr IH].
  - left. unfold __init__ in Hinit.
    destruct (mapM _ _) as [e | eds] eqn:Heds; simpl in Hinit; [discriminate |].
    injection Hinit as <-. apply (init_scenarios _ _ _ _ _ _ _ 0%nat) in Heds.
    simpl. apply Forall_lookup. intros i sc Hi.
    apply lookup_zip_with_Some in Hi as (dd & ed & -> & Hdd & Hed).
    destruct (Forall2_lookup_lr _ _ _ _ _ _ Heds Hdd Hed) as (ii & Hii).
    simpl. by eapply init_extra_data_memo.
  - by apply shortest_path_action_memo.
  - eapply memo_fresh_kept; [apply add_new_routes_memo | exact IH].
  - unfold replace_routes. eapply memo_fresh_kept; [apply add_new_routes_memo |].
    eapply memo_fresh_kept; [apply clear_helper_memo | exact IH].
  - eapply memo_fresh_kept; [apply clear_helper_memo | exact IH].
  - unfold reset_dones. case_bool_decide; [| exact IH].
    eapply memo_fresh_kept; [apply clear_helper_memo | exact IH].
Qed.


End Memo.


(** ** Clearing a state that was just constructed *)

Lemma init_extra_data_clear n cost vts nrs ws fixed ii dd ed :
  init_extra_data n cost vts nrs ws fixed ii dd = inr ed →
  with_mutable ed (base_valid_terms_mat ed) (Fin 0) (eye n)
    (initial_times n) (initial_times n) (eye n)
    ((λ _, -1) <$> current_routes ed) (Fin 0)
    ((λ _, Fin 0) <$> current_route_times_from_start ed)
    (shortest_path_sequences ed)
    (mmap (λ _, 0) (route_nexts ed)) (mmap (λ _, 0) (n_transfers ed)) = ed.
Proof.
  unfold init_extra_data.
  cbv [mbind result_bind mret result_ret raise index_or_raise].
  intros H.
  assert (mmap (λ _ : Z, 0) (zeros_long n) = zeros_long n) as Hzeros.
  { apply mmap_const_mbuild, square_zeros_long. }
  repeat case_match; simplify_eq; unfold with_mutable, no_route; simpl;
    by rewrite !fmap_replicate, Hzeros.
Qed.

Section Fresh.
Context {lib : GraphAlgorithms}.


End Fresh.


(** ** The nodes that a number of transfers connects *)

Lemma sum_products_nonzero (row col : list nat) :
  sum_list (zip_with Nat.mul row col) ≠ 0%nat
  ↔ ∃ m x y, row !! m = Some x ∧ col !! m = Some y ∧ x ≠ 0%nat ∧ y ≠ 0%nat.
Proof.
  revert col. induction row as [| a row IH]; intros [| b col]; simpl.
  - split; [done | by intros (m & x & y & H & _)].
  - split; [done | by intros (m & x & y & H & _)].
  - split; [done | by intros (m & x & y & _ & H & _)].
  - split.
    + intros H. destruct (decide (a * b = 0)%nat) as [E | E].
      * destruct (proj1 (IH col) ltac:(lia)) as (m & x & y & Hx & Hy & Hxy).
        by exists (S m), x, y.
      * exists 0%nat, a, b. simpl. repeat split; try done; lia.
    + intros ([| m] & x & y & Hx & Hy & Hx0 & Hy0); simpl in *.
      * simplify_eq. nia.
      * assert (sum_list (zip_with Nat.mul row col) ≠ 0%nat); [| lia].
        apply IH. by exists m, x, y.
Qed.

Lemma square_width {A} n (m : mat A) :
  square n m → length (default [] (head m)) = n.
Proof.
  intros [Hl Hr]. destruct m as [| r m]; simpl in *; [done |].
  by inversion Hr.
Qed.

Lemma square_bmm n (a b : mat nat) : square n a → square n b → square n (bmm a b).
Proof.
  intros [Hla Hra] Hb. unfold bmm. rewrite (square_width n b Hb). split.
  - by rewrite length_fmap.
  - apply Forall_fmap, Forall_forall. intros row _. simpl.
    by rewrite length_fmap, length_seq.
Qed.

Lemma mlookup_bmm n (a b : mat nat) i j row :
  square n b → (j < n)%nat → a !! i = Some row →
  mlookup (bmm a b) i j
  = Some (sum_list (zip_with Nat.mul row ((λ r : list nat, default 0%nat (r !! j)) <$> b))).
Proof.
  intros Hb Hj Hrow. unfold mlookup, bmm. rewrite (square_width n b Hb).
  rewrite list_lookup_fmap, Hrow. simpl.
  by rewrite list_lookup_fmap, lookup_seq_lt.
Qed.

(** The counts after [k] products: not zero exactly at the ends of a
    chain of [k + 1] direct connections. *)
Lemma chains_counted n (dc : mat bool) k :
  square n dc →
  let counts :=
    Nat.iter k (λ connected, bmm connected (mmap nat_of_bool dc)) (mmap nat_of_bool dc) in
  square n counts
  ∧ ∀ i j, (∃ x, mlookup counts i j = Some x ∧ x ≠ 0%nat) ↔ chain dc k i j.
Proof.
  intros Hdc. induction k as [| k [Hsq IH]]; simpl.
  - split; [by apply square_mmap |]. intros i j. rewrite mlookup_mmap. split.
    + intros (x & Hx & Hx0).
      destruct (mlookup dc i j) as [[|] |]; simpl in Hx; simplify_eq; done.
    + intros ->. by exists 1%nat.
  - split; [apply square_bmm; [done | by apply square_mmap] |].
    intros i j. split.
    + intros (x & Hx & Hx0).
      destruct (mlookup_lt n _ i j x
                  (square_bmm n _ _ Hsq (square_mmap n nat_of_bool dc Hdc)) Hx) as [Hi Hj].
      destruct (lookup_lt_is_Some_2
                  (Nat.iter k (λ c, bmm c (mmap nat_of_bool dc)) (mmap nat_of_bool dc)) i)
        as [row Hrow]; [destruct Hsq; lia |].
      rewrite (mlookup_bmm n _ _ i j row) in Hx by (by apply square_mmap || done).
      injection Hx as <-.
      apply sum_products_nonzero in Hx0 as (m & a & b & Ha & Hb & Ha0 & Hb0).
      exists m. split.
      * apply IH. exists a. split; [| done]. unfold mlookup. by rewrite Hrow.
      * rewrite list_lookup_fmap in Hb. unfold mmap in Hb. rewrite list_lookup_fmap in Hb.
        unfold mlookup. destruct (dc !! m) as [r |]; simpl in Hb |- *; [| discriminate].
        injection Hb as <-. rewrite list_lookup_fmap in Hb0.
        by destruct (r !! j) as [[|] |].
    + intros (m & Hchain & Hlast).
      apply IH in Hchain as (a & Ha & Ha0).
      destruct (mlookup_lt n _ m j true Hdc Hlast) as [_ Hj].
      unfold mlookup in Ha.
      destruct (Nat.iter k _ _ !! i) as [row |] eqn:Hrow; simpl in Ha; [| discriminate].
      rewrite (mlookup_bmm n _ _ i j row) by (by apply square_mmap || done).
      eexists. split; [reflexivity |].
      apply sum_products_nonzero. exists m, a, 1%nat. repeat split; try done.
      rewrite list_lookup_fmap. unfold mmap. rewrite list_lookup_fmap.
      unfold mlookup in Hlast.
      destruct (dc !! m) as [r |]; simpl in Hlast |- *; [| discriminate].
      by rewrite list_lookup_fmap, Hlast.
Qed.

(** X12 ([nodes_are_connected]): with [n_transfers] the number of
    transfers, the mask has the shape of [directly_connected] and is
    true exactly for the pairs of nodes that a chain of
    [n_transfers + 1] direct connections joins. *)
Theorem nodes_are_connected_chains n n_transfers (sc : Scenario) :
  square n (directly_connected (extra_data sc)) →
  square n (nodes_are_connected n_transfers sc)
  ∧ ∀ i j, mlookup (nodes_are_connected n_transfers sc) i j = Some true
           ↔ chain (directly_connected (extra_data sc)) n_transfers i j.
Proof.
  intros Hdc. unfold nodes_are_connected.
  destruct (chains_counted n _ n_transfers Hdc) as [Hsq Hchains]. cbv zeta in *.
  split; [by apply square_mmap |]. intros i j.
  rewrite <- Hchains, mlookup_mmap. split.
  - destruct (mlookup _ i j) as [x |]; simpl; [| done].
    intros H. exists x. split; [done |]. intros ->. discriminate.
  - intros (x & -> & Hx). simpl. f_equal. unfold nonzero.
    by destruct x.
Qed.

(** In the planned example the route [0, 1, 2] connects every pair of
    nodes directly. *)
Lemma nodes_are_connected_chains_witness :
  ∃ sc, scenarios Example.planned !! 0%nat = Some sc
        ∧ square 3 (nodes_are_connected 2 sc)
        ∧ ∀ i j, mlookup (nodes_are_connected 2 sc) i j = Some true
                 ↔ chain (directly_connected (extra_data sc)) 2 i j.
Proof.
  eexists. split; [vm_compute; reflexivity |].
  apply (nodes_are_connected_chains 3 2).
  split; [reflexivity |]. repeat constructor.
Defined.

(** * Further properties of the helpers *)

(** ** enforce_correct_batch *)

(** X13 (batch enforcement): what [enforce_correct_batch] returns has
    [batch_size] matrices when the argument has at least one and
    [batch_size] is at least 1, holds matrices of the argument only,
    and is left as it is by a second call.  The function fails only on
    a stack of several matrices whose number is not [batch_size] (the
    assertion), and on a stack of no matrix that is to be expanded. *)
Theorem enforce_correct_batch_result {A} (matrix : batched A) (batch_size : Z) :
  let stack := match matrix with Rank2 m => [m] | Rank3 t => t end in
  match enforce_correct_batch matrix batch_size with
  | inr t =>
      (stack ≠ [] → 1 ≤ batch_size → Z.of_nat (length t) = batch_size)
      ∧ (∀ m, m ∈ t → m ∈ stack)
      ∧ enforce_correct_batch (Rank3 t) batch_size = inr t
  | inl e =>
      ((1 < length stack)%nat ∧ batch_size ≠ Z.of_nat (length stack)
       ∧ e = AssertionError "")
      ∨ (stack = [] ∧ 1 < batch_size ∧ e = RuntimeError)
  end.
Proof.
  intros stack. unfold enforce_correct_batch. fold stack.
  generalize stack. clear stack matrix. intros stack.
  case_bool_decide as Hmany.
  - case_bool_decide as Hsize; simpl.
    + split; [done |]. split; [done |]. by rewrite !bool_decide_eq_true_2.
    + left. by repeat split.
  - case_bool_decide as Hbatch.
    + destruct stack as [| m [| m' stack]]; simpl in *; [| | lia].
      * right. by repeat split.
      * split; [intros _ _; rewrite length_replicate; lia |].
        split.
        { intros x Hx. apply elem_of_replicate in Hx as [-> _]. apply elem_of_cons. by left. }
        rewrite length_replicate.
        rewrite bool_decide_eq_true_2 by lia.
        rewrite bool_decide_eq_true_2 by lia. done.
    + simpl. split.
      { intros Hne Hone. destruct stack as [| m [| m' stack]]; simpl in *; [done | lia | lia]. }
      split; [done |]. by rewrite bool_decide_eq_false_2.
Qed.

(** ** Sampled cost weights *)

Lemma clamp01_bounds x : (0 <= clamp01 x)%Q ∧ (clamp01 x <= 1)%Q.
Proof.
  unfold clamp01.
  destruct (Q.max_spec x 0) as [[H1 E1] | [H1 E1]];
    destruct (Q.min_spec (Qmax x 0) 1) as [[H2 E2] | [H2 E2]];
    revert E1 E2 H2; generalize (Qmin (Qmax x 0) 1); generalize (Qmax x 0);
    intros m c E1 E2 H2; split; lra.
Qed.

Lemma clamp01_low x : (x <= 0)%Q → (clamp01 x == 0)%Q.
Proof.
  intros Hx. unfold clamp01.
  destruct (Q.max_spec x 0) as [[H1 E1] | [H1 E1]];
    destruct (Q.min_spec (Qmax x 0) 1) as [[H2 E2] | [H2 E2]];
    revert E1 E2 H2; generalize (Qmin (Qmax x 0) 1); generalize (Qmax x 0);
    intros m c E1 E2 H2; lra.
Qed.

Lemma clamp01_high x : (1 <= x)%Q → (clamp01 x == 1)%Q.
Proof.
  intros Hx. unfold clamp01.
  destruct (Q.max_spec x 0) as [[H1 E1] | [H1 E1]];
    destruct (Q.min_spec (Qmax x 0) 1) as [[H2 E2] | [H2 E2]];
    revert E1 E2 H2; generalize (Qmin (Qmax x 0) 1); generalize (Qmax x 0);
    intros m c E1 E2 H2; lra.
Qed.

(** X14 (sampled weights): with fixed weights, every scenario gets the
    module's two weights.  With variable weights, whatever the samples
    are, the demand weight and the route weight of a scenario are
    between 0 and 1 and add up to 1; a sample of at most 1/3 gives the
    demand weight 0, a sample of at least 2/3 gives it 1. *)
Theorem sampled_weights (self : MyCostModule.t) (batch_size : nat) (samples : list Q) :
  if MyCostModule.variable_weights self then
    ∃ dtm rtm,
      sample_variable_weights self batch_size samples
      = [("demand_time_weight"%string, dtm); ("route_time_weight"%string, rtm)]
      ∧ length dtm = length samples ∧ length rtm = length samples
      ∧ ∀ i r, samples !! i = Some r →
          ∃ d t, dtm !! i = Some d ∧ rtm !! i = Some t
                 ∧ (0 <= d)%Q ∧ (d <= 1)%Q ∧ (0 <= t)%Q ∧ (t <= 1)%Q ∧ (d + t == 1)%Q
                 ∧ ((r <= 1 # 3)%Q → (d == 0)%Q)
                 ∧ ((2 # 3 <= r)%Q → (d == 1)%Q)
  else
    sample_variable_weights self batch_size samples
    = [("demand_time_weight"%string,
        replicate batch_size (MyCostModule.demand_time_weight self));
       ("route_time_weight"%string,
        replicate batch_size (MyCostModule.route_time_weight self))].
Proof.
  unfold sample_variable_weights.
  destruct (MyCostModule.variable_weights self); simpl; [| done].
  eexists _, _. split; [reflexivity |]. rewrite !length_fmap.
  split; [done |]. split; [done |].
  intros i r Hr. rewrite !list_lookup_fmap, Hr. simpl.
  eexists _, _. split; [done |]. split; [done |].
  set (x := (r * (1 + 2) - 2 / 2)%Q).
  assert ((r <= 1 # 3)%Q → (clamp01 x == 0)%Q) as Hlow.
  { intros Hlow. apply clamp01_low. unfold x, Qdiv. change (/ 2)%Q with (1 # 2)%Q. lra. }
  assert ((2 # 3 <= r)%Q → (clamp01 x == 1)%Q) as Hhigh.
  { intros Hhigh. apply clamp01_high. unfold x, Qdiv. change (/ 2)%Q with (1 # 2)%Q. lra. }
  destruct (clamp01_bounds x) as [H0 H1].
  revert Hlow Hhigh H0 H1. generalize (clamp01 x). intros c Hlow Hhigh H0 H1.
  repeat split; try done; lra.
Qed.

(** * Further properties of the cost helper *)

(** ** The check for loops *)

Lemma filter_true_insert (s : list bool) x :
  s !! x = Some false →
  length (filter (λ b, b = true) (<[x := true]> s)) = S (length (filter (λ b, b = true) s)).
Proof.
  revert x. induction s as [| b s IH]; intros x Hx; [done |].
  destruct x as [| x]; simpl in *.
  - injection Hx as ->. rewrite !filter_cons.
    destruct (decide (true = true)); [| done]. by destruct (decide (false = true)).
  - rewrite !filter_cons. destruct (decide (b = true)); simpl; by rewrite IH.
Qed.

Lemma slots_set_insert width (s : list bool) x :
  (x < width)%nat → s !! x = Some false →
  slots_set width (<[x := true]> s) = S (slots_set width s).
Proof.
  intros Hx Hs. unfold slots_set. rewrite take_insert_lt by done.
  apply filter_true_insert. by rewrite lookup_take_lt.
Qed.

Lemma slots_set_insert_outside width (s : list bool) x :
  (width ≤ x)%nat → slots_set width (<[x := true]> s) = slots_set width s.
Proof. intros Hx. unfold slots_set. by rewrite take_insert_ge. Qed.

(** Scattering a route into slots: the count grows by the stops that
    are new, so it reaches the number of stops exactly when the route
    is free of loops and none of its stops was set before. *)
Lemma scatter_count width (route : list Z) (s : list bool) :
  length s = S width →
  Forall (λ x, -1 ≤ x ≤ Z.of_nat width) route →
  let scatter :=
    foldl (λ (slots : list bool) x, <[Z.to_nat x := true]> slots) s
          ((λ x, if x =? -1 then Z.of_nat width else x) <$> route) in
  (slots_set width scatter ≤ slots_set width s + count_stops route)%nat
  ∧ (slots_set width scatter = (slots_set width s + count_stops route)%nat
     ↔ loop_free width route
       ∧ ∀ y, y ∈ valid_stops route → s !! Z.to_nat y = Some false).
Proof.
  intros Hlen Hrange. revert s Hlen.
  induction Hrange as [| x route Hx Hrange IH]; intros s Hlen; csimpl.
  { unfold loop_free, count_stops, valid_stops. simpl. split; [lia |].
    split; [| lia]. intros _. split; [split; constructor |].
    intros y Hy. by apply elem_of_nil in Hy. }
  unfold loop_free, count_stops, valid_stops in *. cbn zeta in IH.
  rewrite !filter_cons.
  destruct (Z.eqb_spec x (-1)) as [-> | Hne].
  - (* padding: the dummy slot *)
    rewrite decide_False by lia.
    specialize (IH (<[Z.to_nat (Z.of_nat width) := true]> s)).
    rewrite length_insert in IH. specialize (IH Hlen).
    rewrite slots_set_insert_outside in IH by lia.
    destruct IH as [IHle IHeq]. split; [exact IHle |].
    rewrite IHeq. split.
    + intros [[Hnd Hlt] Hfree]. split; [split; [done | constructor; [lia | done]] |].
      intros y Hy. specialize (Hfree y Hy).
      assert (y < Z.of_nat width) as Hyw.
      { apply list_elem_of_filter in Hy as [_ Hy].
        exact (proj1 (Forall_forall _ _) Hlt y Hy). }
      assert (-1 < y) as Hy0 by by apply list_elem_of_filter in Hy as [Hy _].
      rewrite list_lookup_insert_ne in Hfree by lia. done.
    + intros [[Hnd Hlt] Hfree]. inversion Hlt as [| ? ? _ Hlt']; subst.
      split; [done |]. intros y Hy.
      assert (y < Z.of_nat width) as Hyw.
      { apply list_elem_of_filter in Hy as [_ Hy].
        exact (proj1 (Forall_forall _ _) Hlt' y Hy). }
      assert (-1 < y) as Hy0 by by apply list_elem_of_filter in Hy as [Hy _].
      rewrite list_lookup_insert_ne by lia. by apply Hfree.
  - rewrite decide_True by lia. cbn [length].
    destruct (decide (x = Z.of_nat width)) as [-> | Hxw].
    + (* an entry that is the width: counted as a stop, set in the dummy slot *)
      specialize (IH (<[Z.to_nat (Z.of_nat width) := true]> s)).
      rewrite length_insert in IH. specialize (IH Hlen).
      rewrite slots_set_insert_outside in IH by lia.
      destruct IH as [IHle IHeq]. split; [lia |].
      split; [lia |]. intros [[_ Hlt] _]. inversion Hlt; lia.
    + assert (Z.to_nat x < width)%nat as Hxlt by lia.
      destruct (lookup_lt_is_Some_2 s (Z.to_nat x)) as [[|] Hsx]; [lia | |].
      * (* the stop was set before *)
        rewrite list_insert_id by done.
        destruct (IH s Hlen) as [IHle IHeq]. split; [lia |].
        split; [lia |]. intros [_ Hfree].
        specialize (Hfree x ltac:(apply elem_of_cons; by left)). congruence.
      * specialize (IH (<[Z.to_nat x := true]> s)).
        rewrite length_insert in IH. specialize (IH Hlen).
        rewrite slots_set_insert in IH by done.
        destruct IH as [IHle IHeq]. split; [lia |].
        assert (∀ n m k : nat, n = (S m + k)%nat ↔ n = (m + S k)%nat) as Harith by lia.
        rewrite <- Harith, IHeq. split.
        -- intros [[Hnd Hlt] Hfree]. split; [split |].
           ++ constructor; [| done]. intros Hin. specialize (Hfree x Hin).
              rewrite list_lookup_insert_eq in Hfree by lia. discriminate.
           ++ constructor; [lia | done].
           ++ intros y Hy. apply elem_of_cons in Hy as [-> | Hy]; [done |].
              specialize (Hfree y Hy).
              destruct (decide (Z.to_nat y = Z.to_nat x)) as [E | E].
              ** rewrite E, list_lookup_insert_eq in Hfree by lia. discriminate.
              ** by rewrite list_lookup_insert_ne in Hfree.
        -- intros [[Hnd Hlt] Hfree].
           apply NoDup_cons in Hnd as [Hnotin Hnd].
           inversion Hlt as [| ? ? _ Hlt']; subst.
           split; [done |]. intros y Hy.
           assert (-1 < y) as Hy0 by by apply list_elem_of_filter in Hy as [Hy _].
           rewrite list_lookup_insert_ne.
           ++ apply Hfree. apply elem_of_cons. by right.
           ++ intros E. apply Hnotin. by replace x with y by lia.
Qed.

Lemma slots_set_empty width n : slots_set width (replicate n false) = 0%nat.
Proof.
  unfold slots_set. revert width. induction n as [| n IH]; intros [| width]; try done.
  simpl. rewrite filter_cons. destruct (decide (false = true)); [done |]. apply IH.
Qed.

Lemma scatterer_in_range width (route : list Z) :
  forallb (λ x, (0 <=? x) && (x <=? Z.of_nat width))
          ((λ x, if x =? -1 then Z.of_nat width else x) <$> route) = true
  ↔ Forall (λ x, -1 ≤ x ≤ Z.of_nat width) route.
Proof.
  induction route as [| x route IH]; csimpl; [by split |].
  rewrite Forall_cons, <- IH, !andb_true_iff.
  destruct (Z.eqb_spec x (-1)); split; intros [? ?]; split; try done; lia.
Qed.

(** The count of one route: the number of its stops exactly when the
    route is free of loops. *)
Lemma n_stops_visited_spec width (route : list Z) :
  match n_stops_visited width route with
  | inr n =>
      Forall (λ x, -1 ≤ x ≤ Z.of_nat width) route
      ∧ (n ≤ count_stops route)%nat
      ∧ (n = count_stops route ↔ loop_free width route)
  | inl e => e = RuntimeError ∧ ¬ Forall (λ x, -1 ≤ x ≤ Z.of_nat width) route
  end.
Proof.
  unfold n_stops_visited.
  destruct (forallb _ _) eqn:Hrange; simpl.
  - apply scatterer_in_range in Hrange. split; [done |].
    destruct (scatter_count width route (replicate (S width) false)) as [Hle Heq];
      [by rewrite length_replicate | done |].
    cbn zeta in Hle, Heq. rewrite slots_set_empty in Hle, Heq.
    unfold slots_set in Hle, Heq. split; [exact Hle |].
    rewrite Heq. split; [by intros [? _] |]. intros Hfree. split; [done |].
    intros y Hy. apply list_elem_of_filter in Hy as [Hy0 Hy].
    pose proof (proj1 (Forall_forall _ _) Hrange y Hy) as Hyr. simpl in Hyr.
    apply lookup_replicate_2. lia.
  - split; [done |]. intros Hok. apply scatterer_in_range in Hok. congruence.
Qed.

(** X15 ([CostModule._cost_helper], the check for loops): the check
    on the routes of a scenario fails with a [RuntimeError] exactly
    when an entry lies outside [-1 .. max_n_nodes]; otherwise it
    passes exactly when every route visits no stop twice and has no
    entry that is [max_n_nodes]. *)
Theorem loop_check_decides_loop_free width (batch_routes : mat Z) :
  match no_loops width batch_routes with
  | inr passed =>
      Forall (Forall (λ x, -1 ≤ x ≤ Z.of_nat width)) batch_routes
      ∧ (passed = true ↔ Forall (loop_free width) batch_routes)
  | inl e =>
      e = RuntimeError
      ∧ ¬ Forall (Forall (λ x, -1 ≤ x ≤ Z.of_nat width)) batch_routes
  end.
Proof.
  unfold no_loops.
  assert (match mapM (M := result) (n_stops_visited width) batch_routes with
          | inr visited =>
              Forall (Forall (λ x, -1 ≤ x ≤ Z.of_nat width)) batch_routes
              ∧ (visited = count_stops <$> batch_routes
                 ↔ Forall (loop_free width) batch_routes)
          | inl e =>
              e = RuntimeError
              ∧ ¬ Forall (Forall (λ x, -1 ≤ x ≤ Z.of_nat width)) batch_routes
          end) as Hvisited.
  { induction batch_routes as [| route batch_routes IH]; csimpl.
    { split; [done |]. by split. }
    pose proof (n_stops_visited_spec width route) as Hroute.
    destruct (n_stops_visited width route) as [e | n]; csimpl.
    { destruct Hroute as [-> Hbad]. split; [done |].
      intros Hok. by inversion Hok. }
    destruct Hroute as (Hrange & _ & Hn).
    destruct (mapM _ batch_routes) as [e | visited]; csimpl.
    { destruct IH as [-> Hbad]. split; [done |].
      intros Hok. by inversion Hok. }
    destruct IH as [Hranges Hall]. split; [by constructor |].
    rewrite Forall_cons, <- Hn, <- Hall. split.
    - intros E. by injection E.
    - intros [-> ->]. done. }
  destruct (mapM _ batch_routes) as [e | visited]; csimpl; [done |].
  destruct Hvisited as [Hranges Hall]. split; [done |].
  by rewrite bool_decide_eq_true.
Qed.

(** ** The demand edges without a path *)

Lemma count_needed_row (ns : list bool) (ds : list Q) :
  (length (filter (λ b, b = true) (zip_with (λ (n : bool) (d : Q), n && Qpos d) ns ds))
   ≤ length (filter (λ b, b = true) ((λ d : Q, Qpos d) <$> ds)))%nat.
Proof.
  revert ds. induction ns as [| n ns IH]; intros [| d ds]; csimpl; try lia.
  rewrite !filter_cons. specialize (IH ds).
  destruct n, (Qpos d); simpl; repeat case_decide; simpl; try done; lia.
Qed.

Lemma count_needed (nopath : mat bool) (dm : mat Q) :
  (count_true (mzip_with (λ (n : bool) (d : Q), n && Qpos d) nopath dm)
   ≤ count_true (mmap (λ d : Q, Qpos d) dm))%nat.
Proof.
  unfold count_true, mzip_with, mmap.
  revert dm. induction nopath as [| ns nopath IH]; intros [| ds dm]; csimpl; try lia.
  pose proof (count_needed_row ns ds). specialize (IH dm). lia.
Qed.

(** X16 ([get_n_disconnected_demand_edges], [n_demand_edges]): the
    demand edges without a path are at least none and at most the
    demand edges, with symmetric routes as without. *)
Theorem disconnected_demand_edges_bounds (symmetric : bool) (sc : Scenario) :
  (0 <= get_n_disconnected_demand_edges symmetric sc
   ∧ get_n_disconnected_demand_edges symmetric sc <= n_demand_edges symmetric sc)%Q.
Proof.
  unfold get_n_disconnected_demand_edges, n_demand_edges. cbv zeta.
  pose proof (count_needed (mmap negb (has_path (extra_data sc))) (demand (graph_data sc)))
    as Hle.
  set (n := count_true (mzip_with _ _ _)) in *. set (m := count_true (mmap _ _)) in *.
  assert (0 <= inject_Z (Z.of_nat n))%Q as Hn.
  { change 0%Q with (inject_Z 0). rewrite <- Zle_Qle. lia. }
  assert (inject_Z (Z.of_nat n) <= inject_Z (Z.of_nat m))%Q as Hnm.
  { rewrite <- Zle_Qle. lia. }
  destruct symmetric.
  - pose proof (Qle_ceiling (inject_Z (Z.of_nat m) / 2)) as Hceil.
    revert Hn Hnm Hceil. generalize (inject_Z (Qceiling (inject_Z (Z.of_nat m) / 2))).
    generalize (inject_Z (Z.of_nat n)). generalize (inject_Z (Z.of_nat m)).
    intros a b c Hb Hba Hc. unfold Qdiv in *. change (/ 2)%Q with (1 # 2)%Q in *.
    split; lra.
  - split; done.
Qed.

(** ** The reported metrics *)

Lemma column_ok {A} (k : nat) (t : mat A) :
  Forall (λ row, (k < length row)%nat) t →
  ∃ c, column k t = inr c ∧ length c = length t.
Proof.
  intros H. apply mapM_result_ok. eapply Forall_impl; [exact H |].
  intros row Hk. simpl in Hk. destruct (lookup_lt_is_Some_2 row k Hk) as [x Hx].
  exists x. by rewrite Hx.
Qed.

(** What the helper returns: a row for every scenario, four buckets in
    every row of the trips by transfers, and no cost. *)
Lemma cost_helper_shape {lib : GraphAlgorithms} self st cho :
  _cost_helper self st = inr cho →
  let n := batch_size st in
  length (CostHelperOutput.total_demand_time cho) = n
  ∧ length (CostHelperOutput.total_route_time cho) = n
  ∧ length (CostHelperOutput.trips_at_transfers cho) = n
  ∧ Forall (λ row, length row = 4%nat) (CostHelperOutput.trips_at_transfers cho)
  ∧ length (CostHelperOutput.total_demand cho) = n
  ∧ length (CostHelperOutput.n_disconnected_demand_edges cho) = n
  ∧ length (CostHelperOutput.n_stops_oob cho) = n
  ∧ CostHelperOutput.cost cho = None.
Proof.
  intros Hcho. unfold _cost_helper in Hcho.
  cbv [mbind result_bind mret result_ret raise] in Hcho.
  destruct (negb (bool_decide _)) eqn:Hsize; [discriminate |].
  apply negb_false_iff, bool_decide_eq_true in Hsize.
  repeat case_match; simplify_eq. cbn [CostHelperOutput.total_demand_time
    CostHelperOutput.total_route_time CostHelperOutput.trips_at_transfers
    CostHelperOutput.total_demand CostHelperOutput.n_disconnected_demand_edges
    CostHelperOutput.n_stops_oob CostHelperOutput.cost].
  rewrite !length_fmap, length_zip_with, Hsize. unfold batch_size.
  repeat split; try done; try lia.
  apply Forall_fmap, Forall_forall. intros sc _. done.
Qed.

(** The metrics of an output of that shape: the nine of them, each
    but the cost a value for every scenario. *)
Lemma get_metrics_shape cho n :
  length (CostHelperOutput.total_demand_time cho) = n →
  length (CostHelperOutput.total_route_time cho) = n →
  length (CostHelperOutput.trips_at_transfers cho) = n →
  Forall (λ row, length row = 4%nat) (CostHelperOutput.trips_at_transfers cho) →
  length (CostHelperOutput.total_demand cho) = n →
  length (CostHelperOutput.n_disconnected_demand_edges cho) = n →
  length (CostHelperOutput.n_stops_oob cho) = n →
  ∃ att rtt d_0 d_1 d_2 d_un nd oob,
    get_metrics cho
    = inr [("cost"%string, CostHelperOutput.cost cho); ("ATT"%string, Some att);
           ("RTT"%string, Some rtt); ("$d_0$"%string, Some d_0);
           ("$d_1$"%string, Some d_1); ("$d_2$"%string, Some d_2);
           ("$d_{un}$"%string, Some d_un);
           ("# disconnected node pairs"%string, Some nd);
           ("# stops out of bounds"%string, Some oob)]
    ∧ Forall (λ v : list tfloat, length v = n) [att; rtt; d_0; d_1; d_2; d_un; nd; oob].
Proof.
  intros Htdt Htrt Htat Hfour Htd Hnd Hoob. unfold get_metrics, broadcast2.
  rewrite !bool_decide_eq_true_2 by congruence. csimpl.
  set (percent := mmap _ _).
  assert (length percent = n) as Hlen.
  { unfold percent, mmap. rewrite length_fmap, length_zip_with. lia. }
  assert (Forall (λ row : list tfloat, length row = 4%nat) percent) as Hrows.
  { unfold percent, mmap. apply Forall_fmap, Forall_lookup. intros i row Hrow.
    apply lookup_zip_with_Some in Hrow as (r & d & -> & Hr & _). simpl.
    rewrite !length_fmap. exact (proj1 (Forall_lookup _ _) Hfour _ _ Hr). }
  assert (∀ k, (k < 4)%nat → ∃ c, column k percent = inr c ∧ length c = n) as Hcol.
  { intros k Hk. rewrite <- Hlen. apply column_ok.
    eapply Forall_impl; [exact Hrows |]. intros row Hrow. simpl in *. lia. }
  destruct (Hcol 0%nat ltac:(lia)) as (d_0 & -> & H0).
  destruct (Hcol 1%nat ltac:(lia)) as (d_1 & -> & H1).
  destruct (Hcol 2%nat ltac:(lia)) as (d_2 & -> & H2).
  destruct (Hcol 3%nat ltac:(lia)) as (d_un & -> & H3). csimpl.
  do 8 eexists. split; [reflexivity |].
  repeat constructor; rewrite ?length_fmap, ?length_zip_with; lia.
Qed.

Lemma stack_last_shape (vs : list (list tfloat)) n :
  vs ≠ [] → Forall (λ v, length v = n) vs →
  ∃ m, stack_last (Some <$> vs) = inr m
       ∧ length m = n ∧ Forall (λ row, length row = length vs) m.
Proof.
  intros Hne Hall. unfold stack_last.
  assert (mapM (M := result)
            (λ o : option (list tfloat),
               match o with Some v => mret v | None => raise TypeError end)
            (Some <$> vs) = inr vs) as ->.
  { clear. induction vs as [| v vs IH]; [done |].
    change (Some <$> v :: vs) with (Some v :: (Some <$> vs)).
    set (f := λ o : option (list tfloat), _) in *.
    change (mapM f (Some v :: (Some <$> vs)))
      with (y ← f (Some v); k ← mapM f (Some <$> vs); mret (y :: k)).
    by rewrite IH. }
  csimpl. destruct vs as [| v vs]; [done |].
  assert (forallb (λ w : list tfloat, bool_decide (length w = length v)) (v :: vs) = true)
    as ->.
  { apply forallb_forall. intros w Hw. apply bool_decide_eq_true.
    apply list_elem_of_In in Hw.
    pose proof (proj1 (Forall_forall _ _) Hall w Hw) as Ew.
    pose proof (proj1 (Forall_forall _ _) Hall v ltac:(apply elem_of_cons; by left)) as Ev.
    simpl in *. congruence. }
  eexists. split; [reflexivity |]. rewrite length_fmap, length_seq.
  split; [by inversion Hall |].
  apply Forall_fmap, Forall_forall. intros i _. simpl. by rewrite length_fmap.
Qed.

Section Metrics.
Context {lib : GraphAlgorithms}.

Lemma metrics_tensor_with_cost cho cost n :
  length (CostHelperOutput.total_demand_time cho) = n →
  length (CostHelperOutput.total_route_time cho) = n →
  length (CostHelperOutput.trips_at_transfers cho) = n →
  Forall (λ row, length row = 4%nat) (CostHelperOutput.trips_at_transfers cho) →
  length (CostHelperOutput.total_demand cho) = n →
  length (CostHelperOutput.n_disconnected_demand_edges cho) = n →
  length (CostHelperOutput.n_stops_oob cho) = n →
  length cost = n →
  ∃ m, get_metrics_tensor (CostHelperOutput.set_cost cost cho) = inr m
       ∧ length m = n ∧ Forall (λ row, length row = 9%nat) m.
Proof.
  intros Htdt Htrt Htat Hfour Htd Hnd Hoob Hcost.
  destruct (get_metrics_shape (CostHelperOutput.set_cost cost cho) n)
    as (att & rtt & d_0 & d_1 & d_2 & d_un & nd & oob & Hmetrics & Hlens); try done.
  unfold get_metrics_tensor. rewrite Hmetrics. csimpl.
  apply (stack_last_shape [cost; att; rtt; d_0; d_1; d_2; d_un; nd; oob] n); [done |].
  by constructor.
Qed.

(** X17 ([CostHelperOutput.get_metrics_tensor]): the tensor of the
    metrics cannot be taken of what [_cost_helper] returns, which has
    no cost: that raises a [TypeError].  Of what the [forward] of
    either cost module returns, it has a row for every scenario and
    nine columns. *)
Theorem metrics_tensor_needs_cost (st : RouteGenBatchState) :
  (∀ self cho, _cost_helper self st = inr cho → get_metrics_tensor cho = inl TypeError)
  ∧ ∀ cho,
      ((∃ self constraint_weight no_norm,
          MyCostModule_forward self st constraint_weight no_norm = inr cho)
       ∨ ∃ self, NikolicCostModule_forward self st = inr cho) →
      ∃ m, get_metrics_tensor cho = inr m
           ∧ length m = batch_size st ∧ Forall (λ row, length row = 9%nat) m.
Proof.
  split.
  - intros self cho Hcho.
    destruct (cost_helper_shape self st cho Hcho)
      as (Htdt & Htrt & Htat & Hfour & Htd & Hnd & Hoob & Hcost).
    destruct (get_metrics_shape cho (batch_size st))
      as (att & rtt & d_0 & d_1 & d_2 & d_un & nd & oob & Hmetrics & _); try done.
    unfold get_metrics_tensor. rewrite Hmetrics, Hcost. reflexivity.
  - intros cho [(self & cw & no_norm & Hfw) | (self & Hfw)].
    + unfold MyCostModule_forward in Hfw.
      destruct (_cost_helper (My self) st) as [e | cho0] eqn:Hcho; [discriminate |].
      csimpl in Hfw. destruct (mapM _ _) as [e | cost] eqn:Hcost; [discriminate |].
      csimpl in Hfw. apply mapM_result_length in Hcost. rewrite length_imap in Hcost.
      repeat case_match; try discriminate. injection Hfw as <-.
      destruct (cost_helper_shape _ st cho0 Hcho)
        as (Htdt & Htrt & Htat & Hfour & Htd & Hnd & Hoob & _).
      by apply metrics_tensor_with_cost.
    + unfold NikolicCostModule_forward in Hfw.
      destruct (_cost_helper (Nikolic self) st) as [e | cho0] eqn:Hcho; [discriminate |].
      csimpl in Hfw. destruct (mapM _ _) as [e | rows] eqn:Hrows; [discriminate |].
      csimpl in Hfw. apply mapM_result_length in Hrows. rewrite length_imap in Hrows.
      repeat case_match; try discriminate. injection Hfw as <-.
      destruct (cost_helper_shape _ st cho0 Hcho)
        as (Htdt & Htrt & Htat & Hfour & Htd & Hnd & Hoob & _).
      apply metrics_tensor_with_cost; try done. by rewrite length_fmap.
Qed.

End Metrics.

(** ** The percentages of the trips by transfers *)

Lemma column_lookup {A} (k : nat) (t : mat A) c b row :
  column k t = inr c → t !! b = Some row → c !! b = row !! k.
Proof.
  unfold column. revert c b. induction t as [| r t IH]; intros c b Hc Hb; [done |].
  simpl in Hc. destruct (index_or_raise (r !! k)) as [e | x] eqn:Hx; simpl in Hc;
    [discriminate |].
  destruct (mapM _ t) as [e | c'] eqn:Hc'; simpl in Hc; [discriminate |].
  injection Hc as <-. destruct b as [| b]; simpl in *.
  - injection Hb as <-. destruct (r !! k); [| discriminate]. by injection Hx as ->.
  - by apply IH.
Qed.

Lemma get_metrics_columns cho metrics b :
  get_metrics cho = inr metrics →
  length (CostHelperOutput.trips_at_transfers cho)
  = length (CostHelperOutput.total_demand cho) →
  ∀ row, percent_tat cho !! b = Some row →
    metric "$d_0$" metrics b = row !! 0%nat ∧ metric "$d_1$" metrics b = row !! 1%nat
    ∧ metric "$d_2$" metrics b = row !! 2%nat ∧ metric "$d_{un}$" metrics b = row !! 3%nat.
Proof.
  intros Hmetrics Hlen row Hrow. unfold get_metrics, broadcast2 in Hmetrics.
  rewrite (bool_decide_eq_true_2 _ Hlen) in Hmetrics.
  cbv [mbind result_bind mret result_ret] in Hmetrics.
  fold (percent_tat cho) in Hmetrics.
  destruct (if bool_decide _ then _ else _) as [e | mean_time]; [discriminate |].
  destruct (column 0 _) as [e | d_0] eqn:H0; [discriminate |].
  destruct (column 1 _) as [e | d_1] eqn:H1; [discriminate |].
  destruct (column 2 _) as [e | d_2] eqn:H2; [discriminate |].
  destruct (column 3 _) as [e | d_un] eqn:H3; [discriminate |].
  injection Hmetrics as <-.
  rewrite <- (column_lookup _ _ _ _ _ H0 Hrow), <- (column_lookup _ _ _ _ _ H1 Hrow),
    <- (column_lookup _ _ _ _ _ H2 Hrow), <- (column_lookup _ _ _ _ _ H3 Hrow).
  done.
Qed.

Section Percentages.
Context {lib : GraphAlgorithms} {lib_ok : GraphAlgorithmsSpec lib}.

(** What [forward] returns is what the helper returns, with a cost for
    every scenario. *)
Lemma forward_output st cho :
  (∃ self constraint_weight no_norm,
     MyCostModule_forward self st constraint_weight no_norm = inr cho)
  ∨ (∃ self, NikolicCostModule_forward self st = inr cho) →
  ∃ self cho0 cost,
    _cost_helper self st = inr cho0
    ∧ cho = CostHelperOutput.set_cost cost cho0 ∧ length cost = batch_size st.
Proof.
  intros [(self & cw & no_norm & Hfw) | (self & Hfw)].
  - unfold MyCostModule_forward in Hfw.
    destruct (_cost_helper (My self) st) as [e | cho0] eqn:Hcho; [discriminate |].
    simpl in Hfw. destruct (mapM _ _) as [e | cost] eqn:Hcost; [discriminate |].
    simpl in Hfw. apply mapM_result_length in Hcost. rewrite length_imap in Hcost.
    repeat case_match; try discriminate. injection Hfw as <-.
    by exists (My self), cho0, cost.
  - unfold NikolicCostModule_forward in Hfw.
    destruct (_cost_helper (Nikolic self) st) as [e | cho0] eqn:Hcho; [discriminate |].
    simpl in Hfw. destruct (mapM _ _) as [e | rows] eqn:Hrows; [discriminate |].
    simpl in Hfw. apply mapM_result_length in Hrows. rewrite length_imap in Hrows.
    repeat case_match; try discriminate. injection Hfw as <-.
    eexists (Nikolic self), cho0, _. split; [done |]. split; [done |].
    by rewrite length_fmap.
Qed.

Lemma cost_helper_buckets self st cho :
  _cost_helper self st = inr cho →
  CostHelperOutput.trips_at_transfers cho = trips_at_transfers <$> scenarios st
  ∧ CostHelperOutput.total_demand cho = total_demand <$> scenarios st.
Proof.
  intros Hcho. unfold _cost_helper in Hcho.
  cbv [mbind result_bind mret result_ret raise] in Hcho.
  repeat case_match; try discriminate. by injection Hcho as <-.
Qed.


End Percentages.


(** ** The weights that a state has recorded *)

Lemma same_network_weights sc' sc : same_network sc' sc → same_weights sc' sc.
Proof. intros [_ (a & b & c & d & e & H)]. unfold same_weights. by rewrite H. Qed.

Lemma Forall2_same_weights_trans l1 l2 l3 :
  Forall2 same_weights l1 l2 → Forall2 same_weights l2 l3 → Forall2 same_weights l1 l3.
Proof.
  apply Forall2_trans. intros x y z. unfold same_weights. congruence.
Qed.

Lemma Forall2_same_network_weights l1 l2 :
  Forall2 same_network l1 l2 → Forall2 same_weights l1 l2.
Proof. intros H. eapply Forall2_impl; [exact H | apply same_network_weights]. Qed.

Lemma init_extra_data_weights n cost vts nrs ws fixed ii dd ed :
  init_extra_data n cost vts nrs ws fixed ii dd = inr ed →
  mapM (M := result)
       (λ kv : string * list Q, w ← index_or_raise (kv.2 !! ii); mret (kv.1, w)) ws
  = inr (cost_weights ed).
Proof.
  unfold init_extra_data. intros H.
  destruct (index_or_raise (vts !! ii)) as [e | vt]; [discriminate |].
  destruct (index_or_raise (nrs !! ii)) as [e | nr]; [discriminate |].
  destruct (cost_min_route_len cost) as [minl |]; [| discriminate].
  cbn [mbind result_bind mret result_ret] in H.
  destruct (mapM _ ws) as [e | cw]; [discriminate |].
  destruct fixed as [f |]; [case_bool_decide |]; try discriminate;
    by injection H as <-.
Qed.

Section Weights.
Context {lib : GraphAlgorithms}.

(** A state constructed with a [MyCostModule], and without weights of
    its own, records the two weights of the module in every scenario. *)
Lemma init_records_weights graphs m n_routes vts fixed st :
  __init__ graphs (My m) n_routes vts None fixed = inr st →
  Forall (λ sc, cost_weights (extra_data sc)
                = [("demand_time_weight"%string, MyCostModule.demand_time_weight m);
                   ("route_time_weight"%string, MyCostModule.route_time_weight m)])
         (scenarios st).
Proof.
  intros H. unfold __init__ in H.
  destruct (mapM _ _) as [e | eds] eqn:Heds; simpl in H; [discriminate |].
  injection H as <-. apply (init_scenarios _ _ _ _ _ _ _ 0%nat) in Heds.
  simpl. apply Forall_lookup. intros i sc Hi.
  apply lookup_zip_with_Some in Hi as (dd & ed & -> & Hdd & Hed).
  destruct (Forall2_lookup_lr _ _ _ _ _ _ Heds Hdd Hed) as (ii & Hinit).
  apply init_extra_data_weights in Hinit. simpl in Hinit |- *.
  unfold index_or_raise in Hinit.
  destruct (replicate _ (MyCostModule.demand_time_weight m) !! ii) as [a |] eqn:Ha;
    simpl in Hinit; [| discriminate].
  destruct (replicate _ (MyCostModule.route_time_weight m) !! ii) as [b |] eqn:Hb;
    simpl in Hinit; [| discriminate].
  apply lookup_replicate in Ha as [-> _]. apply lookup_replicate in Hb as [-> _].
  by injection Hinit as <-.
Qed.

Lemma update_on_routes_weights st routes a b :
  Forall2 same_weights (scenarios (final_state (_update_on_routes st routes a b)))
          (scenarios st).
Proof.
  assert (∀ l, Forall2 same_weights l l) as Hrefl.
  { intros l. by apply Forall_Forall2_diag, Forall_forall. }
  unfold _update_on_routes. case_bool_decide as Hlen; simpl; [| apply Hrefl].
  set (scs1 := zip_with (merge_routes (symmetric_routes st)) (scenarios st) routes).
  assert (Forall2 same_weights scs1 (scenarios st)) as H1.
  { apply Forall2_zip_with_l; [done |]. by intros sc r. }
  match goal with |- context [connect_loop scs1 ?c ?e] =>
    pose proof (connect_loop_frame scs1 c e) as H2;
    destruct (connect_loop scs1 c e) as [scs2 [e' |]] end; simpl in *.
  - eapply Forall2_same_weights_trans; [| exact H1].
    eapply Forall2_impl; [exact H2 |]. by intros sc' sc [dc ->].
  - eapply Forall2_same_weights_trans;
      [| eapply Forall2_same_weights_trans; [| exact H1]].
    + apply Forall2_fmap_diag. by intros sc.
    + eapply Forall2_impl; [exact H2 |]. by intros sc' sc [dc ->].
Qed.

Lemma shortest_path_action_weights st pis :
  Forall2 same_weights (scenarios (final_state (shortest_path_action st pis)))
          (scenarios st).
Proof.
  destruct (shortest_path_action_cases st pis)
    as [(e & st1 & -> & H & _) | (st2 & routes & -> & H & _)]; simpl.
  - by apply Forall2_same_network_weights.
  - eapply Forall2_same_weights_trans; [apply update_on_routes_weights |].
    by apply Forall2_same_network_weights.
Qed.

Lemma add_new_routes_weights st new a b :
  Forall2 same_weights (scenarios (final_state (add_new_routes st new a b)))
          (scenarios st).
Proof.
  destruct (add_new_routes_cases st new a b)
    as [(e & st1 & -> & H) | (st2 & -> & H & _)]; simpl.
  - by apply Forall2_same_network_weights.
  - eapply Forall2_same_weights_trans; [apply update_on_routes_weights |].
    by apply Forall2_same_network_weights.
Qed.

Lemma clear_helper_weights st batch_index :
  Forall2 same_weights (scenarios (_clear_routes_helper st batch_index)) (scenarios st).
Proof.
  unfold _clear_routes_helper. simpl. apply Forall2_imap_diag.
  intros i sc. by case_bool_decide.
Qed.

Lemma evolves_weights st0 st :
  evolves st0 st → Forall2 same_weights (scenarios st) (scenarios st0).
Proof.
  induction 1 as [| st pis _ IH | st new a b _ IH | st new a b _ IH | st _ IH | st _ IH].
  - by apply Forall_Forall2_diag, Forall_forall.
  - eapply Forall2_same_weights_trans; [apply shortest_path_action_weights | exact IH].
  - eapply Forall2_same_weights_trans; [apply add_new_routes_weights | exact IH].
  - unfold replace_routes.
    eapply Forall2_same_weights_trans; [apply add_new_routes_weights |].
    eapply Forall2_same_weights_trans; [apply clear_helper_weights | exact IH].
  - eapply Forall2_same_weights_trans; [apply clear_helper_weights | exact IH].
  - unfold reset_dones. case_bool_decide; [| exact IH].
    eapply Forall2_same_weights_trans; [apply clear_helper_weights | exact IH].
Qed.

(** With both weights recorded in the scenario, the cost does not read
    those of the module. *)
Lemma my_cost_recorded self d r sym cw no_norm sc tdt trt td ud nd oob w1 w2 :
  dict_get "demand_time_weight" (cost_weights (extra_data sc)) = Some w1 →
  dict_get "route_time_weight" (cost_weights (extra_data sc)) = Some w2 →
  my_cost (set_weights self d r None) sym cw no_norm sc tdt trt td ud nd oob
  = my_cost self sym cw no_norm sc tdt trt td ud nd oob.
Proof. intros H1 H2. unfold my_cost. by rewrite H1, H2. Qed.

Lemma mapM_result_ext {A B} (f g : A → result B) (l : list A) :
  Forall (λ x, f x = g x) l → mapM (M := result) f l = mapM g l.
Proof.
  induction 1 as [| x l Hx _ IH]; [done |].
  change (mapM f (x :: l)) with (y ← f x; k ← mapM f l; mret (y :: k)).
  change (mapM g (x :: l)) with (y ← g x; k ← mapM g l; mret (y :: k)).
  by rewrite Hx, IH.
Qed.


End Weights.


(** ** The cost of [NikolicCostModule] *)

Lemma nikolic_cost_served self tdt td u times :
  isfinite (nikolic_cost self tdt td u times) = true → (u == 0)%Q →
  tfloat_eq (nikolic_cost self tdt td u times) tdt.
Proof.
  unfold nikolic_cost. cbv zeta.
  generalize (tadd (if isclose0 (td - u) then tmean times else tdiv tdt (Num (td - u)))
                   (Num (NikolicCostModule.unsatisfied_penalty_extra_s self))).
  intros w Hfin Hu. destruct tdt as [a | | |], w as [b | | |]; simpl in *;
    try discriminate; try (unfold signed_inf in *; destruct (0 ?= u)%Q; discriminate).
  rewrite Hu. ring.
Qed.

Section NikolicServed.
Context {lib : GraphAlgorithms}.

(** X20 ([NikolicCostModule.forward]): the cost that is returned for a
    scenario is not zero when the scenario has demand, and it is the
    total travel time of the demand when no demand is unserved. *)
Theorem nikolic_cost_of_served_demand self st cho b sc :
  NikolicCostModule_forward self st = inr cho →
  scenarios st !! b = Some sc →
  ∃ c, CostHelperOutput.cost cho ≫= (.!! b) = Some c
       ∧ (Qpos (total_demand sc) = true → teq0 c = false)
       ∧ ((unserved_demand sc == 0)%Q → tfloat_eq c (total_dmd_time sc)).
Proof.
  unfold NikolicCostModule_forward.
  cbv [mbind result_bind mret result_ret raise]. intros H Hsc.
  destruct (_cost_helper (Nikolic self) st) as [e | cho0] eqn:Hcho; [discriminate |].
  destruct (mapM _ _) as [e | rows] eqn:Hrows; [discriminate |].
  destruct (existsb _ _) eqn:Hzero; [discriminate |].
  destruct (forallb isfinite _) eqn:Hfin; simpl in H; [| discriminate].
  injection H as <-. simpl.
  apply mapM_result_Forall2 in Hrows.
  assert (imap pair (scenarios st) !! b = Some (b, sc)) as Hb.
  { by rewrite list_lookup_imap, Hsc. }
  destruct (Forall2_lookup_l _ _ _ _ _ Hrows Hb) as (r & Hr & Hrow). simpl in Hrow.
  destruct (cost_helper_row _ _ _ _ _ _ Hcho Hsc Hrow) as (E1 & _ & E3 & E4 & E5).
  destruct r as [[[[[[tdt trt] td] ud] nd] oob] times]. simpl in *. subst.
  rewrite list_lookup_fmap, Hr. simpl. eexists. split; [reflexivity |].
  set (c := nikolic_cost _ _ _ _ _).
  assert (isfinite c = true) as Hc.
  { eapply forallb_lookup; [exact Hfin |]. by rewrite list_lookup_fmap, Hr. }
  split.
  - intros Hpos. destruct (teq0 c) eqn:Ec; [| done].
    rewrite (existsb_lookup _ _ b (c, total_demand sc)) in Hzero; [discriminate | |].
    + apply lookup_zip_Some. split; [by rewrite list_lookup_fmap, Hr |].
      destruct (cost_helper_buckets _ _ _ Hcho) as [_ ->].
      by rewrite list_lookup_fmap, Hsc.
    + simpl. by rewrite Ec, Hpos.
  - intros Hu. by apply nikolic_cost_served.
Qed.

End NikolicServed.

(** The planned example: its one trip is served by the route. *)
Lemma nikolic_cost_of_served_demand_witness :
  ∃ cho sc,
    NikolicCostModule_forward (lib := Reference.lib) Example.nikolic_module Example.planned
    = inr cho
    ∧ scenarios Example.planned !! 0%nat = Some sc
    ∧ ∃ c, CostHelperOutput.cost cho ≫= (.!! 0%nat) = Some c
           ∧ (Qpos (total_demand sc) = true → teq0 c = false)
           ∧ ((unserved_demand sc == 0)%Q → tfloat_eq c (total_dmd_time sc)).
Proof.
  eexists _, _. split; [vm_compute; reflexivity |]. split; [vm_compute; reflexivity |].
  apply (nikolic_cost_of_served_demand (lib := Reference.lib)
           Example.nikolic_module Example.planned _ 0%nat _); vm_compute; reflexivity.
Defined.
